(** * pyklatt: a shallow embedding of the Klatt synthesizer and its rule pipeline

    The development follows the layout of the Python sources:
    - [Py]: the fragment of Python 2 values the program computes with
      (ints, floats, exceptions, list indexing and slicing);
    - [parwave]: resonators and [Synthesizer] (src/parwave.py);
    - [universal_rules]: nasalization, liaison, contour shaping
      (src/universal_rules.py);
    - [language_rules]: the rule chain (src/language_rules.py);
    - [transform]: tokens, sentences and the orchestration (src/transform.py).

    Definitions come first; the properties proved about them follow. *)

From Stdlib Require Import String Ascii.
From Stdlib Require Import ZArith List Bool Floats Lia.
Import ListNotations.
Set Warnings "-inexact-float".
Local Open Scope Z_scope.

(** ** Python values *)

Module Py.

(** Exceptions the modelled code can raise.  [InvalidCharacter w s] is the
      [ValueError] that [transform._extractSentence] raises, whose message
      names word [w] and sentence [s]; plain [ValueError] covers [int(nan)],
      tuple unpacking of the wrong length and math domain errors. *)
Inductive exn : Type :=
  | IndexError
  | KeyError
  | ZeroDivisionError
  | OverflowError
  | ValueError
  | InvalidCharacter (word sentence : Z).

(** Outcome of a call: a value, an exception, or a loop that never exits. *)
Inductive result (A : Type) : Type :=
  | Ok (a : A)
  | Raise (e : exn)
  | Diverge.
Arguments Ok {A} a.
Arguments Raise {A} e.
Arguments Diverge {A}.

Definition bind {A B : Type} (m : result A) (k : A -> result B) : result B :=
    match m with
    | Ok a => k a
    | Raise e => Raise e
    | Diverge => Diverge
    end.

Fixpoint mapM {A B : Type} (f : A -> result B) (l : list A) : result (list B) :=
    match l with
    | [] => Ok []
    | x :: l' =>
        bind (f x) (fun y => bind (mapM f l') (fun ys => Ok (y :: ys)))
    end.

(** A Python number: an [int]/[long] (unbounded) or a [float] (binary64). *)
Inductive num : Type :=
  | Int (z : Z)
  | Float (f : float).

(** [float(z)]: round to nearest even. *)
Definition float_of_Z (z : Z) : float :=
    SF2Prim (binary_normalize prec emax z 0 false).

(** Coercion of an operand to float; a long too large raises OverflowError. *)
Definition to_float (x : num) : result float :=
    match x with
    | Float f => Ok f
    | Int z =>
        let f := float_of_Z z in
        if PrimFloat.is_infinity f then Raise OverflowError else Ok f
    end.

Definition arith (zop : Z -> Z -> Z) (fop : float -> float -> float)
             (x y : num) : result num :=
    match x, y with
    | Int a, Int b => Ok (Int (zop a b))
    | _, _ =>
        bind (to_float x) (fun a =>
        bind (to_float y) (fun b => Ok (Float (fop a b))))
    end.

Definition add : num -> num -> result num := arith Z.add PrimFloat.add.
Definition sub : num -> num -> result num := arith Z.sub PrimFloat.sub.
Definition mul : num -> num -> result num := arith Z.mul PrimFloat.mul.

(** [x / y] without [from __future__ import division]: floor division on
      ints, true division as soon as one operand is a float. *)
Definition div (x y : num) : result num :=
    match x, y with
    | Int a, Int b =>
        if b =? 0 then Raise ZeroDivisionError else Ok (Int (a / b))
    | _, _ =>
        bind (to_float x) (fun a =>
        bind (to_float y) (fun b =>
        if PrimFloat.is_zero b then Raise ZeroDivisionError
        else Ok (Float (PrimFloat.div a b))))
    end.

Definition neg (x : num) : num :=
    match x with
    | Int a => Int (- a)
    | Float f => Float (PrimFloat.opp f)
    end.

(** [f * x] with a float on the left: always a float. *)
Definition fmul (f : float) (x : num) : result float :=
    bind (to_float x) (fun b => Ok (PrimFloat.mul f b)).

(** Truncation of a float toward zero, as [int(f)] does. *)
Definition trunc_float (f : float) : result Z :=
    match Prim2SF f with
    | S754_nan => Raise ValueError
    | S754_infinity _ => Raise OverflowError
    | S754_zero _ => Ok 0
    | S754_finite s m e =>
        let mag := if 0 <=? e then Z.shiftl (Zpos m) e
                   else Z.shiftr (Zpos m) (- e) in
        Ok (if s then - mag else mag)
    end.

(** [int(x)]. *)
Definition int_ (x : num) : result Z :=
    match x with
    | Int z => Ok z
    | Float f => trunc_float f
    end.

(** Exact comparison of a float with an int ([None] for nan). *)
Definition compare_float_Z (f : float) (z : Z) : option comparison :=
    match Prim2SF f with
    | S754_nan => None
    | S754_infinity s => Some (if s then Lt else Gt)
    | S754_zero _ => Some (0 ?= z)
    | S754_finite s m e =>
        let sm := if s then Zneg m else Zpos m in
        Some (if 0 <=? e then (Z.shiftl sm e ?= z)
              else (sm ?= z * 2 ^ (- e)))
    end.

(** [x > y]. *)
Definition gt (x y : num) : bool :=
    match x, y with
    | Int a, Int b => b <? a
    | Float a, Float b => PrimFloat.ltb b a
    | Float a, Int b =>
        match compare_float_Z a b with Some Gt => true | _ => false end
    | Int a, Float b =>
        match compare_float_Z b a with Some Lt => true | _ => false end
    end.

(** [max(x, y)]: the first maximal argument. *)
Definition max (x y : num) : num := if gt y x then y else x.

(** *** Sequences *)

Definition len {A : Type} (l : list A) : Z := Z.of_nat (length l).

(** [l[i]], negative [i] counting from the end. *)
Definition getitem {A : Type} (l : list A) (i : Z) : result A :=
    let j := if i <? 0 then len l + i else i in
    if j <? 0 then Raise IndexError
    else match nth_error l (Z.to_nat j) with
         | Some x => Ok x
         | None => Raise IndexError
         end.

Fixpoint replace_nth {A : Type} (l : list A) (n : nat) (x : A) : list A :=
    match l, n with
    | [], _ => []
    | _ :: l', O => x :: l'
    | y :: l', S n' => y :: replace_nth l' n' x
    end.

(** [l[i] = x]. *)
Definition setitem {A : Type} (l : list A) (i : Z) (x : A) : result (list A) :=
    let j := if i <? 0 then len l + i else i in
    if (j <? 0) || (len l <=? j) then Raise IndexError
    else Ok (replace_nth l (Z.to_nat j) x).

(** [l[:n]]. *)
Definition slice_to {A : Type} (l : list A) (n : Z) : list A :=
    firstn (Z.to_nat (if n <? 0 then len l + n else n)) l.

(** [l[n:]] for [n >= 0]. *)
Definition slice_from {A : Type} (l : list A) (n : nat) : list A := skipn n l.

(** [l.insert(i, x)] for [i >= 0]. *)
Definition insert {A : Type} (l : list A) (i : nat) (x : A) : list A :=
    firstn i l ++ x :: skipn i l.

(** [(x,) * n]. *)
Definition times {A : Type} (x : A) (n : Z) : list A := repeat x (Z.to_nat n).

(** *** Unicode strings *)

(** A [unicode] object is a sequence of code points. *)
Definition uchar : Type := N.
Definition unicode : Type := list uchar.

(** A unicode literal of ASCII text. *)
Fixpoint u (s : string) : unicode :=
    match s with
    | EmptyString => []
    | String c s' => N_of_ascii c :: u s'
    end.

Definition uchar_eqb : uchar -> uchar -> bool := N.eqb.

Fixpoint unicode_eqb (x y : unicode) : bool :=
    match x, y with
    | [], [] => true
    | c :: x', d :: y' => uchar_eqb c d && unicode_eqb x' y'
    | _, _ => false
    end.

(** [s.endswith(c)] for a one-character [c]. *)
Definition endswith (s : unicode) (c : uchar) : bool :=
    match rev s with
    | d :: _ => uchar_eqb d c
    | [] => false
    end.

(** [c in s] for a one-character [c]. *)
Definition contains (s : unicode) (c : uchar) : bool := existsb (uchar_eqb c) s.

(** [d[k]] on a dict given as a lookup function. *)
Definition lookup {K V : Type} (d : K -> option V) (k : K) : result V :=
    match d k with
    | Some v => Ok v
    | None => Raise KeyError
    end.

End Py.

Declare Scope py_scope.
Delimit Scope py_scope with py.
Notation "x <- m ;; k" := (Py.bind m (fun x => k))
  (at level 61, m at next level, right associativity) : py_scope.
Notation "' p <- m ;; k" := (Py.bind m (fun x => match x with p => k end))
  (at level 61, p pattern, m at next level, right associativity) : py_scope.
Local Open Scope py_scope.

(** Splits a hypothesis [(x <- m ;; k) = Ok v] into [m = Ok a] and
    [k a = Ok v]. *)
Ltac bind_inv H :=
  match type of H with
  | Py.bind ?m _ = Py.Ok _ =>
      let r := fresh "r" in
      let a := fresh "a" in
      let Hstep := fresh "Hstep" in
      remember m as r eqn:Hstep in H;
      destruct r as [a| |];
      [ symmetry in Hstep; cbn [Py.bind] in H
      | cbn [Py.bind] in H; discriminate H
      | cbn [Py.bind] in H; discriminate H ]
  end.

(** ** src/parwave.py *)

Module parwave.
Import Py.

Definition FREQUENCY : Z := 10.
Definition _F0_HZ : Z := 80.

(** [math.pi]. *)
Definition math_pi : float := 3.141592653589793%float.

(** [_Resonator] and [_AntiResonator] instances: three coefficients and the
      two-slot delay line.  Every value stored is a float: coefficients come
      out of [_initResonators], delays out of [init] and [resonate]. *)
Record _Resonator : Type := mk_Resonator {
    _a : float;
    _b : float;
    _c : float;
    _delay_1 : float;
    _delay_2 : float
  }.

(** A resonator as the class body leaves it before [init] (every attribute
      is [None] there; none is read before [init] sets it). *)
Definition new_Resonator : _Resonator := mk_Resonator 0 0 0 0 0.

(** [_Resonator.init]. *)
Definition init (a b c : float) : _Resonator := mk_Resonator a b c 0 0.

(** [_AntiResonator.init]. *)
Definition anti_init (a b c : float) : result _Resonator :=
    if PrimFloat.is_zero a then Raise ZeroDivisionError
    else
      let a := (1.0 / a)%float in
      Ok (init a (PrimFloat.opp b * a)%float (PrimFloat.opp c * a)%float).

(** [_Resonator._resonate]: the output, and the resonator with [_delay_2]
      shifted. *)
Definition _resonate (self : _Resonator) (input : float) : _Resonator * float :=
    let output :=
      (_a self * input + _b self * _delay_1 self + _c self * _delay_2 self)%float in
    (mk_Resonator (_a self) (_b self) (_c self) (_delay_1 self) (_delay_1 self),
     output).

(** [_Resonator.resonate]: the output is what is remembered. *)
Definition resonate (self : _Resonator) (input : float) : _Resonator * float :=
    let '(self, output) := _resonate self input in
    (mk_Resonator (_a self) (_b self) (_c self) output (_delay_2 self), output).

(** [_AntiResonator.resonate]: the input is what is remembered. *)
Definition anti_resonate (self : _Resonator) (input : float) : _Resonator * float :=
    let '(self, output) := _resonate self input in
    (mk_Resonator (_a self) (_b self) (_c self) input (_delay_2 self), output).

(** The synthesizer object.  [rng_calls] is not an attribute of the class:
      it counts the draws made so far from the [random] module's generator. *)
Record Synthesizer : Type := mk_Synthesizer {
    _cascade_resonators : list _Resonator;
    _parallel_resonators : list _Resonator;
    _glottal_antiresonator : _Resonator;
    _glottal_pole_resonator : _Resonator;
    _glottal_sine_resonator : _Resonator;
    _nasal_antiresonator : _Resonator;
    _nasal_pole_resonator : _Resonator;
    _noise : float;
    rng_calls : nat
  }.

(** [Synthesizer.__init__], before any draw. *)
Definition __init__ : Synthesizer :=
    mk_Synthesizer (repeat new_Resonator 6) (repeat new_Resonator 5)
      new_Resonator new_Resonator new_Resonator new_Resonator new_Resonator
      0%float 0%nat.

Definition set_noise (self : Synthesizer) (noise : float) (calls : nat) : Synthesizer :=
    mk_Synthesizer (_cascade_resonators self) (_parallel_resonators self)
      (_glottal_antiresonator self) (_glottal_pole_resonator self)
      (_glottal_sine_resonator self) (_nasal_antiresonator self)
      (_nasal_pole_resonator self) noise calls.

(** [int(milliseconds * FREQUENCY)]: a duration as a number of samples. *)
Definition target_samples (milliseconds : num) : result Z :=
    x <- mul milliseconds (Int FREQUENCY) ;; int_ x.

(** [f0_hz = int(_F0_HZ * f0_multiplier)]: the period, in samples. *)
Definition period_length (f0_multiplier : num) : result Z :=
    x <- mul (Int _F0_HZ) f0_multiplier ;; int_ x.

(** [Synthesizer.generateSilence]. *)
Definition generateSilence (self : Synthesizer) (milliseconds : num)
    : result (Synthesizer * list Z) :=
    let self := set_noise self 0.0%float (rng_calls self) in
    n <- target_samples milliseconds ;;
    Ok (self, times 0 n).

(** The [while]/[+=] tail of turbo mode:
      [while len(sounds) * 2 < samples_target: sounds *= 2]. *)
Fixpoint double_sounds (fuel : nat) (sounds : list Z) (samples_target : Z)
    : result (list Z) :=
    if len sounds * 2 <? samples_target then
      match fuel with
      | O => Diverge
      | S fuel' => double_sounds fuel' (sounds ++ sounds) samples_target
      end
    else Ok sounds.

(** The turbo block run just before [break]: doubling, then
      [sounds += sounds[:samples_target - len(sounds)]]. *)
Definition turbo_fill (sounds : list Z) (samples_target : Z) : result (list Z) :=
    sounds <- double_sounds (Z.to_nat samples_target) sounds samples_target ;;
    Ok (sounds ++ slice_to sounds (samples_target - len sounds)).

(** Clipping to the signed 16-bit range. *)
Definition clip (output : Z) : Z :=
    if 32767 <? output then 32767
    else if output <? -32768 then -32768
    else output.

Section Synthesis.

(** [math.cos(x)] and [math.e ** x]: the C library's, taken as given. *)
Variable math_cos : float -> result float.
Variable math_e_pow : float -> result float.
(** [random_uniform k]: what the k-th call of
        [random.uniform(-0.00001, 0.00001)] in the run returns. *)
Variable random_uniform : nat -> float.

(** [Synthesizer._getNoise]. *)
Definition _getNoise (self : Synthesizer) : Synthesizer * float :=
      let noise := (random_uniform (rng_calls self) + _noise self)%float in
      (set_noise self noise (S (rng_calls self)), noise).

(** The loop over [zip(a[6:], b[6:], c[6:], cascade[1:], parallel)] of
        [_initResonators]; resonators past the shortest sequence are kept. *)
Fixpoint init_formants (abc : list (float * float * float))
             (c_rs p_rs : list _Resonator) : list _Resonator * list _Resonator :=
      match abc, c_rs, p_rs with
      | (a_n, b_n, c_n) :: abc', _ :: c_rs', _ :: p_rs' =>
          let '(cs, ps) := init_formants abc' c_rs' p_rs' in
          (init a_n b_n c_n :: cs, init a_n b_n c_n :: ps)
      | _, _, _ => (c_rs, p_rs)
      end.

(** [Synthesizer._initResonators]. *)
Definition _initResonators (self : Synthesizer) (frequencies bandwidths : list num)
      : result Synthesizer :=
      let pi_neg_div := (math_pi * -0.0001)%float in
      let pi_2_div := (2.0 * math_pi * 0.0001)%float in
      let pi_neg_2_div := PrimFloat.opp pi_2_div in
      cosines <- mapM (fun f => x <- fmul pi_2_div f ;; math_cos x) frequencies ;;
      decays <- mapM (fun bw => x <- fmul pi_neg_div bw ;; p <- math_e_pow x ;;
                                Ok (2 * p)%float) bandwidths ;;
      let b := map (fun '(n, m) => (n * m)%float) (combine cosines decays) in
      match b with
      | [bgp; bgz; bgs; bnp; bnz; b1; _; _; _; _; _] =>
      c <- mapM (fun bw => x <- fmul pi_neg_2_div bw ;; p <- math_e_pow x ;;
                           Ok (PrimFloat.opp p)) bandwidths ;;
      match c with
      | [cgp; cgz; cgs; cnp; cnz; c1; _; _; _; _; _] =>
      let a := map (fun '(b_v, c_v) => (1 - b_v - c_v)%float) (combine b c) in
      match a with
      | [agp; agz; ags; anp; anz; a1; _; _; _; _; _] =>
          match _cascade_resonators self with
          | [] => Raise IndexError
          | _ :: cascade_tail =>
              let '(cs, ps) :=
                init_formants
                  (combine (combine (slice_from a 6) (slice_from b 6)) (slice_from c 6))
                  cascade_tail (_parallel_resonators self) in
              glottal_antiresonator <- anti_init agz bgz cgz ;;
              nasal_antiresonator <- anti_init anz bnz cnz ;;
              Ok (mk_Synthesizer (init a1 b1 c1 :: cs) ps
                    glottal_antiresonator (init agp bgp cgp) (init ags bgs cgs)
                    nasal_antiresonator (init anp bnp cnp)
                    (_noise self) (rng_calls self))
          end
      | _ => Raise ValueError
      end
      | _ => Raise ValueError
      end
      | _ => Raise ValueError
      end.

(** The body of [for (cascade_resonator, parallel_resonator, amplitude) in
        resonator_collection]; returns the resonators as updated, in the
        order visited. *)
Fixpoint resonate_collection (collection : list (_Resonator * _Resonator * num))
             (source frication result_ : float)
      : result (list (_Resonator * _Resonator) * float * float) :=
      match collection with
      | [] => Ok ([], source, result_)
      | (cascade_resonator, parallel_resonator, amplitude) :: rest =>
          let '(cascade_resonator, source) := resonate cascade_resonator source in
          x <- fmul frication amplitude ;;
          let '(parallel_resonator, y) := resonate parallel_resonator x in
          let result_ := (result_ + y)%float in
          '(updated, source, result_) <-
             resonate_collection rest source frication result_ ;;
          Ok ((cascade_resonator, parallel_resonator) :: updated, source, result_)
      end.

(** The amplitudes and flags one call of [synthesize] fixes for its loop. *)
Record frame : Type := mk_frame {
      amplitudes : list num;   (* (a2, a3, a4, a5, a6) *)
      ab : num; ah : num; af : num; av : num; avs : num;
      f0_hz : Z;
      samples_target : Z;
      turbo : bool
    }.

(** Lines 126-152 of the loop body: one sample of the filter bank, before
        scaling.  The resonators are objects shared by reference between the
        synthesizer and [resonator_collection]; here they are read from and
        written back to the synthesizer at every sample. *)
Definition sample (fr : frame) (self : Synthesizer) (pulse : float)
      : result (Synthesizer * float) :=
      let '(self, noise) := _getNoise self in
      let '(glottal_pole, source) := resonate (_glottal_pole_resonator self) pulse in
      let '(glottal_anti, g_z) := anti_resonate (_glottal_antiresonator self) source in
      voiced <- fmul g_z (av fr) ;;
      let '(glottal_sine, g_s) := resonate (_glottal_sine_resonator self) source in
      sine <- fmul g_s (avs fr) ;;
      let source := (voiced + sine)%float in
      aspiration <- fmul noise (ah fr) ;;
      let source := (source + aspiration)%float in
      let '(nasal_pole, source) := resonate (_nasal_pole_resonator self) source in
      let '(nasal_anti, source) := anti_resonate (_nasal_antiresonator self) source in
      frication <- fmul noise (af fr) ;;
      result_ <- fmul frication (ab fr) ;;
      match _cascade_resonators self with
      | [] => Raise IndexError
      | cascade_resonator_1 :: cascade_tail =>
          let resonator_collection :=
            rev (combine (combine cascade_tail (_parallel_resonators self))
                         (amplitudes fr)) in
          '(updated, source, result_) <-
             resonate_collection resonator_collection source frication result_ ;;
          let '(cascade_resonator_1, y) := resonate cascade_resonator_1 source in
          let result_ := (result_ + y)%float in
          let k := length updated in
          let cascade := cascade_resonator_1
                         :: map fst (rev updated) ++ skipn k cascade_tail in
          let parallel := map snd (rev updated)
                          ++ skipn k (_parallel_resonators self) in
          Ok (mk_Synthesizer cascade parallel glottal_anti glottal_pole
                glottal_sine nasal_anti nasal_pole (_noise self) (rng_calls self),
              result_)
      end.

(** Outcome of the sample loop: how it was left. *)
Inductive loop_exit : Type := Exhausted | Broke.

(** [for t in xrange(samples_target + f0_hz)] (the platform's bound on the
    argument of [xrange] is left out), from iteration [t] on with
        [n] iterations left.  On [break] the loop returns [Broke] with the
        samples computed so far; the turbo block that precedes [break] is
        run by [synthesize] on that outcome. *)
Fixpoint sample_loop (fr : frame) (n : nat) (t : Z) (self : Synthesizer)
             (last_result : float) (period_index : Z) (sounds : list Z)
      : result (Synthesizer * list Z * loop_exit) :=
      match n with
      | O => Ok (self, sounds, Exhausted)
      | S n' =>
          let '(pulse, period_index) :=
            if period_index =? f0_hz fr then (1.0%float, 0)
            else (0.0%float, period_index + 1) in
          '(self, result_) <- sample fr self pulse ;;
          let output := (result_ - last_result)%float in
          let last_result := result_ in
          if f0_hz fr <=? t then
            output <- trunc_float (output * 32767.0)%float ;;
            let sounds := sounds ++ [clip output] in
            if turbo fr && (t =? f0_hz fr * 2 - 1) then Ok (self, sounds, Broke)
            else sample_loop fr n' (t + 1) self last_result period_index sounds
          else sample_loop fr n' (t + 1) self last_result period_index sounds
      end.

(** [synthesize] up to the end of the sample loop: the resonators as
        left, the samples, how the loop ended, and [samples_target]. *)
Definition sample_run (self : Synthesizer) (parameters : list num)
               (f0_multiplier : num) (turbo : bool)
      : result (Synthesizer * list Z * loop_exit * Z) :=
      f0_hz <- period_length f0_multiplier ;;
      match parameters with
      | [fgp; fgz; fgs; fnp; fnz;
         f1; f2; f3; f4; f5; f6;
         bgp; bgz; bgs; bnp; bnz;
         bw1; bw2; bw3; bw4; bw5; bw6;
         a2; a3; a4; a5; a6;
         ab; ah; af; av; avs;
         milliseconds] =>
          self <- _initResonators self
                    [fgp; fgz; fgs; fnp; fnz; f1; f2; f3; f4; f5; f6]
                    [bgp; bgz; bgs; bnp; bnz; bw1; bw2; bw3; bw4; bw5; bw6] ;;
          samples_target <- target_samples milliseconds ;;
          let fr := mk_frame [a2; a3; a4; a5; a6] ab ah af av avs
                      f0_hz samples_target turbo in
          '(self, sounds, how) <-
             sample_loop fr (Z.to_nat (samples_target + f0_hz)) 0 self
               0.0%float f0_hz [] ;;
          Ok (self, sounds, how, samples_target)
      | _ => Raise ValueError
      end.

(** [Synthesizer.synthesize]. *)
Definition synthesize (self : Synthesizer) (parameters : list num)
               (f0_multiplier : num) (turbo : bool)
      : result (Synthesizer * list Z) :=
      '(self, sounds, how, samples_target) <-
         sample_run self parameters f0_multiplier turbo ;;
      match how with
      | Exhausted => Ok (self, sounds)
      | Broke =>
          sounds <- turbo_fill sounds samples_target ;;
          Ok (self, sounds)
      end.

End Synthesis.
End parwave.

(** ** The collaborator src/ipa.py

    The module [ipa] (phoneme table and class sets) is not among the sources;
    what the code reads from it is taken as a parameter. *)

Module ipa.
Import Py.

Record module : Type := mk_module {
    regions : Type;
(** [IPA_PARAMETERS[symbol]], [None] where the dict has no such key. *)
    IPA_PARAMETERS : unicode -> option (list num);
(** [IPA_DATA[symbol]]. *)
    IPA_DATA : unicode -> option (list num * regions);
(** [symbol in VOWELS], and likewise for the other classes. *)
    VOWELS : unicode -> bool;
    NASALS : unicode -> bool;
    STOPS : unicode -> bool;
    LIQUIDS : unicode -> bool;
    reduceIPAClusters : unicode -> list unicode
  }.
End ipa.

(** ** src/universal_rules.py *)

Module universal_rules.
Import Py.

(** A parameter set: 32 acoustic fields and the duration. *)
Definition parameters : Type := list num.

Section Rules.
Variable IPA : ipa.module.

(** [list(ipa.IPA_PARAMETERS[symbol][:32]) + [milliseconds]]. *)
Definition fixed_sound (symbol : unicode) (milliseconds : Z) : result parameters :=
      values <- lookup (ipa.IPA_PARAMETERS IPA) symbol ;;
      Ok (slice_to values 32 ++ [Int milliseconds]).

(** [[(x * 2 + y) / 3 for (x, y) in values]]. *)
Definition blend_2_1 (values : list (num * num)) : result (list num) :=
      mapM (fun '(x, y) => x2 <- mul x (Int 2) ;; s <- add x2 y ;; div s (Int 3))
           values.

(** [[(x + y * 2) / 3 for (x, y) in values]]. *)
Definition blend_1_2 (values : list (num * num)) : result (list num) :=
      mapM (fun '(x, y) => y2 <- mul y (Int 2) ;; s <- add x y2 ;; div s (Int 3))
           values.

(** [[(c + v) / 2 for (v, c) in values]]. *)
Definition average (values : list (num * num)) : result (list num) :=
      mapM (fun '(v, c) => s <- add c v ;; div s (Int 2)) values.

(** [int(duration * factor)]. *)
Definition scaled (duration : num) (factor : float) : result Z :=
      x <- mul duration (Float factor) ;; int_ x.

(** [bridgeWords]. *)
Definition bridgeWords (ipa_character : unicode)
               (preceding_phonemes following_phonemes : list unicode)
               (previous_words : list unicode)
               (parameters_list : list parameters) : result (list parameters) :=
      if negb (ipa.VOWELS IPA ipa_character) then Ok parameters_list
      else
        match preceding_phonemes, previous_words with
        | [], _ :: _ =>
            word <- getitem previous_words (-1) ;;
            last_char <- getitem word (-1) ;;
            let character : unicode := [last_char] in
            if ipa.VOWELS IPA character then
              pause <- fixed_sound (u "h") 50 ;;
              Ok (parameters_list ++ [pause])
            else
              first <- getitem parameters_list 0 ;;
              consonant <- lookup (ipa.IPA_PARAMETERS IPA) (slice_to character 32) ;;
              let values := combine (slice_to first 32) consonant in
              sound <- average values ;;
              Ok (insert parameters_list 0 (sound ++ [Int 50]))
        | _, _ => Ok parameters_list
        end.

(** [nasalizeVowel]. *)
Definition nasalizeVowel (ipa_character : unicode)
               (following_phonemes : list unicode)
               (parameters_list : list parameters) : result (list parameters) :=
      match following_phonemes with
      | [] => Ok parameters_list
      | following :: _ =>
          if negb (ipa.NASALS IPA following) then Ok parameters_list
          else if negb (ipa.VOWELS IPA ipa_character) || ipa.NASALS IPA ipa_character
          then Ok parameters_list
          else
            vowel <- getitem parameters_list 0 ;;
            vowel_duration <- getitem vowel 32 ;;
            let vowel_values := slice_to vowel 32 in
            nasal <- lookup (ipa.IPA_PARAMETERS IPA) following ;;
            let values := combine vowel_values (slice_to nasal 32) in
            half <- scaled vowel_duration 0.5 ;;
            parameters_list <- setitem parameters_list 0 (vowel_values ++ [Int half]) ;;
            lead_in <- blend_2_1 values ;;
            sixth <- scaled vowel_duration 0.167 ;;
            let parameters_list := insert parameters_list 1 (lead_in ++ [Int sixth]) in
            lead_out <- blend_1_2 values ;;
            third <- scaled vowel_duration 0.333 ;;
            let parameters_list := insert parameters_list 2 (lead_out ++ [Int third]) in
            Ok parameters_list
      end.

(** The first half of [shapeContours]: [if preceding_phonemes: ...]. *)
Definition shape_lead (ipa_character : unicode) (preceding_phonemes : list unicode)
               (parameters_list : list parameters) : result (list parameters) :=
      match preceding_phonemes with
      | [] => Ok parameters_list
      | _ :: _ =>
          lead_in_sound <- getitem parameters_list 0 ;;
          let lead_in_values := slice_to lead_in_sound 32 in
          duration <- getitem lead_in_sound 32 ;;
          trimmed <- sub duration (Int 15) ;;
          parameters_list <-
            setitem parameters_list 0 (lead_in_values ++ [max (Int 5) trimmed]) ;;
          if negb (ipa.STOPS IPA ipa_character) then
            preceding <- getitem preceding_phonemes (-1) ;;
            neighbour <- lookup (ipa.IPA_PARAMETERS IPA) preceding ;;
            sound <- blend_2_1 (combine lead_in_values (slice_to neighbour 32)) ;;
            Ok (insert parameters_list 0 (sound ++ [Int 15]))
          else
            gap <- fixed_sound [660%N] 15 ;;
            Ok (insert parameters_list 0 gap)
      end.

(** The second half of [shapeContours]: [if following_phonemes and not
        (...): ...]. *)
Definition shape_tail (ipa_character : unicode) (following_phonemes : list unicode)
               (parameters_list : list parameters) : result (list parameters) :=
      match following_phonemes with
      | [] => Ok parameters_list
      | following :: _ =>
          if ipa.VOWELS IPA ipa_character && ipa.NASALS IPA following
          then Ok parameters_list
          else
            lead_out_sound <- getitem parameters_list (-1) ;;
            let lead_out_values := slice_to lead_out_sound 32 in
            duration <- getitem lead_out_sound 32 ;;
            trimmed <- sub duration (Int 15) ;;
            parameters_list <-
              setitem parameters_list (-1) (lead_out_values ++ [max (Int 5) trimmed]) ;;
            if negb (ipa.STOPS IPA following) then
              neighbour <- lookup (ipa.IPA_PARAMETERS IPA) following ;;
              sound <- blend_2_1 (combine lead_out_values (slice_to neighbour 32)) ;;
              Ok (parameters_list ++ [sound ++ [Int 15]])
            else
              gap <- fixed_sound (u "h") 15 ;;
              Ok (parameters_list ++ [gap])
      end.

(** [shapeContours]. *)
Definition shapeContours (ipa_character : unicode)
               (preceding_phonemes following_phonemes : list unicode)
               (parameters_list : list parameters) : result (list parameters) :=
      parameters_list <- shape_lead ipa_character preceding_phonemes parameters_list ;;
      shape_tail ipa_character following_phonemes parameters_list.

End Rules.
End universal_rules.

(** ** src/language_rules.py *)

Module language_rules.
Import Py.
Import universal_rules.

(** The fourteen context arguments every rule function receives. *)
Record context : Type := mk_context {
    ipa_character : unicode;
    preceding_phonemes : list unicode;
    following_phonemes : list unicode;
    word_position : Z;
    remaining_words : Z;
    previous_words : list unicode;
    following_words : list unicode;
    sentence_position : Z;
    remaining_sentences : Z;
    is_quoted : bool;
    is_emphasized : bool;
    is_content : bool;
    is_question : bool;
    is_exclamation : bool
  }.

(** What a rule function hands back: the parameter-sets to place before and
      after the current one, the f0 multiplier, and the current parameter-set
      as the rule left it (rules may modify it in place). *)
Record outcome : Type := mk_outcome {
    preceding_params : list parameters;
    following_params : list parameters;
    multiplier : num;
    modified : parameters
  }.

(** A rule function, taken to alter nothing in place but [parameters], as
    the ruleset's documentation allows: context, [previous_phoneme_parameters],
      [remaining_phoneme_parameter_count], [previous_sound_parameters],
      [following_sound_parameters], [parameters]. *)
Definition rule : Type :=
    context -> list parameters -> Z -> list parameters -> list parameters ->
    parameters -> result outcome.

(** The inner loop [for function in rule_functions] of [applyRules]. *)
Fixpoint run_rules (rule_functions : list rule) (ctx : context)
           (transformed_parameters : list parameters) (remaining : Z)
           (parameters_ : parameters) (f0_multiplier : num)
           (preceding_parameters following_parameters : list parameters)
    : result (parameters * num * list parameters * list parameters) :=
    match rule_functions with
    | [] => Ok (parameters_, f0_multiplier, preceding_parameters, following_parameters)
    | function :: rest =>
        o <- function ctx transformed_parameters remaining
               preceding_parameters following_parameters parameters_ ;;
        f0_multiplier <- mul f0_multiplier (multiplier o) ;;
        let preceding_parameters := preceding_parameters ++ preceding_params o in
        let following_parameters := following_params o ++ following_parameters in
        run_rules rest ctx transformed_parameters remaining (modified o)
          f0_multiplier preceding_parameters following_parameters
    end.

(** The outer loop [for (i, parameters) in enumerate(parameters_list)]. *)
Fixpoint each_parameters (rule_functions : list rule) (ctx : context)
           (initial_parameter_count_zero : Z) (i : Z)
           (parameters_list : list parameters)
           (transformed_parameters : list parameters) (f0_multipliers : list num)
    : result (list parameters * list num) :=
    match parameters_list with
    | [] => Ok (transformed_parameters, f0_multipliers)
    | parameters_ :: rest =>
        '(parameters_, f0_multiplier, preceding_parameters, following_parameters) <-
          run_rules rule_functions ctx transformed_parameters
            (initial_parameter_count_zero - i) parameters_ (Float 1.0) [] [] ;;
        let transformed_parameters :=
          transformed_parameters
          ++ (preceding_parameters ++ [parameters_] ++ following_parameters) in
        let f0_multipliers :=
          f0_multipliers
          ++ times f0_multiplier
               (len preceding_parameters + 1 + len following_parameters) in
        each_parameters rule_functions ctx initial_parameter_count_zero (i + 1)
          rest transformed_parameters f0_multipliers
    end.

(** [applyRules], for the ruleset [rule_functions]
      ([language.RULE_FUNCTIONS]). *)
Definition applyRules (rule_functions : list rule) (ctx : context)
             (parameters_list : list parameters)
    : result (list parameters * list num) :=
    let initial_parameter_count_zero := len parameters_list - 1 in
    each_parameters rule_functions ctx initial_parameter_count_zero 0
      parameters_list [] [].

End language_rules.

(** ** src/transform.py *)

Module transform.
Import Py.
Import universal_rules.

(** Markup characters. *)
Definition c_star : uchar := 42%N.        (* asterisk *)
Definition c_quote : uchar := 34%N.       (* double quote *)
Definition c_apostrophe : uchar := 39%N.  (* apostrophe *)
Definition c_minus : uchar := 45%N.       (* minus *)
Definition c_plus : uchar := 43%N.        (* plus *)
Definition c_less : uchar := 60%N.        (* less-than *)
Definition c_greater : uchar := 62%N.     (* greater-than *)
Definition c_comma : uchar := 44%N.       (* comma *)
Definition c_period : uchar := 46%N.      (* full stop *)
Definition c_question : uchar := 63%N.    (* question mark *)
Definition c_exclamation : uchar := 33%N. (* exclamation mark *)
Definition c_newline : uchar := 10%N.     (* line feed *)

Definition _SENTENCE_QUESTION : Z := 1.
Definition _SENTENCE_EXCLAMATION : Z := 2.
Definition _WORD_QUOTED : Z := 1.
Definition _WORD_EMPHASIZED : Z := 2.
Definition _WORD_CONTENT : Z := 3.

(** [x in markup] for a tuple of flags. *)
Definition has_flag (flag : Z) (markup : list Z) : bool := existsb (Z.eqb flag) markup.

(** A word: the token's phoneme cluster and its markup flags. *)
Definition word : Type := (unicode * list Z)%type.
(** A sentence: its words and its markup flags. *)
Definition sentence : Type := (list word * list Z)%type.

(** [unicode.isspace] on one character (Python 2 database). *)
Definition isspace (c : uchar) : bool :=
    ((9 <=? c) && (c <=? 13) || (28 <=? c) && (c <=? 32)
     || (c =? 133) || (c =? 160) || (c =? 5760) || (c =? 6158)
     || (8192 <=? c) && (c <=? 8202) || (c =? 8232) || (c =? 8233)
     || (c =? 8239) || (c =? 8287) || (c =? 12288))%N.

(** [paragraph.split()]: maximal runs of non-space characters.
      [current] is the run being read, in reverse. *)
Fixpoint split_from (current : unicode) (s : unicode) : list unicode :=
    match s with
    | [] => match current with [] => [] | _ => [rev current] end
    | c :: s' =>
        if isspace c then
          match current with
          | [] => split_from [] s'
          | _ => rev current :: split_from [] s'
          end
        else split_from (c :: current) s'
    end.
Definition split (s : unicode) : list unicode := split_from [] s.

(** [s] without the prefix [p], when it has it. *)
Fixpoint strip_prefix (p s : unicode) : option unicode :=
    match p, s with
    | [], _ => Some s
    | c :: p', d :: s' => if uchar_eqb c d then strip_prefix p' s' else None
    | _ :: _, [] => None
    end.

(** The first alternative, in order, that the continuation accepts: the
      backtracking of [re] over an alternation. *)
Fixpoint first_match {A B : Type} (k : A -> option B) (alternatives : list A)
    : option B :=
    match alternatives with
    | [] => None
    | a :: rest =>
        match k a with
        | Some b => Some b
        | None => first_match k rest
        end
    end.

(** Try each literal alternative as a prefix of [s], in order. *)
Definition literal {B : Type} (alternatives : list unicode) (s : unicode)
             (k : unicode -> unicode -> option B) : option B :=
    first_match (fun alt => match strip_prefix alt s with
                            | Some rest => k alt rest
                            | None => None
                            end) alternatives.

(** The optional quote/emphasis group of the pattern: asterisk, quote,
      asterisk-quote, quote-asterisk, in that order, then the empty match. *)
Definition quote_emphasis : list unicode :=
    [[c_star]; [c_quote]; [c_star; c_quote]; [c_quote; c_star]; []].

(** The optional terminal group of the pattern: full stop, question mark,
      exclamation mark, the two pairs of the latter, then the empty match. *)
Definition terminal : list unicode :=
    [[c_period]; [c_question]; [c_exclamation];
     [c_question; c_exclamation]; [c_exclamation; c_question]; []].

(** [n; n-1; ...; 0]: a greedy star gives back one character at a time. *)
Fixpoint downto (n : nat) : list nat :=
    match n with
    | O => [O]
    | S n' => n :: downto n'
    end.

(** Length of the longest prefix within a character class. *)
Fixpoint run_length (class : uchar -> bool) (s : unicode) : nat :=
    match s with
    | c :: s' => if class c then S (run_length class s') else O
    | [] => O
    end.

(** The final dollar of a pattern compiled without flags: the end of the
      string, or the place just before a line feed that ends the string. *)
Definition at_end (s : unicode) : bool :=
    match s with
    | [] => true
    | [c] => uchar_eqb c c_newline
    | _ :: _ :: _ => false
    end.

Section Transform.
Variable IPA : ipa.module.
Variable RULE_FUNCTIONS : list language_rules.rule.
Variable math_cos : float -> result float.
Variable math_e_pow : float -> result float.
Variable random_uniform : nat -> float.

(** [_IPA_CHARACTERS]: the one-character keys of [ipa.IPA_PARAMETERS].
        None of them is taken to be special inside a character class. *)
Definition _IPA_CHARACTERS (c : uchar) : bool :=
      match ipa.IPA_PARAMETERS IPA [c] with
      | Some _ => true
      | None => false
      end.

(** The class of the cluster's tail: minus, plus, less-than,
        greater-than and the IPA characters. *)
Definition cluster_class (c : uchar) : bool :=
      uchar_eqb c c_minus || uchar_eqb c c_plus || uchar_eqb c c_less
      || uchar_eqb c c_greater || _IPA_CHARACTERS c.

(** [_WORD_REGEXP.match(token)]: the three groups of the first match in
        the engine's backtracking order, or [None]. *)
Definition _WORD_REGEXP (token : unicode) : option (unicode * unicode * unicode) :=
      literal quote_emphasis token (fun open1 s1 =>
      literal [[c_apostrophe]; []] s1 (fun content s2 =>
      match s2 with
      | [] => None
      | c :: s3 =>
          if negb (_IPA_CHARACTERS c) then None
          else
            first_match (fun k =>
              let cluster := c :: firstn k s3 in
              literal [[c_comma]; []] (skipn k s3) (fun comma s4 =>
              literal quote_emphasis s4 (fun close s5 =>
              literal terminal s5 (fun stop s6 =>
              if at_end s6
              then Some (open1 ++ content, cluster ++ comma, close ++ stop)
              else None))))
              (downto (run_length cluster_class s3))
      end)).

(** [_FILTER_REGEXP.sub] with the empty replacement: every markup
        character is dropped. *)
Definition _FILTER_REGEXP (w : unicode) : unicode :=
      filter (fun c => negb (existsb (uchar_eqb c)
                [c_star; c_quote; c_apostrophe; c_minus; c_plus; c_less;
                 c_greater; c_comma; c_period; c_question; c_exclamation])) w.

(** The [while tokens:] loop of [_extractSentence]; the result carries
        the tokens left in the queue. *)
Fixpoint extract_words (tokens : list unicode) (sentence_number : Z)
             (words : list word) (markup : list Z) (quotation emphasis : bool)
      : result (sentence * list unicode) :=
      match tokens with
      | [] => Ok ((words, markup), [])
      | token :: tokens =>
          match _WORD_REGEXP token with
          | None => Raise (InvalidCharacter (len words + 1) sentence_number)
          | Some (group1, group2, group3) =>
              let quotation := if contains group1 c_quote then true else quotation in
              let emphasis := if contains group1 c_star then true else emphasis in
              let word_markup :=
                (if quotation then [_WORD_QUOTED] else [])
                ++ (if emphasis then [_WORD_EMPHASIZED] else [])
                ++ (if contains group1 c_apostrophe then [_WORD_CONTENT] else []) in
              let words := words ++ [(group2, word_markup)] in
              let quotation := if contains group3 c_quote then false else quotation in
              let emphasis := if contains group3 c_star then false else emphasis in
              if contains group3 c_period then Ok ((words, markup), tokens)
              else if contains group3 c_question then
                let markup := markup ++ [_SENTENCE_QUESTION] in
                let markup := if contains group3 c_exclamation
                              then markup ++ [_SENTENCE_EXCLAMATION] else markup in
                Ok ((words, markup), tokens)
              else if contains group3 c_exclamation then
                let markup := if contains group3 c_question
                              then markup ++ [_SENTENCE_QUESTION] else markup in
                let markup := markup ++ [_SENTENCE_EXCLAMATION] in
                Ok ((words, markup), tokens)
              else extract_words tokens sentence_number words markup
                     quotation emphasis
          end
      end.

(** [_extractSentence]. *)
Definition _extractSentence (tokens : list unicode) (sentence_number : Z)
      : result (sentence * list unicode) :=
      extract_words tokens sentence_number [] [] false false.

(** The [while tokens:] loop of [paragraphToSound]. *)
Fixpoint extract_sentences (fuel : nat) (tokens : list unicode)
             (sentences : list sentence) : result (list sentence) :=
      match tokens with
      | [] => Ok sentences
      | _ :: _ =>
          match fuel with
          | O => Diverge
          | S fuel' =>
              '(sentence_, tokens) <- _extractSentence tokens (len sentences + 1) ;;
              extract_sentences fuel' tokens (sentences ++ [sentence_])
          end
      end.

(** The command-line options the transformation reads.  What [verbose] and
    [debug] print is left out: it does not touch the values computed. *)
Record options : Type := mk_options {
      verbose : bool;
      debug : bool;
      turbo : bool
    }.

(** A phoneme: the IPA character, its duration multiplier and its pitch
        multiplier. *)
Definition phoneme : Type := (unicode * float * float)%type.

(** Everything [_phonemeToSound] receives about the word and sentence. *)
Record word_context : Type := mk_word_context {
      word_position : Z;
      remaining_words : Z;
      previous_words : list unicode;
      following_words : list unicode;
      sentence_position : Z;
      remaining_sentences : Z;
      is_quoted : bool;
      is_emphasized : bool;
      is_content : bool;
      is_question : bool;
      is_exclamation : bool
    }.

(** The loop [for (parameters, f0_multiplier) in zip(...)] of
        [_phonemeToSound]. *)
Fixpoint synthesize_sounds (frames : list (parameters * num))
             (pitch_multiplier : float) (opts : options)
             (synthesizer : parwave.Synthesizer) (sounds : list Z)
      : result (parwave.Synthesizer * list Z) :=
      match frames with
      | [] => Ok (synthesizer, sounds)
      | (parameters_, f0_multiplier) :: rest =>
          f0 <- mul f0_multiplier (Float pitch_multiplier) ;;
          '(synthesizer, samples) <-
             parwave.synthesize math_cos math_e_pow random_uniform
               synthesizer parameters_ f0 (turbo opts) ;;
          synthesize_sounds rest pitch_multiplier opts synthesizer (sounds ++ samples)
      end.

(** [_phonemeToSound]. *)
Definition _phonemeToSound (phoneme_ : phoneme)
               (preceding_phonemes following_phonemes : list unicode)
               (wc : word_context) (opts : options)
               (synthesizer : parwave.Synthesizer)
      : result (parwave.Synthesizer * list Z) :=
      let '(ipa_character, duration_multiplier, pitch_multiplier) := phoneme_ in
      '(parameters_, _) <- lookup (ipa.IPA_DATA IPA) ipa_character ;;
      duration <- getitem parameters_ (-1) ;;
      duration <- scaled duration duration_multiplier ;;
      parameters_ <- setitem parameters_ (-1) (Int duration) ;;
      let parameters_list := [parameters_] in
      parameters_list <-
        nasalizeVowel IPA ipa_character following_phonemes parameters_list ;;
      parameters_list <-
        bridgeWords IPA ipa_character preceding_phonemes following_phonemes
          (previous_words wc) parameters_list ;;
      parameters_list <-
        shapeContours IPA ipa_character preceding_phonemes following_phonemes
          parameters_list ;;
      '(parameters_list, f0_multipliers) <-
        language_rules.applyRules RULE_FUNCTIONS
          (language_rules.mk_context ipa_character preceding_phonemes
             following_phonemes (word_position wc) (remaining_words wc)
             (previous_words wc) (following_words wc) (sentence_position wc)
             (remaining_sentences wc) (is_quoted wc) (is_emphasized wc)
             (is_content wc) (is_question wc) (is_exclamation wc))
          parameters_list ;;
      synthesize_sounds (combine parameters_list f0_multipliers) pitch_multiplier
        opts synthesizer [].

(** The loop of [_wordToSound] that folds the extension syntax into the
        multipliers of the last-seen character. *)
Fixpoint collapse_extensions (ipa_tokens : list unicode) (subject : unicode)
             (duration_multiplier pitch_multiplier : float)
             (phonemes : list phoneme) : list phoneme :=
      match ipa_tokens with
      | [] => phonemes ++ [(subject, duration_multiplier, pitch_multiplier)]
      | i :: rest =>
          if unicode_eqb i [c_greater] then
            collapse_extensions rest subject (duration_multiplier * 1.5)%float
              pitch_multiplier phonemes
          else if unicode_eqb i [c_less] then
            collapse_extensions rest subject (duration_multiplier * 0.5)%float
              pitch_multiplier phonemes
          else if unicode_eqb i [c_plus] then
            collapse_extensions rest subject duration_multiplier
              (pitch_multiplier * 0.95)%float phonemes
          else if unicode_eqb i [c_minus] then
            collapse_extensions rest subject duration_multiplier
              (pitch_multiplier * 1.05)%float phonemes
          else
            collapse_extensions rest i 1.0%float 1.0%float
              (phonemes ++ [(subject, duration_multiplier, pitch_multiplier)])
      end.

(** The loop [for (i, phoneme) in enumerate(phonemes)] of [_wordToSound]:
        [before] holds [phonemes[:i]]. *)
Fixpoint phonemes_to_sound (before after : list phoneme) (wc : word_context)
             (opts : options) (synthesizer : parwave.Synthesizer) (sounds : list Z)
      : result (parwave.Synthesizer * list Z) :=
      match after with
      | [] => Ok (synthesizer, sounds)
      | phoneme_ :: rest =>
          '(synthesizer, samples) <-
             _phonemeToSound phoneme_
               (map (fun '(p, _, _) => p) before)
               (map (fun '(p, _, _) => p) rest)
               wc opts synthesizer ;;
          phonemes_to_sound (before ++ [phoneme_]) rest wc opts synthesizer
            (sounds ++ samples)
      end.

(** [_wordToSound]; the word-level flags of [wc] are set here. *)
Definition _wordToSound (word_ : word) (position remaining_words_ : Z)
               (previous_words_ following_words_ : list unicode)
               (sentence_position_ remaining_sentences_ : Z)
               (is_question_ is_exclamation_ : bool) (opts : options)
               (synthesizer : parwave.Synthesizer)
      : result (parwave.Synthesizer * list Z) :=
      let '(token, markup) := word_ in
      let terminal_pause := endswith token c_comma in
      let token := if terminal_pause then slice_to token (-1) else token in
      let wc := mk_word_context position remaining_words_ previous_words_
                  following_words_ sentence_position_ remaining_sentences_
                  (has_flag _WORD_QUOTED markup) (has_flag _WORD_EMPHASIZED markup)
                  (has_flag _WORD_CONTENT markup) is_question_ is_exclamation_ in
      let ipa_tokens := ipa.reduceIPAClusters IPA token in
      subject <- getitem ipa_tokens 0 ;;
      let phonemes :=
        collapse_extensions (slice_from ipa_tokens 1) subject 1.0%float 1.0%float [] in
      '(synthesizer, sounds) <- phonemes_to_sound [] phonemes wc opts synthesizer [] ;;
      if terminal_pause then
        '(synthesizer, silence) <- parwave.generateSilence synthesizer (Int 250) ;;
        Ok (synthesizer, sounds ++ silence)
      else Ok (synthesizer, sounds).

(** The loop [for (i, word) in enumerate(words)] of [_sentenceToSound]:
        [i] words are done, [todo] are left. *)
Fixpoint words_to_sound (i : nat) (todo : list word) (total : Z)
             (filtered_words : list unicode) (position remaining_sentences_ : Z)
             (is_question_ is_exclamation_ : bool) (opts : options)
             (synthesizer : parwave.Synthesizer) (sounds : list Z)
      : result (parwave.Synthesizer * list Z) :=
      match todo with
      | [] => Ok (synthesizer, sounds)
      | word_ :: rest =>
          '(synthesizer, samples) <-
             _wordToSound word_ (Z.of_nat i + 1) (total - Z.of_nat i - 1)
               (firstn i filtered_words) (slice_from filtered_words (i + 1))
               position remaining_sentences_ is_question_ is_exclamation_
               opts synthesizer ;;
          words_to_sound (S i) rest total filtered_words position
            remaining_sentences_ is_question_ is_exclamation_ opts synthesizer
            (sounds ++ samples)
      end.

(** [_sentenceToSound]. *)
Definition _sentenceToSound (sentence_ : sentence)
               (position remaining_sentences_ : Z) (opts : options)
               (synthesizer : parwave.Synthesizer)
      : result (parwave.Synthesizer * list Z) :=
      let '(words, markup) := sentence_ in
      let is_question_ := has_flag _SENTENCE_QUESTION markup in
      let is_exclamation_ := has_flag _SENTENCE_EXCLAMATION markup in
      let filtered_words := map (fun '(w, _) => _FILTER_REGEXP w) words in
      words_to_sound 0 words (len words) filtered_words position
        remaining_sentences_ is_question_ is_exclamation_ opts synthesizer [].

(** The loop [for (i, sentence) in enumerate(sentences)] of
        [paragraphToSound]. *)
Fixpoint sentences_to_sound (i : Z) (todo : list sentence) (total : Z)
             (silent_half_second : list Z) (opts : options)
             (synthesizer : parwave.Synthesizer) (sounds : list (list Z))
      : result (parwave.Synthesizer * list (list Z)) :=
      match todo with
      | [] => Ok (synthesizer, sounds)
      | sentence_ :: rest =>
          '(synthesizer, samples) <-
             _sentenceToSound sentence_ (i + 1) (total - i - 1) opts synthesizer ;;
          sentences_to_sound (i + 1) rest total silent_half_second opts
            synthesizer (sounds ++ [samples] ++ [silent_half_second])
      end.

(** [paragraphToSound]. *)
Definition paragraphToSound (paragraph : unicode) (opts : options)
               (synthesizer : parwave.Synthesizer)
      : result (parwave.Synthesizer * list (list Z)) :=
      let tokens := split paragraph in
      sentences <- extract_sentences (length tokens) tokens [] ;;
      '(synthesizer, silent_half_second) <-
         parwave.generateSilence synthesizer (Int 500) ;;
      sentences_to_sound 0 sentences (len sentences) silent_half_second opts
        synthesizer [].

End Transform.
End transform.

(** ** [src/languages/english_canadian.py]

    The ruleset [language_rules] imports.  A rule works on the local copy
    [applyRules] made of the parameter-set and changes it in place; here it
    hands the changed copy back in its outcome. *)

Module english_canadian.
Import Py universal_rules language_rules.

(** The schwa and the wedge, which several rules single out. *)
Definition schwa : unicode := [601%N].
Definition wedge : unicode := [652%N].

(** [_QUESTION_WORDS]: six entries, the last two literals of the source
    being adjacent with no comma between them and so read as one string. *)
Definition _QUESTION_WORDS : list unicode :=
  [[104; 230; 119]; [104; 117]; [104; 117; 109]; [653; 603; 633];
   [653; 601; 116]; [653; 603; 110; 653; 652; 106]]%N.

(** [word in _QUESTION_WORDS]. *)
Definition is_question_word (word : unicode) : bool :=
  existsb (unicode_eqb word) _QUESTION_WORDS.

(** [min(x, y)]: the first minimal argument. *)
Definition min (x y : num) : num := if gt x y then y else x.

(** [parameters[i] = f(parameters[i])], the shape of every in-place change
    the rules make. *)
Definition update (parameters_ : parameters) (i : Z) (f : num -> result num)
  : result parameters :=
  x <- getitem parameters_ i ;;
  y <- f x ;;
  setitem parameters_ i y.

(** [parameters[i] *= factor]. *)
Definition imul (parameters_ : parameters) (i : Z) (factor : float)
  : result parameters :=
  update parameters_ i (fun x => mul x (Float factor)).

(** [parameters[i] += amount]. *)
Definition iadd (parameters_ : parameters) (i : Z) (amount : Z)
  : result parameters :=
  update parameters_ i (fun x => add x (Int amount)).

(** A rule's return value with nothing to insert. *)
Definition plain (f0_multiplier : float) (parameters_ : parameters) : result outcome :=
  Ok (mk_outcome [] [] (Float f0_multiplier) parameters_).

Section Ruleset.
Variable IPA : ipa.module.
(** [x ** y] on floats, as the interpreter computes it around the C
    library's [pow]. *)
Variable float_pow : float -> float -> result float.

(** [x ** y]: an integer power stays an integer unless the exponent is
    negative. *)
Definition pow (x y : num) : result num :=
  match x, y with
  | Int a, Int b =>
      if 0 <=? b then Ok (Int (a ^ b))
      else a' <- to_float x ;; b' <- to_float y ;;
           r <- float_pow a' b' ;; Ok (Float r)
  | _, _ =>
      a' <- to_float x ;; b' <- to_float y ;;
      r <- float_pow a' b' ;; Ok (Float r)
  end.

(** [len([p for p in phonemes if p in ipa.VOWELS])]. *)
Definition count_vowels (phonemes : list unicode) : Z :=
  len (filter (ipa.VOWELS IPA) phonemes).

Definition _amplifyContent : rule :=
  fun ctx _ _ _ _ parameters_ =>
    if is_content ctx && negb (unicode_eqb (ipa_character ctx) schwa) then
      parameters_ <- imul parameters_ 5 1.25 ;;
      if ipa.VOWELS IPA (ipa_character ctx) then
        parameters_ <- imul parameters_ 32 1.1 ;;
        plain 0.95 parameters_
      else plain 1.0 parameters_
    else plain 1.0 parameters_.

Definition _degradePitch : rule :=
  fun ctx _ _ _ _ parameters_ =>
    if negb (is_question ctx) then
      step <- div (Float 0.05) (Int (word_position ctx + remaining_words ctx)) ;;
      decay_ratio <- sub (Float 1.0) step ;;
      decay <- pow decay_ratio (Int (word_position ctx)) ;;
      f0_multiplier <- div (Float 1.0) decay ;;
      Ok (mk_outcome [] [] f0_multiplier parameters_)
    else plain 1.0 parameters_.

Definition _emphasizeSpeech : rule :=
  fun ctx _ _ _ _ parameters_ =>
    if is_emphasized ctx && negb (ipa.STOPS IPA (ipa_character ctx)) then
      parameters_ <- iadd parameters_ 27 5 ;;
      parameters_ <- imul parameters_ 32 1.1 ;;
      plain 0.95 parameters_
    else plain 1.0 parameters_.

Definition _exclaim : rule :=
  fun ctx _ _ _ _ parameters_ =>
    if is_exclamation ctx then
      parameters_ <- imul parameters_ 16 1.1 ;;
      parameters_ <- imul parameters_ 17 1.1 ;;
      parameters_ <- imul parameters_ 18 1.1 ;;
      parameters_ <-
        update parameters_ 30 (fun x => y <- add x (Int 5) ;; Ok (min y (Int 60))) ;;
      parameters_ <-
        update parameters_ 31 (fun x => y <- add x (Int 5) ;; Ok (min y (Int 60))) ;;
      parameters_ <- imul parameters_ 32 0.95 ;;
      if is_question ctx then plain 0.95 parameters_
      else if ipa.VOWELS IPA (ipa_character ctx)
              && negb (existsb (ipa.VOWELS IPA) (following_phonemes ctx)) then
        parameters_ <- imul parameters_ 32 1.35 ;;
        plain 0.95 parameters_
      else plain 0.975 parameters_
    else plain 0.975 parameters_.

(** The part of [_inflectQuestionPitch] after the test on the last three
    words: the rise on the last word, then the question word itself. *)
Definition inflect_tail (ctx : context) (parameters_ : parameters) : result outcome :=
  if remaining_words ctx =? 0 then
    let position := count_vowels (preceding_phonemes ctx) in
    step <- div (Float 0.11)
              (Int (position + count_vowels (following_phonemes ctx) + 1)) ;;
    rise_ratio <- sub (Float 1.0) step ;;
    rise <- pow rise_ratio (Int position) ;;
    f0_multiplier <- add (Float (-0.05)) rise ;;
    Ok (mk_outcome [] [] f0_multiplier parameters_)
  else
    let word := concat (preceding_phonemes ctx ++ [ipa_character ctx]
                        ++ following_phonemes ctx) in
    if is_question_word word
       && negb (existsb is_question_word (previous_words ctx))
    then plain 0.9 parameters_
    else plain 1.0 parameters_.

Definition _inflectQuestionPitch : rule :=
  fun ctx _ _ _ _ parameters_ =>
    if is_question ctx && negb (unicode_eqb (ipa_character ctx) schwa)
       && ipa.VOWELS IPA (ipa_character ctx) then
      if (remaining_words ctx <=? 2)
         && (match previous_words ctx with [] => false | _ :: _ => true end
             && existsb is_question_word (previous_words ctx)) then
        second_last <-
          (if remaining_words ctx =? 2 then
             next <- getitem (following_words ctx) 0 ;;
             Ok (unicode_eqb next wedge)
           else Ok false) ;;
        if second_last then plain 0.7 parameters_
        else if (remaining_words ctx =? 1)
                && match following_phonemes ctx with [] => true | _ :: _ => false end
                && match preceding_phonemes ctx with [] => true | _ :: _ => false end
                && negb (unicode_eqb (ipa_character ctx) wedge)
        then plain 0.8 parameters_
        else plain 0.9 parameters_
      else inflect_tail ctx parameters_
    else plain 1.0 parameters_.

Definition _lengthenTerminal : rule :=
  fun ctx _ _ _ _ parameters_ =>
    if (remaining_words ctx =? 0) && negb (unicode_eqb (ipa_character ctx) schwa)
       && ipa.VOWELS IPA (ipa_character ctx) then
      parameters_ <- imul parameters_ 32 1.5 ;;
      plain 1.0 parameters_
    else plain 1.0 parameters_.

Definition _liquidateVowels : rule :=
  fun ctx _ remaining_phoneme_parameter_count _ _ parameters_ =>
    match following_phonemes ctx with
    | following :: _ =>
        if (remaining_phoneme_parameter_count =? 0)
           && ipa.LIQUIDS IPA (ipa_character ctx)
           && ipa.VOWELS IPA following then
          vowel_values <- lookup (ipa.IPA_PARAMETERS IPA) following ;;
          let values := combine (slice_to parameters_ 32) (slice_to vowel_values 32) in
          blend <- blend_1_2 values ;;
          duration <- getitem vowel_values 32 ;;
          duration <- scaled duration 0.25 ;;
          Ok (mk_outcome [] [blend ++ [Int duration]] (Float 1.0) parameters_)
        else plain 1.0 parameters_
    | [] => plain 1.0 parameters_
    end.

Definition _quoteSpeech : rule :=
  fun ctx _ _ _ _ parameters_ =>
    if is_quoted ctx then
      parameters_ <- iadd parameters_ 27 5 ;;
      parameters_ <- imul parameters_ 32 0.925 ;;
      plain 0.975 parameters_
    else plain 1.0 parameters_.

Definition _shortenDipthong : rule :=
  fun ctx _ _ _ _ parameters_ =>
    match rev (preceding_phonemes ctx) with
    | previous :: _ =>
        if ipa.VOWELS IPA (ipa_character ctx) && ipa.VOWELS IPA previous then
          parameters_ <- imul parameters_ 32 0.5 ;;
          plain 1.0 parameters_
        else plain 1.0 parameters_
    | [] => plain 1.0 parameters_
    end.

Definition RULE_FUNCTIONS : list rule :=
  [_liquidateVowels; _inflectQuestionPitch; _amplifyContent; _emphasizeSpeech;
   _quoteSpeech; _degradePitch; _lengthenTerminal; _shortenDipthong; _exclaim].

End Ruleset.
End english_canadian.

(** ** [src/waveform.py]

    The wave file is kept as what has been handed to it: the header fields
    [__init__] sets and the bytes of the frames written so far. *)

Module waveform.

(** What the methods raise: [IOError] and [struct.error]. *)
Inductive error : Type :=
| IOError
| struct_error.

(** The [wave.Wave_write] object behind a wave form. *)
Record Wave_write : Type := mk_Wave_write {
  nchannels : Z;
  sampwidth : Z;
  framerate : Z;
  frames : list Z;
  closed : bool
}.

Record WaveForm : Type := mk_WaveForm {
  _finalized : bool;
  _wavefile : Wave_write
}.

(** [WaveForm.__init__], for a file that [wave.open] could open. *)
Definition __init__ : WaveForm :=
  mk_WaveForm false (mk_Wave_write 1 2 10000 [] false).

(** [struct.pack('h', sample)]: the two bytes of a signed short, low byte
    first as on a little-endian machine; [struct.error] outside the range of
    a short. *)
Definition pack_h (sample : Z) : error + list Z :=
  if (-32768 <=? sample) && (sample <=? 32767)
  then inr [sample mod 256; (sample / 256) mod 256]
  else inl struct_error.

(** [[struct.pack('h', sample) for sample in samples]]. *)
Fixpoint pack_all (samples : list Z) : error + list (list Z) :=
  match samples with
  | [] => inr []
  | sample :: rest =>
      match pack_h sample with
      | inl e => inl e
      | inr bytes =>
          match pack_all rest with
          | inl e => inl e
          | inr chunks => inr (bytes :: chunks)
          end
      end
  end.

(** [Wave_write.writeframes]. *)
Definition writeframes (w : Wave_write) (bytes : list Z) : Wave_write :=
  mk_Wave_write (nchannels w) (sampwidth w) (framerate w) (frames w ++ bytes)
    (closed w).

(** [WaveForm.addSamples]: the wave form as the call leaves it, and what
    the call raised, if anything. *)
Definition addSamples (self : WaveForm) (samples : list Z)
  : WaveForm * option error :=
  if _finalized self then (self, Some IOError)
  else match pack_all samples with
       | inl e => (self, Some e)
       | inr chunks =>
           (mk_WaveForm (_finalized self)
              (writeframes (_wavefile self) (concat chunks)), None)
       end.

(** [WaveForm.close]. *)
Definition close (self : WaveForm) : WaveForm :=
  if negb (_finalized self) then
    let w := _wavefile self in
    mk_WaveForm true
      (mk_Wave_write (nchannels w) (sampwidth w) (framerate w) (frames w) true)
  else self.

End waveform.

(** ** [klatt.py] *)

Module klatt.

(** The loop [for segment in transform.paragraphToSound(...)] of [main],
    which hands each segment to the wave form and stops at the first call
    that raises. *)
Fixpoint add_segments (wave_form : waveform.WaveForm) (segments : list (list Z))
  : waveform.WaveForm * option waveform.error :=
  match segments with
  | [] => (wave_form, None)
  | segment :: rest =>
      match waveform.addSamples wave_form segment with
      | (wave_form, Some e) => (wave_form, Some e)
      | (wave_form, None) => add_segments wave_form rest
      end
  end.

End klatt.

(** ** Sample data for the worked examples

    A six-symbol phoneme inventory and stand-ins for the C library and the
    random generator, on which the definitions above can be run. *)

Module Demo.
Import Py.

(** Low-order Taylor polynomials in place of [math.cos] and [math.e ** x]. *)
Definition math_cos (x : float) : result float :=
    Ok (1 - x * x / 2 + x * x * x * x / 24)%float.
Definition math_e_pow (x : float) : result float :=
    Ok (1 + x + x * x / 2 + x * x * x / 6)%float.

(** An alternating sequence of draws within the generator's bounds. *)
Definition random_uniform (k : nat) : float :=
    if Nat.even k then 0.000004%float else (-0.000007)%float.

(** A parameter set with the given formants, voicing and duration. *)
Definition sound (f1 f2 f3 fnz av af milliseconds : Z) : list num :=
    map Int
      [0; 1500; 0; 270; fnz;
       f1; f2; f3; 3300; 3750; 4900;
       100; 6000; 100; 100; 100;
       60; 90; 150; 250; 200; 1000;
       0; 0; 0; 0; 0;
       0; 0; af; av; 0;
       milliseconds].

(** A three-millisecond sound, for short runs of the synthesizer. *)
Definition brief_sound : list num := sound 310 2020 2960 270 60 0 3.

Definition a_sound : list num := sound 700 1220 2600 270 60 0 100.
Definition i_sound : list num := sound 310 2020 2960 270 60 0 90.
Definition n_sound : list num := sound 480 1340 2470 450 50 0 60.
Definition t_sound : list num := sound 400 1600 2600 270 0 30 25.
Definition h_sound : list num := sound 500 1500 2500 270 0 40 40.
Definition glottal_sound : list num := sound 450 1450 2450 270 0 0 20.

Definition table : list (unicode * list num) :=
    [(u "a", a_sound); (u "i", i_sound); (u "n", n_sound);
     (u "t", t_sound); (u "h", h_sound); ([660%N], glottal_sound)].

Fixpoint assoc {V : Type} (l : list (unicode * V)) (k : unicode) : option V :=
    match l with
    | [] => None
    | (k', v) :: l' => if unicode_eqb k k' then Some v else assoc l' k
    end.

Definition member (l : list unicode) (k : unicode) : bool :=
    existsb (unicode_eqb k) l.

Definition IPA : ipa.module :=
    ipa.mk_module unit
      (assoc table)
      (fun k => option_map (fun v => (v, tt)) (assoc table k))
      (member [u "a"; u "i"])
      (member [u "n"])
      (member [u "t"; [660%N]])
      (member [])
      (map (fun c => [c])).

(** A rule that asks for one parameter-set after the current one. *)
Definition append_rule (extra : list num) : language_rules.rule :=
  fun _ _ _ _ _ parameters_ =>
    Ok (language_rules.mk_outcome [] [extra] (Float 1.0) parameters_).

(** A rule that asks for one parameter-set before the current one. *)
Definition prepend_rule (extra : list num) : language_rules.rule :=
  fun _ _ _ _ _ parameters_ =>
    Ok (language_rules.mk_outcome [extra] [] (Float 1.0) parameters_).

(** The context of a one-phoneme word that is a sentence of its own. *)
Definition lone_context (symbol : unicode) : language_rules.context :=
  language_rules.mk_context symbol [] [] 1 0 [] [] 1 0
    false false false false false.

End Demo.

(** *** More sample data *)

Module DemoMore.
Import Py.

(** A synthesizer whose resonators are left in some used state. *)
Definition used_Resonator : parwave._Resonator :=
  parwave.mk_Resonator 0.5 1.25 (-0.75) 0.125 (-0.0625).
Definition used_synthesizer : parwave.Synthesizer :=
  parwave.mk_Synthesizer (repeat used_Resonator 6) (repeat used_Resonator 5)
    used_Resonator used_Resonator used_Resonator used_Resonator used_Resonator
    0%float 0%nat.

(** The sample inventory with a liquid added. *)
Definition l_sound : list num := Demo.sound 310 1050 2880 270 50 0 80.
Definition table : list (unicode * list num) := Demo.table ++ [(u "l", l_sound)].
Definition IPA : ipa.module :=
  ipa.mk_module unit
    (Demo.assoc table)
    (fun k => option_map (fun v => (v, tt)) (Demo.assoc table k))
    (Demo.member [u "a"; u "i"])
    (Demo.member [u "n"])
    (Demo.member [u "t"; [660%N]])
    (Demo.member [u "l"])
    (map (fun c => [c])).

(** Powers by repeated multiplication, for whole exponents from 0 up, in
    place of the C library's [pow]. *)
Definition float_pow (x y : float) : result float :=
  n <- trunc_float y ;;
  Ok (Nat.iter (Z.to_nat n) (fun acc => acc * x)%float 1%float).

(** The liquid of a word that goes on with a vowel, in an exclamation. *)
Definition liquid_context : language_rules.context :=
  language_rules.mk_context (u "l") [] [u "a"] 1 0 [] [] 1 0
    false false true false true.

End DemoMore.


(** ** Vocabulary of the properties *)

Module Spec.
Import Py.

(** The signed 16-bit range. *)
Definition in_range (s : Z) : Prop := -32768 <= s <= 32767.

(** [l[i]] for an index within range (0 outside). *)
Definition item (l : list Z) (i : Z) : Z := nth (Z.to_nat i) l 0.

(** [l] repeats [buf] cyclically from its first element on. *)
Definition cyclic (buf l : list Z) : Prop :=
  forall i, 0 <= i < len l -> item l i = item buf (i mod len buf).

(** [l] is one or more whole copies of [buf]: what the doubling loop of
    turbo mode maintains. *)
Definition copies (buf l : list Z) : Prop :=
  cyclic buf l /\ exists m, 1 <= m /\ len l = m * len buf.

(** The sample loop of [fr], started at iteration [t] with [n] iterations
    to go, reaches the iteration at which turbo mode breaks. *)
Definition breaks (fr : parwave.frame) (t : Z) (n : nat) : Prop :=
  parwave.turbo fr = true
  /\ 1 <= parwave.f0_hz fr
  /\ t <= 2 * parwave.f0_hz fr - 1 < t + Z.of_nat n.

(** The [samples_target] of a parameter set, from its duration field. *)
Definition samples_target_of (parameters : list num) : result Z :=
  milliseconds <- getitem parameters 32 ;; parwave.target_samples milliseconds.

(** The share [fraction] of a duration, in whole milliseconds:
    [int(duration * fraction)]. *)
Definition share (duration : num) (fraction : float) : result Z :=
  product <- mul duration (Float fraction) ;; int_ product.

(** The three durations a vowel of [d] milliseconds is split into before a
    nasal: [int(d * 0.5)], [int(d * 0.167)], [int(d * 0.333)]. *)
Definition nasal_durations (d : Z) : result (Z * Z * Z) :=
  half <- share (Int d) 0.5 ;;
  sixth <- share (Int d) 0.167 ;;
  third <- share (Int d) 0.333 ;;
  Ok (half, sixth, third).

(** The three durations of [d] fall short of [d] by at most 2. *)
Definition nasal_durations_close (d : Z) : bool :=
  match nasal_durations d with
  | Ok (half, sixth, third) =>
      (d - 2 <=? half + sixth + third) && (half + sixth + third <=? d)
  | _ => false
  end.

(** [f 0 && f 1 && ... && f (n - 1)]. *)
Fixpoint all_below (n : nat) (f : Z -> bool) : bool :=
  match n with
  | O => true
  | S n' => f (Z.of_nat n') && all_below n' f
  end.

(** *** Universal rules *)

(** [o] is the 2:1 mean of the fields [x] and [y]: the floor of
    (2x + y) / 3 when both are integers; as soon as one is a float, what the
    interpreter's arithmetic gives for (x * 2 + y) / 3. *)
Definition two_to_one (x y o : num) : Prop :=
  match x, y with
  | Int a, Int b => o = Int ((2 * a + b) / 3)
  | _, _ =>
      exists doubled sum,
        mul x (Int 2) = Ok doubled /\ add doubled y = Ok sum
        /\ div sum (Int 3) = Ok o
  end.

(** [o] is the 1:2 mean of the fields [x] and [y]: the floor of
    (x + 2y) / 3 when both are integers; as soon as one is a float, what the
    interpreter's arithmetic gives for (x + y * 2) / 3. *)
Definition one_to_two (x y o : num) : Prop :=
  match x, y with
  | Int a, Int b => o = Int ((a + 2 * b) / 3)
  | _, _ =>
      exists doubled sum,
        mul y (Int 2) = Ok doubled /\ add x doubled = Ok sum
        /\ div sum (Int 3) = Ok o
  end.

(** [out] blends [xs] with [ys] field by field: it has one field for every
    position at which both have one, and that field is their [mean]. *)
Definition blended (mean : num -> num -> num -> Prop) (xs ys out : list num)
  : Prop :=
  Forall2 (fun pair o => mean (fst pair) (snd pair) o) (combine xs ys) out.

Section Frames.
Variable IPA : ipa.module.

(** [out] is [vowel :: rest] with the vowel split in three before a nasal
    [following]: the vowel at [int(0.5 d)], the 2:1 vowel:nasal blend at
    [int(0.167 d)], the 1:2 blend at [int(0.333 d)]. *)
Definition split_in_three (following : unicode)
           (vowel : universal_rules.parameters)
           (rest out : list universal_rules.parameters) : Prop :=
  exists nasal duration half sixth third lead_in lead_out,
    ipa.IPA_PARAMETERS IPA following = Some nasal
    /\ getitem vowel 32 = Ok duration
    /\ share duration 0.5 = Ok half
    /\ share duration 0.167 = Ok sixth
    /\ share duration 0.333 = Ok third
    /\ blended two_to_one (slice_to vowel 32) (slice_to nasal 32) lead_in
    /\ blended one_to_two (slice_to vowel 32) (slice_to nasal 32) lead_out
    /\ out = (slice_to vowel 32 ++ [Int half])
             :: (lead_in ++ [Int sixth])
             :: (lead_out ++ [Int third]) :: rest
    /\ (forall d, duration = Int d -> 0 <= d <= 5000 ->
                  d - 2 <= half + sixth + third <= d).

(** [sound] is [edge] with 15 ms trimmed off its duration, never below 5. *)
Definition trimmed_by_15 (edge sound : universal_rules.parameters) : Prop :=
  exists duration trimmed,
    getitem edge 32 = Ok duration
    /\ sub duration (Int 15) = Ok trimmed
    /\ (forall d, duration = Int d -> max (Int 5) trimmed = Int (Z.max 5 (d - 15)))
    /\ sound = slice_to edge 32 ++ [max (Int 5) trimmed].

(** [transition] is the 15 ms frame between [edge] and the phoneme
    [neighbour]: when [at_stop], the first 32 fields of the table entry of
    [gap] as they are; otherwise the 2:1 blend of the first 32 fields of the
    edge with those of the neighbour's table entry. *)
Definition transition_15 (at_stop : bool) (gap neighbour : unicode)
           (edge transition : universal_rules.parameters) : Prop :=
  if at_stop then
    exists values,
      ipa.IPA_PARAMETERS IPA gap = Some values
      /\ transition = slice_to values 32 ++ [Int 15]
  else exists values blend,
      ipa.IPA_PARAMETERS IPA neighbour = Some values
      /\ blended two_to_one (slice_to edge 32) (slice_to values 32) blend
      /\ transition = blend ++ [Int 15].

(** The lead of [parameters_list] shaped against the preceding phoneme. *)
Definition lead_shaped (ipa_character : unicode) (preceding : list unicode)
           (parameters_list mid : list universal_rules.parameters) : Prop :=
  match preceding with
  | [] => mid = parameters_list
  | _ :: _ =>
      exists lead rest sound transition,
        parameters_list = lead :: rest
        /\ trimmed_by_15 lead sound
        /\ transition_15 (ipa.STOPS IPA ipa_character) [660%N]
             (last preceding []) lead transition
        /\ mid = transition :: sound :: rest
  end.

(** The tail of [mid] shaped against the following phoneme. *)
Definition tail_shaped (ipa_character : unicode) (following : list unicode)
           (mid out : list universal_rules.parameters) : Prop :=
  match following with
  | [] => out = mid
  | follower :: _ =>
      if ipa.VOWELS IPA ipa_character && ipa.NASALS IPA follower then out = mid
      else
        exists body tail sound transition,
          mid = body ++ [tail]
          /\ trimmed_by_15 tail sound
          /\ transition_15 (ipa.STOPS IPA follower) (u "h") follower tail transition
          /\ out = body ++ [sound; transition]
  end.

End Frames.

(** *** The rule chain *)

(** The outcomes of the rule functions, in the order [applyRules] calls
    them on one parameter-set: each rule sees the parameter-set and the
    insertions as the rules before it left them. *)
Fixpoint rule_outcomes (rule_functions : list language_rules.rule)
         (ctx : language_rules.context)
         (transformed_parameters : list universal_rules.parameters) (remaining : Z)
         (parameters_ : universal_rules.parameters)
         (preceding_parameters following_parameters : list universal_rules.parameters)
  : result (list language_rules.outcome) :=
  match rule_functions with
  | [] => Ok []
  | function :: rest =>
      o <- function ctx transformed_parameters remaining
             preceding_parameters following_parameters parameters_ ;;
      os <- rule_outcomes rest ctx transformed_parameters remaining
              (language_rules.modified o)
              (preceding_parameters ++ language_rules.preceding_params o)
              (language_rules.following_params o ++ following_parameters) ;;
      Ok (o :: os)
  end.

(** Everything the rules asked to put before the current parameter-set, the
    first rule's request first. *)
Definition prepends (os : list language_rules.outcome)
  : list universal_rules.parameters :=
  concat (map language_rules.preceding_params os).

(** Everything the rules asked to put after the current parameter-set, the
    last rule's request first. *)
Definition appends_latest_first (os : list language_rules.outcome)
  : list universal_rules.parameters :=
  concat (map language_rules.following_params (rev os)).

(** *** Tokens and paragraphs *)

Section Tokens.
Variable IPA : ipa.module.

(** The token matches the token grammar. *)
Definition well_formed (token : unicode) : bool :=
  match transform._WORD_REGEXP IPA token with
  | Some _ => true
  | None => false
  end.

(** The token carries terminal punctuation. *)
Definition ends_sentence (token : unicode) : bool :=
  match transform._WORD_REGEXP IPA token with
  | Some (_, _, group3) =>
      contains group3 transform.c_period
      || contains group3 transform.c_question
      || contains group3 transform.c_exclamation
  | None => false
  end.

(** The sentence number and the word number within that sentence (both from
    1) of the token that comes right after [tokens], when the first of
    [tokens] is word [word_number] of sentence [sentence_number]. *)
Fixpoint position_after (tokens : list unicode) (sentence_number word_number : Z)
  : Z * Z :=
  match tokens with
  | [] => (sentence_number, word_number)
  | token :: rest =>
      if ends_sentence token then position_after rest (sentence_number + 1) 1
      else position_after rest sentence_number (word_number + 1)
  end.

End Tokens.

(** The audio of a sentence: what [_sentenceToSound] returns for it from
    some state of the synthesizer. *)
Definition rendered (IPA : ipa.module) (RULE_FUNCTIONS : list language_rules.rule)
           (math_cos math_e_pow : float -> result float)
           (random_uniform : nat -> float) (opts : transform.options)
           (sentence_ : transform.sentence) (audio : list Z) : Prop :=
  exists position remaining synthesizer synthesizer',
    transform._sentenceToSound IPA RULE_FUNCTIONS math_cos math_e_pow
      random_uniform sentence_ position remaining opts synthesizer
    = Ok (synthesizer', audio).

(** Half a second of silence: 5000 zero samples. *)
Definition half_second : list Z := repeat 0 5000.

(** [segments] is each audio followed by half a second of silence. *)
Definition alternates (audios segments : list (list Z)) : Prop :=
  segments = flat_map (fun audio => [audio; half_second]) audios.

End Spec.

(** ** Further vocabulary *)

Module Terms.
Import Py.

(** *** The synthesizer, frames and tokens *)

(** The frame [fr] with its turbo flag set to [flag]. *)
Definition with_turbo (fr : parwave.frame) (flag : bool) : parwave.frame :=
  parwave.mk_frame (parwave.amplitudes fr) (parwave.ab fr) (parwave.ah fr)
    (parwave.af fr) (parwave.av fr) (parwave.avs fr) (parwave.f0_hz fr)
    (parwave.samples_target fr) flag.

(** The noise accumulator after [n] draws, the first being draw number
    [first], each added to the accumulator as [_getNoise] does. *)
Fixpoint noise_after (random_uniform : nat -> float) (first n : nat)
         (noise : float) : float :=
  match n with
  | O => noise
  | S n' =>
      noise_after random_uniform (S first) n'
        (random_uniform first + noise)%float
  end.

(** The synthesizer holds six cascade and five parallel resonators, as
    [__init__] builds it. *)
Definition well_built (self : parwave.Synthesizer) : Prop :=
  length (parwave._cascade_resonators self) = 6%nat
  /\ length (parwave._parallel_resonators self) = 5%nat.

(** The frame a call of [synthesize] on [parameters] loops with. *)
Definition frame_of (parameters : list num) (f0_hz samples_target : Z)
           (turbo : bool) : parwave.frame :=
  parwave.mk_frame (firstn 5 (skipn 22 parameters))
    (nth 27 parameters (Int 0)) (nth 28 parameters (Int 0))
    (nth 29 parameters (Int 0)) (nth 30 parameters (Int 0))
    (nth 31 parameters (Int 0)) f0_hz samples_target turbo.

(** The number of draws a call of [synthesize] makes: two periods when
    turbo mode breaks the loop, target plus one period otherwise. *)
Definition draws_made (period target : Z) (turbo : bool) : nat :=
  if turbo && (1 <=? period) && (period <=? target)
  then Z.to_nat (2 * period)
  else Z.to_nat (target + period).

(** Every entry of the parameter table has at least the 32 acoustic
    fields. *)
Definition table_complete (IPA : ipa.module) : Prop :=
  forall symbol values,
    ipa.IPA_PARAMETERS IPA symbol = Some values -> (32 <= length values)%nat.

(** A parameter set of exactly 33 fields. *)
Definition sized (parameters_ : universal_rules.parameters) : Prop :=
  length parameters_ = 33%nat.

(** [kept] has the 32 acoustic fields of [given]. *)
Definition same_sound (given kept : universal_rules.parameters) : Prop :=
  slice_to kept 32 = slice_to given 32.

(** [frames] is one parameter-set of 15 milliseconds when [wanted], and
    nothing otherwise. *)
Definition one_transition (wanted : bool)
           (frames : list universal_rules.parameters) : Prop :=
  if wanted
  then exists transition,
      frames = [transition] /\ getitem transition (-1) = Ok (Int 15)
  else frames = [].

(** The shape the token grammar gives a token and its three groups: an
    optional quote/emphasis opener and content mark; an IPA character, a run
    of IPA and extension characters and an optional comma; an optional
    quote/emphasis closer and terminal punctuation.  The token is the three
    groups laid end to end, with at most one line feed after them, which
    belongs to no group. *)
Definition token_parts (IPA : ipa.module) (token group1 group2 group3 : unicode)
  : Prop :=
  (token = group1 ++ group2 ++ group3
   \/ token = group1 ++ group2 ++ group3 ++ [transform.c_newline])
  /\ exists opener content c body comma closer stop,
      group1 = opener ++ content
      /\ In opener transform.quote_emphasis
      /\ In content [[transform.c_apostrophe]; []]
      /\ group2 = c :: body ++ comma
      /\ transform._IPA_CHARACTERS IPA c = true
      /\ forallb (transform.cluster_class IPA) body = true
      /\ In comma [[transform.c_comma]; []]
      /\ group3 = closer ++ stop
      /\ In closer transform.quote_emphasis
      /\ In stop transform.terminal.

(** *** Sentences and words *)

(** The phoneme cluster of a token: the second group of its match. *)
Definition cluster_of (IPA : ipa.module) (token : unicode) : unicode :=
  match transform._WORD_REGEXP IPA token with
  | Some (_, group2, _) => group2
  | None => []
  end.

(** The closing markup of a token: the third group of its match. *)
Definition closing_of (IPA : ipa.module) (token : unicode) : unicode :=
  match transform._WORD_REGEXP IPA token with
  | Some (_, _, group3) => group3
  | None => []
  end.

(** The symbol is one of the four extension marks. *)
Definition is_extension (symbol : unicode) : bool :=
  unicode_eqb symbol [transform.c_greater]
  || unicode_eqb symbol [transform.c_less]
  || unicode_eqb symbol [transform.c_plus]
  || unicode_eqb symbol [transform.c_minus].

(** The symbol of a phoneme. *)
Definition symbol_of (phoneme_ : transform.phoneme) : unicode :=
  let '(p, _, _) := phoneme_ in p.

(** *** The wave form *)

(** The number of bytes written to the wave form so far. *)
Definition bytes_written (wave_form : waveform.WaveForm) : Z :=
  Py.len (waveform.frames (waveform._wavefile wave_form)).

(** *** The Canadian English rules *)

(** The fields the Canadian English rules write to: f1, the bandwidths of
    the first three formants, the bypass gain, the two voicing amplitudes
    and the duration. *)
Definition touched : list nat := [5; 16; 17; 18; 27; 30; 31; 32]%nat.

(** [after] has the fields of [before], but possibly for those listed. *)
Definition same_but (fields : list nat) (before after : universal_rules.parameters)
  : Prop :=
  length after = length before
  /\ forall i, ~ In i fields -> nth_error after i = nth_error before i.

(** A rule that inserts nothing and writes to the listed fields only. *)
Definition quiet (r : language_rules.rule) : Prop :=
  forall ctx previous remaining preceding following p o,
    r ctx previous remaining preceding following p = Ok o ->
    language_rules.preceding_params o = []
    /\ language_rules.following_params o = []
    /\ same_but touched p (language_rules.modified o).

(** What one pass of the nine Canadian English rules over the parameter-set
    [p] comes to: [p'] is what becomes of it, [extra] what is put after
    it. *)
Definition pass_spec (IPA : ipa.module) (ctx : language_rules.context)
           (remaining : Z) (p p' : universal_rules.parameters)
           (extra : list universal_rules.parameters) : Prop :=
  same_but touched p p'
  /\ (extra = []
      \/ (remaining = 0
          /\ ipa.LIQUIDS IPA (language_rules.ipa_character ctx) = true
          /\ exists vowel rest sound,
               language_rules.following_phonemes ctx = vowel :: rest
               /\ ipa.VOWELS IPA vowel = true
               /\ extra = [sound]
               /\ (table_complete IPA -> sized p -> sized sound))).

End Terms.


(** * Properties *)

(** ** The result monad and Python sequences *)

Module PyFacts.
Import Py.

Lemma len_app {A : Type} (l1 l2 : list A) : len (l1 ++ l2) = len l1 + len l2.
Proof. unfold len. rewrite length_app. lia. Qed.

Lemma len_nonneg {A : Type} (l : list A) : 0 <= len l.
Proof. unfold len. lia. Qed.

Lemma len_times {A : Type} (x : A) (n : Z) : 0 <= n -> len (times x n) = n.
Proof. intros Hn. unfold len, times. rewrite repeat_length. lia. Qed.

End PyFacts.

Module ParwaveFacts.
Import Py parwave Spec.

Lemma clip_in_range (output : Z) : in_range (clip output).
Proof.
    unfold clip, in_range.
    destruct (32767 <? output) eqn:Hhi; [lia|].
    destruct (output <? -32768) eqn:Hlo; lia.
Qed.

Lemma target_samples_Int (m : Z) : target_samples (Int m) = Ok (m * 10).
Proof. reflexivity. Qed.

(** C7: for every non-negative millisecond count m, generateSilence(m)
      returns exactly m * 10 samples, all of them zero, and leaves the noise
      accumulator at 0.0. *)
Theorem generateSilence_zeros (self : Synthesizer) (m : Z) :
    0 <= m ->
    exists self' samples,
      generateSilence self (Int m) = Ok (self', samples)
      /\ len samples = m * 10
      /\ Forall (fun s => s = 0) samples
      /\ _noise self' = 0%float.
Proof.
    intros Hm. unfold generateSilence. rewrite target_samples_Int. simpl.
    eexists. eexists. split; [reflexivity|].
    split; [apply PyFacts.len_times; lia|].
    split; [|reflexivity].
    unfold times. apply Forall_forall. intros x Hx.
    apply repeat_spec in Hx. exact Hx.
Qed.

(** generateSilence(500): exactly 5000 zero samples, noise reset. *)
Lemma generateSilence_500 :
    0 <= 500 /\
    exists self' samples,
      generateSilence __init__ (Int 500) = Ok (self', samples)
      /\ len samples = 500 * 10
      /\ Forall (fun s => s = 0) samples
      /\ _noise self' = 0%float.
Proof.
    split; [lia|]. apply (generateSilence_zeros __init__ 500). lia.
Defined.

Lemma item_app (l1 l2 : list Z) (i : Z) :
    0 <= i ->
    item (l1 ++ l2) i = if i <? len l1 then item l1 i else item l2 (i - len l1).
Proof.
    intros Hi. unfold item, len.
    destruct (i <? Z.of_nat (length l1)) eqn:Hlt.
    - apply Z.ltb_lt in Hlt. apply app_nth1. lia.
    - apply Z.ltb_ge in Hlt. rewrite app_nth2 by lia. f_equal. lia.
Qed.

Lemma item_firstn (l : list Z) (k : nat) (i : Z) :
    0 <= i < Z.of_nat k -> item (firstn k l) i = item l i.
Proof.
    intros Hi. unfold item.
    rewrite <- (firstn_skipn k l) at 2.
    destruct (Nat.lt_ge_cases (Z.to_nat i) (length (firstn k l))) as [Hlt|Hge].
    - rewrite app_nth1 by exact Hlt. reflexivity.
    - rewrite (nth_overflow (firstn k l)) by exact Hge.
      rewrite length_firstn in Hge.
      rewrite nth_overflow; [reflexivity|].
      rewrite length_app, length_firstn, length_skipn. lia.
Qed.

(** *** The turbo block *)

Section Tiling.
Variable buf : list Z.
Hypothesis buf_nonempty : 1 <= len buf.

Lemma copies_buf : copies buf buf.
Proof.
      split.
      - intros i Hi. rewrite Z.mod_small by lia. reflexivity.
      - exists 1. lia.
Qed.

Lemma copies_double (l : list Z) : copies buf l -> copies buf (l ++ l).
Proof.
      intros [Hc [m [Hm Hlen]]]. split.
      - intros i Hi. rewrite PyFacts.len_app in Hi.
        rewrite item_app by lia.
        destruct (i <? len l) eqn:Hlt.
        + apply Z.ltb_lt in Hlt. apply Hc. lia.
        + apply Z.ltb_ge in Hlt. rewrite Hc by lia.
          f_equal. rewrite Hlen.
          replace (i - m * len buf) with (i + (- m) * len buf) by lia.
          apply Z_mod_plus_full.
      - exists (2 * m). rewrite PyFacts.len_app. lia.
Qed.

Lemma double_sounds_copies (fuel : nat) (l l' : list Z) (target : Z) :
      double_sounds fuel l target = Ok l' ->
      copies buf l -> len l <= target ->
      copies buf l' /\ len l' <= target /\ target <= len l' * 2.
Proof.
      revert l. induction fuel as [|fuel IH]; intros l H Hc Hle; simpl in H.
      - destruct (len l * 2 <? target) eqn:Hlt; [discriminate|].
        apply Z.ltb_ge in Hlt. injection H as <-. auto.
      - destruct (len l * 2 <? target) eqn:Hlt.
        + apply Z.ltb_lt in Hlt. apply IH in H; auto using copies_double.
          rewrite PyFacts.len_app. lia.
        + apply Z.ltb_ge in Hlt. injection H as <-. auto.
Qed.

Lemma double_sounds_returns (fuel : nat) (l : list Z) (target : Z) :
      1 <= len l -> target - len l * 2 < Z.of_nat fuel ->
      exists l', double_sounds fuel l target = Ok l'.
Proof.
      revert l. induction fuel as [|fuel IH]; intros l Hl Hfuel; simpl.
      - destruct (len l * 2 <? target) eqn:Hlt; [|eauto].
        apply Z.ltb_lt in Hlt. lia.
      - destruct (len l * 2 <? target) eqn:Hlt; [|eauto].
        apply IH; rewrite PyFacts.len_app; lia.
Qed.

(** The turbo block returns, for any target. *)
Lemma turbo_fill_returns (target : Z) : exists r, turbo_fill buf target = Ok r.
Proof.
      unfold turbo_fill.
      destruct (double_sounds_returns (Z.to_nat target) buf target) as [l' Hl'];
        [exact buf_nonempty | lia |].
      rewrite Hl'. simpl. eauto.
Qed.

(** The turbo block yields exactly [target] samples, a cyclic repetition
        of the buffer it was given. *)
Lemma turbo_fill_cyclic (target : Z) (r : list Z) :
      turbo_fill buf target = Ok r -> len buf <= target ->
      len r = target /\ cyclic buf r.
Proof.
      unfold turbo_fill. intros H Hle. bind_inv H. injection H as <-.
      apply double_sounds_copies in Hstep; [|apply copies_buf|exact Hle].
      destruct Hstep as [[Hc [m [Hm Hlen]]] [Hle' Hge]].
      assert (Hslice : slice_to a (target - len a)
                       = firstn (Z.to_nat (target - len a)) a).
      { unfold slice_to. destruct (target - len a <? 0) eqn:Hneg; [|reflexivity].
        apply Z.ltb_lt in Hneg. lia. }
      rewrite Hslice.
      assert (Hlen2 : len (firstn (Z.to_nat (target - len a)) a) = target - len a).
      { unfold len in *. rewrite length_firstn. lia. }
      split.
      - rewrite PyFacts.len_app, Hlen2. lia.
      - intros i Hi. rewrite PyFacts.len_app, Hlen2 in Hi.
        rewrite item_app by lia.
        destruct (i <? len a) eqn:Hlt.
        + apply Z.ltb_lt in Hlt. apply Hc. lia.
        + apply Z.ltb_ge in Hlt. rewrite item_firstn by lia.
          rewrite Hc by lia. f_equal. rewrite Hlen.
          replace (i - m * len buf) with (i + (- m) * len buf) by lia.
          apply Z_mod_plus_full.
Qed.

End Tiling.

Lemma Forall_firstn_keeps {A : Type} (Q : A -> Prop) (k : nat) (l : list A) :
    Forall Q l -> Forall Q (firstn k l).
Proof.
    revert l. induction k as [|k IH]; intros l Hl; simpl; [constructor|].
    destruct Hl; constructor; auto.
Qed.

Lemma double_sounds_range (fuel : nat) (l l' : list Z) (target : Z) :
    double_sounds fuel l target = Ok l' ->
    Forall in_range l -> Forall in_range l'.
Proof.
    revert l. induction fuel as [|fuel IH]; intros l H Hl; simpl in H;
      destruct (len l * 2 <? target).
    - discriminate.
    - injection H as <-. exact Hl.
    - apply IH in H; [exact H|]. apply Forall_app; auto.
    - injection H as <-. exact Hl.
Qed.

Lemma turbo_fill_range (l r : list Z) (target : Z) :
    turbo_fill l target = Ok r -> Forall in_range l -> Forall in_range r.
Proof.
    unfold turbo_fill. intros H Hl. bind_inv H. injection H as <-.
    apply double_sounds_range in Hstep; [|exact Hl].
    apply Forall_app. split; [exact Hstep|].
    unfold slice_to. apply Forall_firstn_keeps. exact Hstep.
Qed.


(** *** The sample loop *)

Section Loop.
Variable math_cos : float -> result float.
Variable math_e_pow : float -> result float.
Variable random_uniform : nat -> float.
Variable fr : frame.

Lemma sample_loop_range (n : nat) :
      forall t self last_result period_index sounds self' out how,
        sample_loop random_uniform fr n t self last_result period_index sounds
        = Ok (self', out, how) ->
        Forall in_range sounds -> Forall in_range out.
Proof.
      induction n as [|n IH]; intros t self last_result period_index sounds
        self' out how H Hs; simpl in H.
      - injection H as <- <- <-. exact Hs.
      - destruct (period_index =? f0_hz fr); bind_inv H;
          destruct a as [self1 result1];
          (destruct (f0_hz fr <=? t);
           [ bind_inv H;
             assert (Hs' : Forall in_range (sounds ++ [clip a]))
               by (apply Forall_app; split;
                   [exact Hs | constructor; [apply clip_in_range | constructor]]);
             destruct (turbo fr && (t =? f0_hz fr * 2 - 1));
             [ injection H as <- <- <-; exact Hs' | eapply IH; eauto ]
           | eapply IH; eauto ]).
Qed.

Lemma sample_loop_count (n : nat) :
      forall t self last_result period_index sounds self' out how,
        sample_loop random_uniform fr n t self last_result period_index sounds
        = Ok (self', out, how) ->
        0 <= t -> len sounds = Z.max 0 (t - Z.max 0 (f0_hz fr)) ->
        match how with
        | Broke => breaks fr t n /\ len out = f0_hz fr
        | Exhausted =>
            ~ breaks fr t n
            /\ len out = Z.max 0 (t + Z.of_nat n - Z.max 0 (f0_hz fr))
        end.
Proof.
      unfold breaks. set (P := f0_hz fr).
      induction n as [|n IH]; intros t self last_result period_index sounds
        self' out how H Ht Hlen; simpl in H.
      - injection H as <- <- <-. split; [lia|]. rewrite Hlen. f_equal. lia.
      - assert (Hrec : forall self1 last1 index1 sounds1,
                   sample_loop random_uniform fr n (t + 1) self1 last1 index1 sounds1
                   = Ok (self', out, how) ->
                   len sounds1 = Z.max 0 (t + 1 - Z.max 0 P) ->
                   ~ (turbo fr = true /\ t = 2 * P - 1 /\ P <= t) ->
                   match how with
                   | Broke => (turbo fr = true /\ 1 <= P
                               /\ t <= 2 * P - 1 < t + Z.of_nat (S n))
                              /\ len out = P
                   | Exhausted =>
                       ~ (turbo fr = true /\ 1 <= P
                          /\ t <= 2 * P - 1 < t + Z.of_nat (S n))
                       /\ len out = Z.max 0 (t + Z.of_nat (S n) - Z.max 0 P)
                   end).
        { intros self1 last1 index1 sounds1 Hloop Hlen1 Hnot.
          apply IH in Hloop; [|lia|exact Hlen1].
          destruct how; destruct Hloop as [Hb Hl].
          - split; [|rewrite Hl; f_equal; lia].
            intros (Hturbo & HP1 & Hr).
            destruct (Z.eq_dec t (2 * P - 1)) as [Heq|Hne].
            + apply Hnot. repeat split; [exact Hturbo | exact Heq | lia].
            + apply Hb. repeat split; [exact Hturbo | exact HP1 | lia | lia].
          - destruct Hb as (Hturbo & HP1 & Hr).
            split; [|exact Hl]. repeat split; [exact Hturbo | exact HP1 | lia | lia]. }
        change (f0_hz fr) with P in H.
        destruct (period_index =? P); bind_inv H; destruct a as [self1 result1].
        all: destruct (P <=? t) eqn:HPt;
          [ apply Z.leb_le in HPt | apply Z.leb_gt in HPt ].
        all: try (eapply Hrec; [ exact H | rewrite Hlen; lia | lia ]).
        all: bind_inv H.
        all: assert (Hlen1 : len (sounds ++ [clip a]) = Z.max 0 (t + 1 - Z.max 0 P))
          by (rewrite PyFacts.len_app, Hlen; unfold len; simpl; lia).
        all: destruct (turbo fr) eqn:Hturbo; simpl in H;
          [ | eapply Hrec; [ exact H | exact Hlen1 | intros [Habs _]; discriminate ] ].
        all: destruct (t =? P * 2 - 1) eqn:Hbrk;
          [ apply Z.eqb_eq in Hbrk | apply Z.eqb_neq in Hbrk ].
        all: try (eapply Hrec; [ exact H | exact Hlen1 | lia ]).
        all: injection H as <- <- <-; split; [ repeat split; lia | lia ].
Qed.

End Loop.


(** *** synthesize *)

Section Synthesize.
Variable math_cos : float -> result float.
Variable math_e_pow : float -> result float.
Variable random_uniform : nat -> float.

(** What a completed sample run was made of. *)
Lemma sample_run_inv self parameters f0_multiplier turbo_ self' buf how target :
      sample_run math_cos math_e_pow random_uniform self parameters f0_multiplier
        turbo_ = Ok (self', buf, how, target) ->
      exists period fr self0,
        period_length f0_multiplier = Ok period
        /\ samples_target_of parameters = Ok target
        /\ f0_hz fr = period /\ samples_target fr = target /\ turbo fr = turbo_
        /\ sample_loop random_uniform fr (Z.to_nat (target + period)) 0 self0
             0%float period [] = Ok (self', buf, how).
Proof.
      unfold parwave.sample_run. intros H. bind_inv H. rename a into period.
      do 33 (destruct parameters as [|? parameters]; [discriminate H|]).
      destruct parameters; [|discriminate H].
      bind_inv H. rename a into self0. bind_inv H. rename a into target0.
      bind_inv H. destruct a as [[self1 sounds1] how1].
      injection H as <- <- <- <-.
      eexists period, _, self0. repeat split; try eassumption; try reflexivity.
Qed.

(** C1: every sample of the sequence synthesize returns lies in the
        signed 16-bit range [-32768, 32767], whatever the parameter set, the
        f0 multiplier and the turbo setting. *)
Theorem synthesize_in_16_bit_range self parameters f0_multiplier turbo_ self' sounds :
      synthesize math_cos math_e_pow random_uniform self parameters f0_multiplier
        turbo_ = Ok (self', sounds) ->
      Forall in_range sounds.
Proof.
      unfold parwave.synthesize. intros H. bind_inv H.
      destruct a as [[[self1 buf] how] target].
      apply sample_run_inv in Hstep.
      destruct Hstep as (period & fr & self0 & _ & _ & _ & _ & _ & Hloop).
      apply sample_loop_range in Hloop; [|constructor].
      destruct how.
      - injection H as <- <-. exact Hloop.
      - bind_inv H. injection H as <- <-.
        eapply turbo_fill_range; eauto.
Qed.

(** C5: a turbo-mode call of synthesize whose target is T samples
        returns exactly T samples, and every sample at an index i at or
        beyond 2 * periodLength equals the sample at index
        i mod (2 * periodLength).  The period length (f0_hz) of a positive
        f0 multiplier is non-negative, and so is a target; the cyclic part
        is stated for a period of at least one sample. *)
Theorem turbo_output_length_and_period self parameters f0_multiplier self' sounds
            period target :
      period_length f0_multiplier = Ok period ->
      samples_target_of parameters = Ok target ->
      0 <= period -> 0 <= target ->
      synthesize math_cos math_e_pow random_uniform self parameters f0_multiplier
        true = Ok (self', sounds) ->
      len sounds = target
      /\ (1 <= period ->
          forall i, 2 * period <= i < target ->
                    item sounds i = item sounds (i mod (2 * period))).
Proof.
      intros Hperiod Htarget Hp Ht H.
      unfold parwave.synthesize in H. bind_inv H.
      destruct a as [[[self1 buf] how] target'].
      apply sample_run_inv in Hstep.
      destruct Hstep as (period' & fr & self0 & Hperiod' & Htarget' & Hf0 & _ & Hturbo & Hloop).
      rewrite Hperiod in Hperiod'. injection Hperiod' as <-.
      rewrite Htarget in Htarget'. injection Htarget' as <-.
      apply sample_loop_count in Hloop; [|lia|unfold len; simpl; lia].
      unfold breaks in Hloop. rewrite Hf0, Hturbo in Hloop.
      destruct how.
      - injection H as <- <-. destruct Hloop as [Hnot Hlen].
        split; [lia|].
        intros Hp1 i Hi. exfalso. apply Hnot.
        repeat split; lia.
      - bind_inv H. injection H as <- <-. destruct Hloop as [(_ & Hp1 & Hr) Hlen].
        apply turbo_fill_cyclic in Hstep; [|lia|lia].
        destruct Hstep as [Hlen' Hcyc]. split; [exact Hlen'|].
        intros _ i Hi.
        rewrite (Hcyc i) by lia.
        rewrite (Hcyc (i mod (2 * period))).
        + rewrite Hlen. f_equal. symmetry.
          rewrite (Z.mul_comm 2 period), Z.rem_mul_r by lia.
          rewrite (Z.mul_comm period), Z_mod_plus_full. apply Zmod_mod.
        + pose proof (Z.mod_pos_bound i (2 * period)). lia.
Qed.

(** C6, as the code has it: in turbo mode the sample loop stops as soon
        as exactly one period (periodLength = f0_hz samples) of post-warm-up
        output exists, which happens exactly when 1 <= periodLength <= target;
        the buffer handed to the tiling then holds exactly periodLength
        samples. *)
Theorem turbo_buffer_is_one_period self parameters f0_multiplier self' buf how
            period target :
      period_length f0_multiplier = Ok period ->
      sample_run math_cos math_e_pow random_uniform self parameters f0_multiplier
        true = Ok (self', buf, how, target) ->
      (how = Broke <-> 1 <= period <= target)
      /\ (how = Broke -> len buf = period).
Proof.
      intros Hperiod H.
      apply sample_run_inv in H.
      destruct H as (period' & fr & self0 & Hperiod' & _ & Hf0 & _ & Hturbo & Hloop).
      rewrite Hperiod in Hperiod'. injection Hperiod' as <-.
      apply sample_loop_count in Hloop; [|lia|].
      - unfold breaks in Hloop. rewrite Hf0, Hturbo in Hloop.
        destruct how; destruct Hloop as [Hb Hlen].
        + split; [|discriminate]. split; [discriminate|].
          intros Hr. exfalso. apply Hb. repeat split; lia.
        + split; [|intros _; exact Hlen]. split; [|reflexivity].
          intros _. lia.
      - rewrite Hf0. unfold len. simpl. lia.
Qed.

End Synthesize.


(** The sample vowel at the nominal pitch, in turbo mode. *)
Lemma synthesize_in_16_bit_range_example :
    exists self' sounds,
      synthesize Demo.math_cos Demo.math_e_pow Demo.random_uniform __init__
        Demo.a_sound (Float 1.0) true = Ok (self', sounds)
      /\ Forall in_range sounds.
Proof.
    eexists. eexists. split; [vm_compute; reflexivity|].
    eapply (synthesize_in_16_bit_range Demo.math_cos Demo.math_e_pow
              Demo.random_uniform __init__ Demo.a_sound (Float 1.0) true).
    vm_compute. reflexivity.
Defined.

(** The sample vowel (100 ms, 1000 samples) at a period of 80 samples. *)
Lemma turbo_output_length_and_period_example :
    period_length (Float 1.0) = Ok 80
    /\ samples_target_of Demo.a_sound = Ok 1000
    /\ 0 <= 80 /\ 0 <= 1000
    /\ exists self' sounds,
        synthesize Demo.math_cos Demo.math_e_pow Demo.random_uniform __init__
          Demo.a_sound (Float 1.0) true = Ok (self', sounds)
        /\ len sounds = 1000
        /\ (1 <= 80 ->
            forall i, 2 * 80 <= i < 1000 ->
                      item sounds i = item sounds (i mod (2 * 80))).
Proof.
    split; [reflexivity|]. split; [reflexivity|]. split; [lia|]. split; [lia|].
    eexists. eexists. split; [vm_compute; reflexivity|].
    eapply (turbo_output_length_and_period Demo.math_cos Demo.math_e_pow
              Demo.random_uniform __init__ Demo.a_sound (Float 1.0));
      [reflexivity | reflexivity | lia | lia | vm_compute; reflexivity].
Defined.

(** The same call: the loop breaks with a buffer of 80 samples. *)
Lemma turbo_buffer_is_one_period_example :
    period_length (Float 1.0) = Ok 80
    /\ exists self' buf how target,
        sample_run Demo.math_cos Demo.math_e_pow Demo.random_uniform __init__
          Demo.a_sound (Float 1.0) true = Ok (self', buf, how, target)
        /\ (how = Broke <-> 1 <= 80 <= target)
        /\ (how = Broke -> len buf = 80).
Proof.
    split; [reflexivity|].
    do 4 eexists. split; [vm_compute; reflexivity|].
    eapply (turbo_buffer_is_one_period Demo.math_cos Demo.math_e_pow
              Demo.random_uniform __init__ Demo.a_sound (Float 1.0));
      [reflexivity | vm_compute; reflexivity].
Defined.

(** C6 as stated fails: with a period of 80 samples the buffer that turbo
      mode tiles holds 80 samples when the loop breaks, not 160. *)
Lemma turbo_buffer_is_not_two_periods :
    exists self' buf target,
      sample_run Demo.math_cos Demo.math_e_pow Demo.random_uniform __init__
        Demo.a_sound (Float 1.0) true = Ok (self', buf, Broke, target)
      /\ period_length (Float 1.0) = Ok 80
      /\ len buf = 80
      /\ len buf <> 2 * 80.
Proof.
    do 3 eexists. split; [vm_compute; reflexivity|].
    split; [reflexivity|]. split; [reflexivity|]. discriminate.
Qed.

End ParwaveFacts.

Module SeqFacts.
Import Py.

Lemma getitem_0 {A : Type} (l : list A) (x : A) :
  getitem l 0 = Ok x -> exists rest, l = x :: rest.
Proof.
  unfold getitem. simpl. destruct l as [|y rest]; simpl; [discriminate|].
  intros H. injection H as <-. eauto.
Qed.

Lemma setitem_0 {A : Type} (x y : A) (rest : list A) :
  setitem (x :: rest) 0 y = Ok (y :: rest).
Proof.
  unfold setitem. simpl.
  replace (len (x :: rest) <=? 0) with false; [reflexivity|].
  symmetry. apply Z.leb_gt. unfold len. simpl. lia.
Qed.

Lemma nth_error_last {A : Type} (l : list A) (x : A) :
  nth_error l (length l - 1) = Some x -> exists body, l = body ++ [x].
Proof.
  induction l as [|y l IH]; simpl; [discriminate|].
  destruct l as [|z l'].
  - simpl. intros H. injection H as <-. exists []. reflexivity.
  - simpl in *. rewrite Nat.sub_0_r in IH. intros H.
    destruct (IH H) as [body Hbody]. exists (y :: body). rewrite Hbody. reflexivity.
Qed.

Lemma getitem_last {A : Type} (l : list A) (x : A) :
  getitem l (-1) = Ok x -> exists body, l = body ++ [x].
Proof.
  unfold getitem. simpl.
  destruct (len l + -1 <? 0) eqn:Hneg; [discriminate|].
  apply Z.ltb_ge in Hneg.
  destruct (nth_error l (Z.to_nat (len l + -1))) as [y|] eqn:Hnth; [|discriminate].
  intros H. injection H as <-.
  apply nth_error_last. unfold len in *.
  replace (length l - 1)%nat with (Z.to_nat (Z.of_nat (length l) + -1)) by lia.
  exact Hnth.
Qed.

Lemma getitem_last_app {A : Type} (body : list A) (x : A) :
  getitem (body ++ [x]) (-1) = Ok x.
Proof.
  unfold getitem. simpl. rewrite PyFacts.len_app.
  replace (len body + len [x] + -1) with (len body) by (unfold len; simpl; lia).
  replace (len body <? 0) with false
    by (symmetry; apply Z.ltb_ge; apply PyFacts.len_nonneg).
  unfold len. rewrite Nat2Z.id, nth_error_app2 by lia.
  rewrite Nat.sub_diag. reflexivity.
Qed.

Lemma replace_nth_last {A : Type} (body : list A) (x y : A) :
  replace_nth (body ++ [x]) (length body) y = body ++ [y].
Proof. induction body as [|z body IH]; simpl; [reflexivity|]. rewrite IH. reflexivity. Qed.

Lemma setitem_last {A : Type} (body : list A) (x y : A) :
  setitem (body ++ [x]) (-1) y = Ok (body ++ [y]).
Proof.
  unfold setitem. simpl. rewrite PyFacts.len_app.
  replace (len body + len [x] + -1) with (len body) by (unfold len; simpl; lia).
  replace (len body <? 0) with false
    by (symmetry; apply Z.ltb_ge; apply PyFacts.len_nonneg).
  replace (len body + len [x] <=? len body) with false
    by (symmetry; apply Z.leb_gt; unfold len; simpl; lia).
  simpl. unfold len. rewrite Nat2Z.id. rewrite replace_nth_last. reflexivity.
Qed.

Lemma max_5_Int (d : Z) : max (Int 5) (Int (d - 15)) = Int (Z.max 5 (d - 15)).
Proof.
  unfold max, gt. destruct (5 <? d - 15) eqn:H.
  - apply Z.ltb_lt in H. f_equal. lia.
  - apply Z.ltb_ge in H. f_equal. lia.
Qed.

Lemma lookup_Ok {K V : Type} (d : K -> option V) (k : K) (v : V) :
  lookup d k = Ok v -> d k = Some v.
Proof. unfold lookup. destruct (d k); intros H; [injection H as <-; reflexivity|discriminate]. Qed.

End SeqFacts.

(** ** Universal rules *)

Module UniversalRulesFacts.
Import Py universal_rules Spec.

Lemma all_below_spec (n : nat) (f : Z -> bool) :
  all_below n f = true -> forall d, 0 <= d < Z.of_nat n -> f d = true.
Proof.
  induction n as [|n IH]; simpl; intros H d Hd; [lia|].
  apply andb_prop in H. destruct H as [Hn Hrest].
  destruct (Z.eq_dec d (Z.of_nat n)) as [->|Hne]; [exact Hn|].
  apply IH; [exact Hrest | lia].
Qed.

Lemma nasal_durations_checked :
  all_below (Z.to_nat 5001) nasal_durations_close = true.
Proof. vm_compute. reflexivity. Qed.

(** For whole durations up to five seconds the three truncated shares sum to
    the original duration less 0, 1 or 2 milliseconds. *)
Lemma nasal_durations_sum (d half sixth third : Z) :
  0 <= d <= 5000 ->
  share (Int d) 0.5 = Ok half ->
  share (Int d) 0.167 = Ok sixth ->
  share (Int d) 0.333 = Ok third ->
  d - 2 <= half + sixth + third <= d.
Proof.
  intros Hd Hh Hs Ht.
  pose proof (all_below_spec _ _ nasal_durations_checked d) as H.
  assert (Hd' : 0 <= d < Z.of_nat (Z.to_nat 5001)) by lia.
  specialize (H Hd').
  unfold nasal_durations_close, nasal_durations in H.
  rewrite Hh, Hs, Ht in H. simpl in H.
  apply andb_prop in H. destruct H as [H1 H2].
  apply Z.leb_le in H1. apply Z.leb_le in H2. lia.
Qed.

(** The blends of the code, field by field. *)
Lemma blend_2_1_blended (values : list (num * num)) :
  forall out,
    blend_2_1 values = Ok out ->
    Forall2 (fun pair o => two_to_one (fst pair) (snd pair) o) values out.
Proof.
  unfold blend_2_1.
  induction values as [|[x y] values IH]; intros out H; cbn [mapM] in H.
  - injection H as <-. constructor.
  - bind_inv H. rename a into o. bind_inv H. rename a into rest.
    injection H as <-. constructor; [|apply IH; exact Hstep0].
    clear - Hstep. cbn [fst snd]. bind_inv Hstep. rename a into doubled.
    bind_inv Hstep. rename a into sum.
    destruct x as [a|fx], y as [b|fy]; cbn [two_to_one];
      try (exists doubled, sum; repeat split; assumption).
    cbn in Hstep0. injection Hstep0 as <-. cbn in Hstep1. injection Hstep1 as <-.
    cbn in Hstep. injection Hstep as <-. do 2 f_equal. lia.
Qed.

Lemma blend_1_2_blended (values : list (num * num)) :
  forall out,
    blend_1_2 values = Ok out ->
    Forall2 (fun pair o => one_to_two (fst pair) (snd pair) o) values out.
Proof.
  unfold blend_1_2.
  induction values as [|[x y] values IH]; intros out H; cbn [mapM] in H.
  - injection H as <-. constructor.
  - bind_inv H. rename a into o. bind_inv H. rename a into rest.
    injection H as <-. constructor; [|apply IH; exact Hstep0].
    clear - Hstep. cbn [fst snd]. bind_inv Hstep. rename a into doubled.
    bind_inv Hstep. rename a into sum.
    destruct x as [a|fx], y as [b|fy]; cbn [one_to_two];
      try (exists doubled, sum; repeat split; assumption).
    cbn in Hstep0. injection Hstep0 as <-. cbn in Hstep1. injection Hstep1 as <-.
    cbn in Hstep. injection Hstep as <-. do 2 f_equal. lia.
Qed.

Section Rules.
Variable IPA : ipa.module.

Lemma fixed_sound_fields symbol milliseconds sound :
  fixed_sound IPA symbol milliseconds = Ok sound ->
  exists values,
    ipa.IPA_PARAMETERS IPA symbol = Some values
    /\ sound = slice_to values 32 ++ [Int milliseconds].
Proof.
  unfold fixed_sound. intros H. bind_inv H. rename a into values.
  injection H as <-. exists values.
  split; [apply SeqFacts.lookup_Ok; exact Hstep|reflexivity].
Qed.

(** C2, as the code has it: a vowel that is not itself nasal and is directly
    followed by a nasal has its base frame replaced by exactly three frames:
    the vowel's fields at int(0.5 d), the 2:1 vowel:nasal blend at
    int(0.167 d) and the 1:2 blend at int(0.333 d), d being the original
    duration.  Each share is truncated on its own, so the three need not sum
    to d: for whole d up to 5000 ms their sum is d, d - 1 or d - 2. *)
Theorem nasalizeVowel_three_frames ipa_character following others vowel rest out :
  ipa.VOWELS IPA ipa_character = true ->
  ipa.NASALS IPA ipa_character = false ->
  ipa.NASALS IPA following = true ->
  nasalizeVowel IPA ipa_character (following :: others) (vowel :: rest) = Ok out ->
  split_in_three IPA following vowel rest out.
Proof.
  intros Hvowel Hnot_nasal Hnasal H.
  unfold nasalizeVowel in H. rewrite Hnasal, Hvowel, Hnot_nasal in H. simpl in H.
  bind_inv H. rename a into duration, Hstep into Hduration.
  bind_inv H. rename a into nasal, Hstep into Hnasal_values.
  bind_inv H. rename a into half, Hstep into Hhalf.
  bind_inv H. rename a into lead_in, Hstep into Hlead_in.
  bind_inv H. rename a into sixth, Hstep into Hsixth.
  bind_inv H. rename a into lead_out, Hstep into Hlead_out.
  bind_inv H. rename a into third, Hstep into Hthird.
  injection H as <-.
  exists nasal, duration, half, sixth, third, lead_in, lead_out.
  split; [apply SeqFacts.lookup_Ok; exact Hnasal_values|].
  split; [exact Hduration|].
  split; [exact Hhalf|]. split; [exact Hsixth|]. split; [exact Hthird|].
  split; [apply blend_2_1_blended; exact Hlead_in|].
  split; [apply blend_1_2_blended; exact Hlead_out|].
  split; [reflexivity|].
  intros d -> Hd.
  apply (nasal_durations_sum d half sixth third Hd);
    [exact Hhalf|exact Hsixth|exact Hthird].
Qed.

Lemma trimmed_by_15_intro edge duration trimmed :
  getitem edge 32 = Ok duration ->
  sub duration (Int 15) = Ok trimmed ->
  trimmed_by_15 edge (slice_to edge 32 ++ [max (Int 5) trimmed]).
Proof.
  intros Hd Ht. exists duration, trimmed.
  repeat (split; [assumption|]). split; [|reflexivity].
  intros d ->. simpl in Ht. injection Ht as <-. apply SeqFacts.max_5_Int.
Qed.

(** What the lead half of shapeContours does. *)
Lemma shape_lead_spec ipa_character preceding parameters_list mid :
  shape_lead IPA ipa_character preceding parameters_list = Ok mid ->
  lead_shaped IPA ipa_character preceding parameters_list mid.
Proof.
  unfold shape_lead, lead_shaped. intros H.
  destruct preceding as [|first_preceding preceding'].
  { injection H as <-. reflexivity. }
  bind_inv H. rename a into lead.
  destruct (SeqFacts.getitem_0 _ _ Hstep) as [rest ->].
  bind_inv H. rename a into duration, Hstep0 into Hduration.
  bind_inv H. rename a into trimmed, Hstep0 into Htrimmed.
  rewrite SeqFacts.setitem_0 in H. cbn [bind] in H.
  exists lead, rest, (slice_to lead 32 ++ [max (Int 5) trimmed]).
  unfold transition_15.
  destruct (ipa.STOPS IPA ipa_character); cbn [negb] in H.
  - bind_inv H. injection H as <-. exists a.
    split; [reflexivity|]. split; [eapply trimmed_by_15_intro; eauto|].
    split; [apply fixed_sound_fields; assumption|reflexivity].
  - bind_inv H. rename a into previous.
    bind_inv H. rename a into neighbour.
    bind_inv H. rename a into values. injection H as <-.
    exists (values ++ [Int 15]).
    split; [reflexivity|]. split; [eapply trimmed_by_15_intro; eauto|].
    split; [|reflexivity].
    exists neighbour, values.
    split; [|split; [apply blend_2_1_blended; assumption|reflexivity]].
    apply SeqFacts.lookup_Ok.
    destruct (SeqFacts.getitem_last _ _ Hstep0) as [body Hbody].
    rewrite Hbody, last_last. exact Hstep1.
Qed.

(** What the tail half of shapeContours does. *)
Lemma shape_tail_spec ipa_character following mid out :
  shape_tail IPA ipa_character following mid = Ok out ->
  tail_shaped IPA ipa_character following mid out.
Proof.
  unfold shape_tail, tail_shaped. intros H.
  destruct following as [|follower others].
  { injection H as <-. reflexivity. }
  destruct (ipa.VOWELS IPA ipa_character && ipa.NASALS IPA follower).
  { injection H as <-. reflexivity. }
  bind_inv H. rename a into tail.
  destruct (SeqFacts.getitem_last _ _ Hstep) as [body ->].
  bind_inv H. rename a into duration, Hstep0 into Hduration.
  bind_inv H. rename a into trimmed, Hstep0 into Htrimmed.
  rewrite SeqFacts.setitem_last in H. cbn [bind] in H.
  exists body, tail, (slice_to tail 32 ++ [max (Int 5) trimmed]).
  unfold transition_15.
  destruct (ipa.STOPS IPA follower); cbn [negb] in H.
  - bind_inv H. injection H as <-. exists a.
    split; [reflexivity|]. split; [eapply trimmed_by_15_intro; eauto|].
    split; [apply fixed_sound_fields; assumption|].
    rewrite <- app_assoc. reflexivity.
  - bind_inv H. rename a into neighbour.
    bind_inv H. rename a into values. injection H as <-.
    exists (values ++ [Int 15]).
    split; [reflexivity|]. split; [eapply trimmed_by_15_intro; eauto|].
    split; [|rewrite <- app_assoc; reflexivity].
    exists neighbour, values.
    split; [|split; [apply blend_2_1_blended; assumption|reflexivity]].
    apply SeqFacts.lookup_Ok. exact Hstep0.
Qed.

(** C8: when a phoneme precedes in the word, shapeContours trims 15 ms off
    the lead frame (never below 5 ms) and puts before it a 15 ms frame: the
    2:1 blend of the lead frame's and the preceding phoneme's fields, or the
    fixed glottal-stop frame when the current phoneme is a stop.  When a
    phoneme follows, it trims the tail frame likewise and appends a 15 ms
    frame: the 2:1 blend toward the follower, or the fixed h frame when the
    follower is a stop; a vowel directly followed by a nasal gets no tail
    shaping at all. *)
Theorem shapeContours_edges ipa_character preceding following parameters_list out :
  shapeContours IPA ipa_character preceding following parameters_list = Ok out ->
  exists mid,
    lead_shaped IPA ipa_character preceding parameters_list mid
    /\ tail_shaped IPA ipa_character following mid out.
Proof.
  unfold shapeContours. intros H. bind_inv H. rename a into mid.
  exists mid. split; [apply shape_lead_spec | apply shape_tail_spec]; assumption.
Qed.

(** C3, at the inputs where the code departs from the claim: for a
    word-initial vowel whose previous word ends in a vowel, bridgeWords
    places the single 50 ms h frame after the frames of the current phoneme,
    at the end of the list, and not before them. *)
Theorem bridgeWords_pause_goes_last ipa_character following words word last_char
        parameters_list pause :
  ipa.VOWELS IPA ipa_character = true ->
  ipa.VOWELS IPA [last_char] = true ->
  fixed_sound IPA (u "h") 50 = Ok pause ->
  bridgeWords IPA ipa_character [] following (words ++ [word ++ [last_char]])
    parameters_list = Ok (parameters_list ++ [pause]).
Proof.
  intros Hvowel Hlast Hpause. unfold bridgeWords. rewrite Hvowel. cbn [negb].
  destruct (words ++ [word ++ [last_char]]) as [|w ws] eqn:Hwords.
  - destruct words; discriminate.
  - rewrite <- Hwords. rewrite SeqFacts.getitem_last_app. cbn [bind].
    rewrite SeqFacts.getitem_last_app. cbn [bind].
    rewrite Hlast, Hpause. reflexivity.
Qed.

(** The consonant branch of bridgeWords: one 50 ms frame, the field-wise
    average of the first frame and the consonant's table entry, goes first. *)
Lemma bridgeWords_average_goes_first ipa_character following words word last_char
      first rest consonant sound :
  ipa.VOWELS IPA ipa_character = true ->
  ipa.VOWELS IPA [last_char] = false ->
  ipa.IPA_PARAMETERS IPA [last_char] = Some consonant ->
  average (combine (slice_to first 32) consonant) = Ok sound ->
  bridgeWords IPA ipa_character [] following (words ++ [word ++ [last_char]])
    (first :: rest) = Ok ((sound ++ [Int 50]) :: first :: rest).
Proof.
  intros Hvowel Hlast Hconsonant Hsound. unfold bridgeWords. rewrite Hvowel. cbn [negb].
  destruct (words ++ [word ++ [last_char]]) as [|w ws] eqn:Hwords.
  - destruct words; discriminate.
  - rewrite <- Hwords. rewrite SeqFacts.getitem_last_app. cbn [bind].
    rewrite SeqFacts.getitem_last_app. cbn [bind].
    rewrite Hlast.
    change (getitem (first :: rest) 0) with (Ok first).
    change (slice_to [last_char] 32) with [last_char].
    unfold lookup. rewrite Hconsonant. cbn [bind]. rewrite Hsound. reflexivity.
Qed.

End Rules.

(** The vowel of the sample inventory before a nasal: 100 ms become
    50 + 16 + 33, and the first formant, 700 Hz in the vowel and 480 Hz in
    the nasal, becomes 626 Hz in the 2:1 blend and 553 Hz in the 1:2
    blend. *)
Lemma nasalizeVowel_three_frames_example :
  ipa.VOWELS Demo.IPA (u "a") = true
  /\ ipa.NASALS Demo.IPA (u "a") = false
  /\ ipa.NASALS Demo.IPA (u "n") = true
  /\ exists out,
      nasalizeVowel Demo.IPA (u "a") [u "n"] [Demo.a_sound] = Ok out
      /\ map (fun frame => (nth 5 frame (Int 0), nth 32 frame (Int 0))) out
         = [(Int 700, Int 50); (Int 626, Int 16); (Int 553, Int 33)]
      /\ split_in_three Demo.IPA (u "n") Demo.a_sound [] out.
Proof.
  split; [reflexivity|]. split; [reflexivity|]. split; [reflexivity|].
  eexists. split; [vm_compute; reflexivity|]. split; [reflexivity|].
  apply (nasalizeVowel_three_frames Demo.IPA (u "a") (u "n") [] Demo.a_sound []);
    vm_compute; reflexivity.
Defined.

(** C2 as stated fails: the three frames of a 100 ms vowel last 50, 16 and
    33 ms, which sum to 99 and not to 100. *)
Lemma nasalizeVowel_durations_fall_short :
  exists vowel lead_in lead_out,
    nasalizeVowel Demo.IPA (u "a") [u "n"] [Demo.a_sound]
    = Ok [vowel; lead_in; lead_out]
    /\ getitem Demo.a_sound 32 = Ok (Int 100)
    /\ getitem vowel 32 = Ok (Int 50)
    /\ getitem lead_in 32 = Ok (Int 16)
    /\ getitem lead_out 32 = Ok (Int 33)
    /\ 50 + 16 + 33 <> 100.
Proof.
  do 3 eexists. split; [vm_compute; reflexivity|].
  repeat split; try reflexivity. discriminate.
Qed.

(** The sample stop of 25 ms between two vowels: the fixed glottal-stop
    frame goes before it, its own frame is trimmed at both ends down to
    5 ms, and the 2:1 blend with the following vowel goes after it, the
    first formant of 400 Hz in the stop and 310 Hz in the vowel becoming
    370 Hz. *)
Lemma shapeContours_edges_example :
  exists out,
    shapeContours Demo.IPA (u "t") [u "a"] [u "i"] [Demo.t_sound] = Ok out
    /\ firstn 2 out
       = [slice_to Demo.glottal_sound 32 ++ [Int 15];
          slice_to Demo.t_sound 32 ++ [Int 5]]
    /\ map (fun frame => (nth 5 frame (Int 0), nth 32 frame (Int 0))) (skipn 2 out)
       = [(Int 370, Int 15)]
    /\ exists mid,
        lead_shaped Demo.IPA (u "t") [u "a"] [Demo.t_sound] mid
        /\ tail_shaped Demo.IPA (u "t") [u "i"] mid out.
Proof.
  eexists. split; [vm_compute; reflexivity|]. split; [reflexivity|].
  split; [reflexivity|].
  apply (shapeContours_edges Demo.IPA (u "t") [u "a"] [u "i"] [Demo.t_sound]).
  vm_compute. reflexivity.
Defined.

(** The sample vowel opening a word after a word that ends in a vowel. *)
Lemma bridgeWords_pause_goes_last_example :
  ipa.VOWELS Demo.IPA (u "a") = true
  /\ ipa.VOWELS Demo.IPA [97%N] = true
  /\ fixed_sound Demo.IPA (u "h") 50 = Ok (slice_to Demo.h_sound 32 ++ [Int 50])
  /\ bridgeWords Demo.IPA (u "a") [] [u "n"] ([] ++ [u "t" ++ [97%N]]) [Demo.a_sound]
     = Ok ([Demo.a_sound] ++ [slice_to Demo.h_sound 32 ++ [Int 50]]).
Proof.
  split; [reflexivity|]. split; [reflexivity|]. split; [reflexivity|].
  apply (bridgeWords_pause_goes_last Demo.IPA (u "a") [u "n"] [] (u "t") 97%N
           [Demo.a_sound]); reflexivity.
Defined.

End UniversalRulesFacts.

(** ** The rule chain *)

Module LanguageRulesFacts.
Import Py universal_rules language_rules Spec.

Lemma appends_latest_first_cons (o : outcome) (os : list outcome) :
  appends_latest_first (o :: os) = appends_latest_first os ++ following_params o.
Proof.
  unfold appends_latest_first. simpl.
  rewrite map_app, concat_app. simpl. rewrite app_nil_r. reflexivity.
Qed.

Lemma last_cons {A : Type} (x : A) (l : list A) (d d' : A) :
  last (x :: l) d = last (x :: l) d'.
Proof.
  revert x. induction l as [|y l IH]; intros x; [reflexivity|].
  simpl in *. apply IH.
Qed.

(** The inner loop hands back the rules' insertions nested around the
    current parameter-set. *)
Lemma run_rules_outcomes (rule_functions : list rule) :
  forall ctx transformed remaining parameters_ f0 pre post parameters' f0' pre' post',
    run_rules rule_functions ctx transformed remaining parameters_ f0 pre post
    = Ok (parameters', f0', pre', post') ->
    exists os,
      rule_outcomes rule_functions ctx transformed remaining parameters_ pre post
      = Ok os
      /\ length os = length rule_functions
      /\ pre' = pre ++ prepends os
      /\ post' = appends_latest_first os ++ post
      /\ parameters' = last (map modified os) parameters_.
Proof.
  induction rule_functions as [|function rest IH];
    intros ctx transformed remaining parameters_ f0 pre post
           parameters' f0' pre' post' H; simpl in H.
  - injection H as <- <- <- <-. exists []. simpl.
    rewrite app_nil_r. repeat split; reflexivity.
  - bind_inv H. rename a into o. bind_inv H. rename a into f1.
    apply IH in H. destruct H as (os & Hos & Hlen & Hpre & Hpost & Hmod).
    exists (o :: os). simpl. rewrite Hstep. simpl. rewrite Hos. simpl.
    split; [reflexivity|]. split; [congruence|].
    split; [rewrite Hpre; unfold prepends; simpl; rewrite app_assoc; reflexivity|].
    split; [rewrite Hpost, appends_latest_first_cons, app_assoc; reflexivity|].
    rewrite Hmod. destruct os as [|o0 os']; [reflexivity|].
    change (map modified (o :: o0 :: os')) with (modified o :: map modified (o0 :: os')).
    simpl map. change (last (modified o :: modified o0 :: map modified os') parameters_)
      with (last (modified o0 :: map modified os') parameters_).
    apply last_cons.
Qed.

(** C4, as the code has it: for each parameter-set the rule chain processes,
    the block it emits is the rules' prepends in rule order, the
    parameter-set, then the rules' appends in reverse rule order.  A later
    rule's prepends therefore sit nearer the current parameter-set than an
    earlier rule's, and so do a later rule's appends. *)
Theorem rule_insertions_nest rule_functions ctx count i parameters_ rest
        transformed f0_multipliers outcome_ :
  each_parameters rule_functions ctx count i (parameters_ :: rest)
    transformed f0_multipliers = Ok outcome_ ->
  exists os parameters' f0,
    rule_outcomes rule_functions ctx transformed (count - i) parameters_ [] []
    = Ok os
    /\ length os = length rule_functions
    /\ parameters' = last (map modified os) parameters_
    /\ each_parameters rule_functions ctx count (i + 1) rest
         (transformed ++ prepends os ++ [parameters'] ++ appends_latest_first os)
         (f0_multipliers
          ++ times f0 (len (prepends os) + 1 + len (appends_latest_first os)))
       = Ok outcome_.
Proof.
  intros H. simpl in H. bind_inv H.
  destruct a as [[[parameters' f0] pre] post].
  apply run_rules_outcomes in Hstep.
  destruct Hstep as (os & Hos & Hlen & Hpre & Hpost & Hmod).
  simpl in Hpre. rewrite app_nil_r in Hpost. subst pre post.
  exists os, parameters', f0. repeat split; assumption.
Qed.

(** Two prepending and two appending rules around the sample vowel. *)
Lemma rule_insertions_nest_example :
  exists outcome_,
    applyRules [Demo.prepend_rule Demo.t_sound; Demo.append_rule Demo.h_sound;
                Demo.prepend_rule Demo.i_sound; Demo.append_rule Demo.n_sound]
      (Demo.lone_context (u "a")) [Demo.a_sound] = Ok outcome_
    /\ fst outcome_ = [Demo.t_sound; Demo.i_sound; Demo.a_sound;
                       Demo.n_sound; Demo.h_sound]
    /\ exists os parameters' f0,
        rule_outcomes
          [Demo.prepend_rule Demo.t_sound; Demo.append_rule Demo.h_sound;
           Demo.prepend_rule Demo.i_sound; Demo.append_rule Demo.n_sound]
          (Demo.lone_context (u "a")) [] (0 - 0) Demo.a_sound [] [] = Ok os
        /\ length os = 4%nat
        /\ parameters' = last (map modified os) Demo.a_sound
        /\ each_parameters
             [Demo.prepend_rule Demo.t_sound; Demo.append_rule Demo.h_sound;
              Demo.prepend_rule Demo.i_sound; Demo.append_rule Demo.n_sound]
             (Demo.lone_context (u "a")) 0 (0 + 1) []
             ([] ++ prepends os ++ [parameters'] ++ appends_latest_first os)
             ([] ++ times f0 (len (prepends os) + 1 + len (appends_latest_first os)))
           = Ok outcome_.
Proof.
  eexists. split; [vm_compute; reflexivity|]. split; [reflexivity|].
  apply (rule_insertions_nest
           [Demo.prepend_rule Demo.t_sound; Demo.append_rule Demo.h_sound;
            Demo.prepend_rule Demo.i_sound; Demo.append_rule Demo.n_sound]
           (Demo.lone_context (u "a")) 0 0 Demo.a_sound [] [] []).
  vm_compute. reflexivity.
Defined.

(** C4 as stated fails: of two rules that each append one parameter-set, the
    later rule's ends up next to the current parameter-set and the earlier
    rule's after it, not the other way round. *)
Lemma later_append_sits_nearer :
  exists f0_multipliers,
    applyRules [Demo.append_rule Demo.h_sound; Demo.append_rule Demo.n_sound]
      (Demo.lone_context (u "a")) [Demo.a_sound]
    = Ok ([Demo.a_sound; Demo.n_sound; Demo.h_sound], f0_multipliers)
    /\ [Demo.a_sound; Demo.n_sound; Demo.h_sound]
       <> [Demo.a_sound; Demo.h_sound; Demo.n_sound].
Proof.
  eexists. split; [vm_compute; reflexivity|]. discriminate.
Qed.

End LanguageRulesFacts.

(** ** Tokens, sentences and paragraphs *)

Module TransformFacts.
Import Py universal_rules transform Spec.

Section Parser.
Variable IPA : ipa.module.
Variables (bad : unicode) (after : list unicode).
Hypothesis bad_fails : _WORD_REGEXP IPA bad = None.

(** One call of the word loop on a queue whose first malformed token comes
    after [before]: either no token of [before] ends the sentence and the
    loop fails at the malformed token, or it returns at the first token that
    does, leaving the malformed token in the queue. *)
Lemma extract_words_malformed (before : list unicode) :
  forallb (well_formed IPA) before = true ->
  forall sentence_number words markup quotation emphasis,
    (extract_words IPA (before ++ bad :: after) sentence_number words markup
       quotation emphasis
     = Raise (InvalidCharacter (len words + len before + 1) sentence_number)
     /\ forall s w, position_after IPA before s w = (s, w + len before))
    \/ (exists sentence_ rest,
           extract_words IPA (before ++ bad :: after) sentence_number words markup
             quotation emphasis = Ok (sentence_, rest ++ bad :: after)
           /\ (length rest < length before)%nat
           /\ forallb (well_formed IPA) rest = true
           /\ forall s w, position_after IPA before s w
                          = position_after IPA rest (s + 1) 1).
Proof.
  induction before as [|token before IH]; intros Hwf sentence_number words markup
    quotation emphasis.
  - left. simpl. rewrite bad_fails. split; [|intros s w; f_equal; unfold len; simpl; lia].
    do 2 f_equal. unfold len. simpl. lia.
  - simpl in Hwf. apply andb_prop in Hwf. destruct Hwf as [Htoken Hwf].
    unfold well_formed in Htoken.
    simpl app. cbn [extract_words position_after]. unfold ends_sentence.
    destruct (_WORD_REGEXP IPA token) as [[[group1 group2] group3]|]; [|discriminate].
    destruct (contains group3 c_period) eqn:Hperiod.
    { right. eexists. exists before. cbn [orb].
      split; [reflexivity|]. split; [simpl; lia|]. split; [exact Hwf|reflexivity]. }
    destruct (contains group3 c_question) eqn:Hquestion.
    { right. eexists. exists before. cbn [orb].
      split; [reflexivity|]. split; [simpl; lia|]. split; [exact Hwf|reflexivity]. }
    destruct (contains group3 c_exclamation) eqn:Hexclamation.
    { right. eexists. exists before. cbn [orb].
      split; [reflexivity|]. split; [simpl; lia|]. split; [exact Hwf|reflexivity]. }
    cbn [orb].
    match goal with
    | |- context [extract_words IPA _ ?sn ?ws ?mk ?q ?e] =>
        destruct (IH Hwf sn ws mk q e) as [[Hraise Hpos]|(s_ & rest & Hok & Hlt & Hrest & Hpos)]
    end.
    + left. rewrite Hraise. split.
      * do 2 f_equal. rewrite PyFacts.len_app. unfold len. simpl. lia.
      * intros s w. rewrite Hpos. f_equal. unfold len. simpl. lia.
    + right. exists s_, rest. rewrite Hok.
      split; [reflexivity|]. split; [simpl; lia|]. split; [exact Hrest|].
      intros s w. apply Hpos.
Qed.

(** The sentence loop fails at the first malformed token, naming its
    position. *)
Lemma extract_sentences_malformed (fuel : nat) :
  forall before sentences,
    (length before < fuel)%nat ->
    forallb (well_formed IPA) before = true ->
    extract_sentences IPA fuel (before ++ bad :: after) sentences
    = Raise (InvalidCharacter
               (snd (position_after IPA before (len sentences + 1) 1))
               (fst (position_after IPA before (len sentences + 1) 1))).
Proof.
  induction fuel as [|fuel IH]; intros before sentences Hfuel Hwf; [lia|].
  simpl. destruct (before ++ bad :: after) as [|first queue] eqn:Hqueue.
  { destruct before; discriminate. }
  rewrite <- Hqueue. unfold _extractSentence.
  destruct (extract_words_malformed before Hwf (len sentences + 1) [] [] false false)
    as [[Hraise Hpos]|(sentence_ & rest & Hok & Hlt & Hrest & Hpos)].
  - rewrite Hraise, Hpos. cbn [bind fst snd].
    change (len (@nil word)) with 0.
    replace (0 + len before + 1) with (1 + len before) by lia.
    reflexivity.
  - rewrite Hok. simpl. rewrite IH by (auto; lia).
    rewrite Hpos, PyFacts.len_app. reflexivity.
Qed.

End Parser.

Section Orchestration.
Variable IPA : ipa.module.
Variable RULE_FUNCTIONS : list language_rules.rule.
Variable math_cos : float -> result float.
Variable math_e_pow : float -> result float.
Variable random_uniform : nat -> float.

(** C9: when a token of the paragraph fails the token grammar, sentence
    extraction fails at the first such token with the error that names its
    word number within its sentence and its sentence number within the
    paragraph, both counted from 1; the error leaves paragraphToSound as it
    is, so no sentence list and no sound is produced for the paragraph. *)
Theorem malformed_token_is_fatal paragraph opts synthesizer before bad after :
  split paragraph = before ++ bad :: after ->
  forallb (well_formed IPA) before = true ->
  _WORD_REGEXP IPA bad = None ->
  extract_sentences IPA (length (split paragraph)) (split paragraph) []
  = Raise (InvalidCharacter (snd (position_after IPA before 1 1))
                            (fst (position_after IPA before 1 1)))
  /\ paragraphToSound IPA RULE_FUNCTIONS math_cos math_e_pow random_uniform
       paragraph opts synthesizer
     = Raise (InvalidCharacter (snd (position_after IPA before 1 1))
                               (fst (position_after IPA before 1 1))).
Proof.
  intros Hsplit Hwf Hbad.
  assert (Hloop : extract_sentences IPA (length (split paragraph)) (split paragraph) []
                  = Raise (InvalidCharacter (snd (position_after IPA before 1 1))
                                            (fst (position_after IPA before 1 1)))).
  { rewrite Hsplit.
    apply (extract_sentences_malformed IPA bad after Hbad); [|exact Hwf].
    rewrite length_app. simpl. lia. }
  split; [exact Hloop|].
  unfold paragraphToSound. rewrite Hloop. reflexivity.
Qed.

Lemma sentences_to_sound_alternates (todo : list sentence) :
  forall i total silence opts synthesizer sounds synthesizer' segments,
    sentences_to_sound IPA RULE_FUNCTIONS math_cos math_e_pow random_uniform
      i todo total silence opts synthesizer sounds = Ok (synthesizer', segments) ->
    exists audios,
      Forall2 (rendered IPA RULE_FUNCTIONS math_cos math_e_pow random_uniform opts) todo audios
      /\ segments = sounds ++ flat_map (fun audio => [audio; silence]) audios.
Proof.
  induction todo as [|sentence_ todo IH];
    intros i total silence opts synthesizer sounds synthesizer' segments H;
    simpl in H.
  - injection H as <- <-. exists []. split; [constructor|].
    simpl. rewrite app_nil_r. reflexivity.
  - bind_inv H. destruct a as [synthesizer1 samples].
    apply IH in H. destruct H as (audios & Hall & Hsegments).
    exists (samples :: audios). split.
    + constructor; [|exact Hall].
      exists (i + 1), (total - i - 1), synthesizer, synthesizer1. exact Hstep.
    + rewrite Hsegments. simpl. rewrite <- app_assoc. reflexivity.
Qed.

(** C10: for a paragraph that parses into S sentences, paragraphToSound
    returns exactly 2 * S segments: the audio of each sentence in turn, each
    followed by a segment of 5000 zero samples, so that half a second of
    silence follows the last sentence as well. *)
Theorem paragraph_segments_alternate paragraph opts synthesizer synthesizer' segments :
  paragraphToSound IPA RULE_FUNCTIONS math_cos math_e_pow random_uniform
    paragraph opts synthesizer = Ok (synthesizer', segments) ->
  exists sentences audios,
    extract_sentences IPA (length (split paragraph)) (split paragraph) []
    = Ok sentences
    /\ Forall2 (rendered IPA RULE_FUNCTIONS math_cos math_e_pow random_uniform opts) sentences audios
    /\ alternates audios segments
    /\ len segments = 2 * len sentences.
Proof.
  unfold paragraphToSound. intros H.
  bind_inv H. rename a into sentences.
  change (parwave.generateSilence synthesizer (Int 500))
    with (Ok (parwave.set_noise synthesizer 0%float (parwave.rng_calls synthesizer),
              half_second)) in H.
  cbn [bind] in H.
  apply sentences_to_sound_alternates in H.
  destruct H as (audios & Hall & Hsegments). simpl in Hsegments.
  exists sentences, audios. split; [exact Hstep|]. split; [exact Hall|].
  split; [exact Hsegments|].
  rewrite Hsegments. apply Forall2_length in Hall. unfold len. rewrite Hall.
  assert (Hcount : length (flat_map (fun audio => [audio; half_second]) audios)
                   = (2 * length audios)%nat).
  { clear. induction audios as [|audio audios IH]; [reflexivity|].
    cbn [flat_map app length]. rewrite IH. lia. }
  rewrite Hcount. lia.
Qed.

End Orchestration.


(** A bare question mark as fourth token: word 2 of sentence 2. *)
Lemma malformed_token_is_fatal_example :
  split (u "an ta. ni ? a") = [u "an"; u "ta."; u "ni"] ++ u "?" :: [u "a"]
  /\ forallb (well_formed Demo.IPA) [u "an"; u "ta."; u "ni"] = true
  /\ _WORD_REGEXP Demo.IPA (u "?") = None
  /\ extract_sentences Demo.IPA (length (split (u "an ta. ni ? a")))
       (split (u "an ta. ni ? a")) [] = Raise (InvalidCharacter 2 2)
  /\ paragraphToSound Demo.IPA [] Demo.math_cos Demo.math_e_pow
       Demo.random_uniform (u "an ta. ni ? a") (mk_options false false true)
       parwave.__init__ = Raise (InvalidCharacter 2 2).
Proof.
  split; [reflexivity|]. split; [reflexivity|]. split; [reflexivity|].
  apply (malformed_token_is_fatal Demo.IPA [] Demo.math_cos Demo.math_e_pow
           Demo.random_uniform (u "an ta. ni ? a") (mk_options false false true)
           parwave.__init__ [u "an"; u "ta."; u "ni"] (u "?") [u "a"]);
    reflexivity.
Defined.

(** Two one-phoneme sentences, shortened to a few milliseconds each. *)
Lemma paragraph_segments_alternate_example :
  exists synthesizer' segments,
    paragraphToSound Demo.IPA [] Demo.math_cos Demo.math_e_pow
      Demo.random_uniform (u "a<<<<. i<<<<?") (mk_options false false false)
      parwave.__init__ = Ok (synthesizer', segments)
    /\ exists sentences audios,
        extract_sentences Demo.IPA (length (split (u "a<<<<. i<<<<?")))
          (split (u "a<<<<. i<<<<?")) [] = Ok sentences
        /\ Forall2 (rendered Demo.IPA [] Demo.math_cos Demo.math_e_pow
                      Demo.random_uniform (mk_options false false false))
             sentences audios
        /\ alternates audios segments
        /\ len segments = 2 * len sentences.
Proof.
  do 2 eexists. split; [vm_compute; reflexivity|].
  eapply (paragraph_segments_alternate Demo.IPA [] Demo.math_cos Demo.math_e_pow
           Demo.random_uniform (u "a<<<<. i<<<<?") (mk_options false false false)
           parwave.__init__).
  vm_compute. reflexivity.
Defined.

End TransformFacts.


(** ** More on the synthesizer *)

Module ParwaveMore.
Import Py parwave Spec Terms.

(** *** Nothing loops for ever *)

Lemma bind_returns {A B : Type} (m : result A) (k : A -> result B) :
  m <> Diverge -> (forall a, m = Ok a -> k a <> Diverge) -> bind m k <> Diverge.
Proof.
  intros Hm Hk. destruct m as [a| |]; cbn [bind];
    [apply Hk; reflexivity | discriminate | exfalso; apply Hm; reflexivity].
Qed.

Lemma mapM_returns {A B : Type} (f : A -> result B) (l : list A) :
  (forall x, f x <> Diverge) -> mapM f l <> Diverge.
Proof.
  intros Hf. induction l as [|x l IH]; cbn [mapM]; [discriminate|].
  apply bind_returns; [apply Hf|]. intros y _.
  apply bind_returns; [exact IH|]. discriminate.
Qed.

Lemma to_float_returns (x : num) : to_float x <> Diverge.
Proof.
  destruct x; cbn [to_float]; [|discriminate].
  destruct (PrimFloat.is_infinity _); discriminate.
Qed.

Lemma fmul_returns (f : float) (x : num) : fmul f x <> Diverge.
Proof.
  unfold fmul. apply bind_returns; [apply to_float_returns|]. discriminate.
Qed.

Lemma mul_returns (x y : num) : mul x y <> Diverge.
Proof.
  unfold mul, arith.
  destruct x, y;
    first [ discriminate
          | apply bind_returns; [apply to_float_returns|]; intros ? _;
            apply bind_returns; [apply to_float_returns|]; intros ? _;
            discriminate ].
Qed.

Lemma trunc_float_returns (f : float) : trunc_float f <> Diverge.
Proof. unfold trunc_float. destruct (Prim2SF f); discriminate. Qed.

Lemma int_returns (x : num) : int_ x <> Diverge.
Proof. destruct x; cbn [int_]; [discriminate|apply trunc_float_returns]. Qed.

Lemma period_length_returns (f0_multiplier : num) :
  period_length f0_multiplier <> Diverge.
Proof.
  unfold period_length. apply bind_returns; [apply mul_returns|].
  intros; apply int_returns.
Qed.

Lemma target_samples_returns (milliseconds : num) :
  target_samples milliseconds <> Diverge.
Proof.
  unfold target_samples. apply bind_returns; [apply mul_returns|].
  intros; apply int_returns.
Qed.

Lemma anti_init_returns (a b c : float) : anti_init a b c <> Diverge.
Proof. unfold anti_init. destruct (PrimFloat.is_zero a); discriminate. Qed.

Lemma resonate_collection_returns collection :
  forall source frication result_,
    resonate_collection collection source frication result_ <> Diverge.
Proof.
  induction collection as [|[[c_r p_r] amplitude] rest IH];
    intros source frication result_; cbn [resonate_collection]; [discriminate|].
  destruct (resonate c_r source) as [c_r' s1].
  apply bind_returns; [apply fmul_returns|]. intros x _.
  destruct (resonate p_r x) as [p_r' y].
  apply bind_returns; [apply IH|]. intros [[updated s2] r2] _. discriminate.
Qed.

Section Loop.
Variable random_uniform : nat -> float.

Lemma resonate_collection_length collection :
  forall source frication result_ updated source' result',
    resonate_collection collection source frication result_
    = Ok (updated, source', result') ->
    length updated = length collection.
Proof.
  induction collection as [|[[c_r p_r] amplitude] rest IH];
    intros source frication result_ updated source' result' H; simpl in H.
  - injection H as <- _ _. reflexivity.
  - destruct (resonate c_r source) as [c_r' s1].
    bind_inv H. destruct (resonate p_r a) as [p_r' y].
    bind_inv H. destruct a0 as [[updated0 s2] r2].
    injection H as <- _ _. simpl. f_equal. eapply IH. eauto.
Qed.

(** One sample makes one draw and adds it to the noise accumulator; it
    keeps the number of resonators. *)
Lemma sample_draws fr self pulse self' value :
  sample random_uniform fr self pulse = Ok (self', value) ->
  rng_calls self' = S (rng_calls self)
  /\ _noise self' = (random_uniform (rng_calls self) + _noise self)%float
  /\ length (_cascade_resonators self') = length (_cascade_resonators self)
  /\ length (_parallel_resonators self') = length (_parallel_resonators self).
Proof.
  unfold sample, _getNoise. intros H. cbn [set_noise _glottal_pole_resonator
    _glottal_antiresonator _glottal_sine_resonator _nasal_pole_resonator
    _nasal_antiresonator _cascade_resonators _parallel_resonators _noise rng_calls] in H.
  destruct (resonate (_glottal_pole_resonator self) pulse) as [gp s0].
  destruct (anti_resonate (_glottal_antiresonator self) s0) as [ga gz].
  bind_inv H. rename a into voiced.
  destruct (resonate (_glottal_sine_resonator self) s0) as [gs g_s].
  bind_inv H. rename a into sine. bind_inv H. rename a into aspiration.
  destruct (resonate (_nasal_pole_resonator self) _) as [np s1].
  destruct (anti_resonate (_nasal_antiresonator self) s1) as [na s2].
  bind_inv H. rename a into frication. bind_inv H. rename a into seed.
  destruct (_cascade_resonators self) as [|c1 ctail] eqn:Hcascade; [discriminate|].
  bind_inv H. destruct a as [[updated s3] r3].
  destruct (resonate c1 s3) as [c1' y]. injection H as <- _.
  apply resonate_collection_length in Hstep4.
  rewrite length_rev, !length_combine in Hstep4.
  cbn [rng_calls _noise _cascade_resonators _parallel_resonators].
  split; [reflexivity|]. split; [reflexivity|].
  cbn [length]. rewrite !length_app, !length_map, !length_rev, !length_skipn.
  split; lia.
Qed.

(** What a run of the sample loop does to the synthesizer and to the list
    of samples: [k] draws, where [k] is the number of iterations executed. *)
Lemma sample_loop_draws fr (n : nat) :
  forall t self last_result period_index sounds self' out how,
    sample_loop random_uniform fr n t self last_result period_index sounds
    = Ok (self', out, how) ->
    exists k more,
      rng_calls self' = (rng_calls self + k)%nat
      /\ _noise self' = noise_after random_uniform (rng_calls self) k (_noise self)
      /\ length (_cascade_resonators self') = length (_cascade_resonators self)
      /\ length (_parallel_resonators self') = length (_parallel_resonators self)
      /\ out = sounds ++ more
      /\ match how with
         | Exhausted => k = n
         | Broke => Z.of_nat k = f0_hz fr * 2 - t
         end.
Proof.
  induction n as [|n IH]; intros t self last_result period_index sounds
    self' out how H; simpl in H.
  - injection H as <- <- <-. exists 0%nat, []. rewrite Nat.add_0_r, app_nil_r.
    repeat split; reflexivity.
  - assert (Hrec : forall self1 last1 index1 sounds1 extra,
               sample_loop random_uniform fr n (t + 1) self1 last1 index1 sounds1
               = Ok (self', out, how) ->
               rng_calls self1 = S (rng_calls self) ->
               _noise self1 = (random_uniform (rng_calls self) + _noise self)%float ->
               length (_cascade_resonators self1) = length (_cascade_resonators self) ->
               length (_parallel_resonators self1) = length (_parallel_resonators self) ->
               sounds1 = sounds ++ extra ->
               exists k more,
                 rng_calls self' = (rng_calls self + k)%nat
                 /\ _noise self'
                    = noise_after random_uniform (rng_calls self) k (_noise self)
                 /\ length (_cascade_resonators self')
                    = length (_cascade_resonators self)
                 /\ length (_parallel_resonators self')
                    = length (_parallel_resonators self)
                 /\ out = sounds ++ more
                 /\ match how with
                    | Exhausted => k = S n
                    | Broke => Z.of_nat k = f0_hz fr * 2 - t
                    end).
    { intros self1 last1 index1 sounds1 extra Hloop Hrng Hnoise Hc Hp Hsounds.
      apply IH in Hloop.
      destruct Hloop as (k & more & Hk & Hn & Hc' & Hp' & Hout & Hhow).
      exists (S k), (extra ++ more). simpl noise_after.
      rewrite <- Hnoise, <- Hrng.
      split; [lia|]. split; [exact Hn|]. split; [congruence|]. split; [congruence|].
      split; [rewrite Hout, Hsounds, app_assoc; reflexivity|].
      destruct how; lia. }
    destruct (period_index =? f0_hz fr); bind_inv H; destruct a as [self1 result1];
      destruct (sample_draws _ _ _ _ _ Hstep) as (Hrng & Hnoise & Hc & Hp).
    all: destruct (f0_hz fr <=? t);
      [ | eapply (Hrec _ _ _ _ []); eauto; rewrite app_nil_r; reflexivity ].
    all: bind_inv H.
    all: destruct (turbo fr && (t =? f0_hz fr * 2 - 1)) eqn:Hbreak;
      [ | eapply Hrec; eauto ].
    all: injection H as <- <- <-.
    all: apply andb_prop in Hbreak; destruct Hbreak as [_ Hbreak];
      apply Z.eqb_eq in Hbreak.
    all: exists 1%nat; eexists; simpl noise_after.
    all: rewrite <- Hnoise.
    all: split; [lia|]; split; [reflexivity|]; split; [exact Hc|];
      split; [exact Hp|]; split; [reflexivity|lia].
Qed.

Lemma sample_returns fr self pulse :
  sample random_uniform fr self pulse <> Diverge.
Proof.
  unfold sample, _getNoise. cbn [set_noise _glottal_pole_resonator
    _glottal_antiresonator _glottal_sine_resonator _nasal_pole_resonator
    _nasal_antiresonator _cascade_resonators _parallel_resonators _noise rng_calls].
  destruct (resonate (_glottal_pole_resonator self) pulse) as [gp s0].
  destruct (anti_resonate (_glottal_antiresonator self) s0) as [ga gz].
  apply bind_returns; [apply fmul_returns|]. intros voiced _.
  destruct (resonate (_glottal_sine_resonator self) s0) as [gs g_s].
  apply bind_returns; [apply fmul_returns|]. intros sine _.
  apply bind_returns; [apply fmul_returns|]. intros aspiration _.
  destruct (resonate (_nasal_pole_resonator self) _) as [np s1].
  destruct (anti_resonate (_nasal_antiresonator self) s1) as [na s2].
  apply bind_returns; [apply fmul_returns|]. intros frication _.
  apply bind_returns; [apply fmul_returns|]. intros seed _.
  destruct (_cascade_resonators self) as [|c1 ctail]; [discriminate|].
  apply bind_returns; [apply resonate_collection_returns|].
  intros [[updated s3] r3] _. destruct (resonate c1 s3). discriminate.
Qed.

Lemma sample_loop_returns fr (n : nat) :
  forall t self last_result period_index sounds,
    sample_loop random_uniform fr n t self last_result period_index sounds
    <> Diverge.
Proof.
  induction n as [|n IH]; intros t self last_result period_index sounds;
    cbn [sample_loop]; [discriminate|].
  destruct (period_index =? f0_hz fr); cbv iota beta.
  all: apply bind_returns; [apply sample_returns|]; intros [self1 result1] _.
  all: destruct (f0_hz fr <=? t); [|apply IH].
  all: apply bind_returns; [apply trunc_float_returns|]; intros output _.
  all: destruct (turbo fr && (t =? f0_hz fr * 2 - 1)); [discriminate|apply IH].
Qed.

Lemma sample_with_turbo fr flag self pulse :
  sample random_uniform (with_turbo fr flag) self pulse
  = sample random_uniform fr self pulse.
Proof. reflexivity. Qed.

(** Where turbo mode cannot break, the loop runs as without it. *)
Lemma sample_loop_without_break fr (n : nat) :
  forall t self last_result period_index sounds,
    ~ (1 <= f0_hz fr /\ t <= 2 * f0_hz fr - 1 < t + Z.of_nat n) ->
    sample_loop random_uniform (with_turbo fr true) n t self last_result
      period_index sounds
    = sample_loop random_uniform (with_turbo fr false) n t self last_result
        period_index sounds.
Proof.
  induction n as [|n IH]; intros t self last_result period_index sounds Hnot;
    [reflexivity|].
  cbn [sample_loop].
  change (f0_hz (with_turbo fr true)) with (f0_hz fr).
  change (f0_hz (with_turbo fr false)) with (f0_hz fr).
  change (turbo (with_turbo fr true)) with true.
  change (turbo (with_turbo fr false)) with false.
  cbn [andb].
  destruct (period_index =? f0_hz fr); cbv iota beta; rewrite !sample_with_turbo;
    (destruct (sample random_uniform fr self _) as [[self1 result1]| |];
     cbn [bind]; [|reflexivity|reflexivity]).
  all: destruct (f0_hz fr <=? t) eqn:Hwarm;
    [ apply Z.leb_le in Hwarm | apply IH; lia ].
  all: destruct (trunc_float _) as [output| |]; cbn [bind];
    [|reflexivity|reflexivity].
  all: destruct (t =? f0_hz fr * 2 - 1) eqn:Hbreak;
    [ apply Z.eqb_eq in Hbreak; exfalso; apply Hnot; lia
    | apply Z.eqb_neq in Hbreak; apply IH; lia ].
Qed.

(** Where turbo mode breaks, the samples computed up to there are the
    first samples of the run without it. *)
Lemma sample_loop_turbo_prefix fr (n : nat) :
  forall t self last_result period_index sounds self1 out1 self2 out2 how2,
    sample_loop random_uniform (with_turbo fr true) n t self last_result
      period_index sounds = Ok (self1, out1, Broke) ->
    sample_loop random_uniform (with_turbo fr false) n t self last_result
      period_index sounds = Ok (self2, out2, how2) ->
    exists more, out2 = out1 ++ more.
Proof.
  induction n as [|n IH]; intros t self last_result period_index sounds
    self1 out1 self2 out2 how2 Hon Hoff; [discriminate|].
  cbn [sample_loop] in Hon, Hoff.
  change (f0_hz (with_turbo fr true)) with (f0_hz fr) in Hon.
  change (f0_hz (with_turbo fr false)) with (f0_hz fr) in Hoff.
  change (turbo (with_turbo fr true)) with true in Hon.
  change (turbo (with_turbo fr false)) with false in Hoff.
  cbn [andb] in Hon, Hoff.
  destruct (period_index =? f0_hz fr); cbv iota beta in Hon, Hoff;
    rewrite !sample_with_turbo in Hon, Hoff;
    (destruct (sample random_uniform fr self _) as [[self3 result3]| |];
     cbn [bind] in Hon, Hoff; [|discriminate|discriminate]).
  all: destruct (f0_hz fr <=? t); [ | eapply IH; eauto ].
  all: destruct (trunc_float _) as [output| |]; cbn [bind] in Hon, Hoff;
    [|discriminate|discriminate].
  all: destruct (t =? f0_hz fr * 2 - 1); [ | eapply IH; eauto ].
  all: injection Hon as _ <-.
  all: apply sample_loop_draws in Hoff.
  all: destruct Hoff as (k & more & _ & _ & _ & _ & Hout & _).
  all: exists more; exact Hout.
Qed.

End Loop.

Section Synthesize.
Variable math_cos : float -> result float.
Variable math_e_pow : float -> result float.
Variable random_uniform : nat -> float.

(** [_initResonators] overwrites every resonator of a well-built
    synthesizer and touches nothing else: its result depends on the
    synthesizer through the noise accumulator and the draw count only. *)
Lemma initResonators_fresh self1 self2 frequencies bandwidths :
  well_built self1 -> well_built self2 ->
  _noise self1 = _noise self2 -> rng_calls self1 = rng_calls self2 ->
  _initResonators math_cos math_e_pow self1 frequencies bandwidths
  = _initResonators math_cos math_e_pow self2 frequencies bandwidths.
Proof.
  intros [Hc1 Hp1] [Hc2 Hp2] Hnoise Hrng.
  destruct self1 as [cs1 ps1 ga1 gp1 gs1 na1 np1 noise1 rng1].
  destruct self2 as [cs2 ps2 ga2 gp2 gs2 na2 np2 noise2 rng2].
  cbn [_cascade_resonators _parallel_resonators _noise rng_calls] in *.
  subst noise2 rng2.
  do 6 (destruct cs1 as [|? cs1]; [discriminate Hc1|]).
  destruct cs1; [|discriminate Hc1].
  do 6 (destruct cs2 as [|? cs2]; [discriminate Hc2|]).
  destruct cs2; [|discriminate Hc2].
  do 5 (destruct ps1 as [|? ps1]; [discriminate Hp1|]).
  destruct ps1; [|discriminate Hp1].
  do 5 (destruct ps2 as [|? ps2]; [discriminate Hp2|]).
  destruct ps2; [|discriminate Hp2].
  unfold _initResonators.
  destruct (mapM _ frequencies) as [cosines| |]; [|reflexivity|reflexivity].
  cbn [bind].
  destruct (mapM _ bandwidths) as [decays| |]; [|reflexivity|reflexivity].
  cbn [bind].
  destruct (map _ (combine cosines decays)) as [|b0 b] eqn:Hb; [reflexivity|].
  do 10 (destruct b as [|? b]; [reflexivity|]).
  destruct b; [|reflexivity].
  destruct (mapM _ bandwidths) as [c| |]; [|reflexivity|reflexivity].
  cbn [bind].
  do 11 (destruct c as [|? c]; [reflexivity|]).
  destruct c; [|reflexivity].
  reflexivity.
Qed.

(** [_initResonators] keeps the noise accumulator, the draw count and the
    number of resonators. *)
Lemma initResonators_keeps self self0 frequencies bandwidths :
  _initResonators math_cos math_e_pow self frequencies bandwidths = Ok self0 ->
  _noise self0 = _noise self /\ rng_calls self0 = rng_calls self.
Proof.
  unfold _initResonators. intros H.
  bind_inv H. rename a into cosines. bind_inv H. rename a into decays.
  destruct (map _ (combine cosines decays)) as [|b0 b] eqn:Hb; [discriminate|].
  do 10 (destruct b as [|? b]; [discriminate|]).
  destruct b; [|discriminate].
  bind_inv H. rename a into c.
  do 11 (destruct c as [|? c]; [discriminate|]).
  destruct c; [|discriminate].
  cbn [map combine] in H.
  destruct (_cascade_resonators self) as [|c1 ctail]; [discriminate|].
  destruct (init_formants _ _ _) as [cs ps].
  bind_inv H. bind_inv H. injection H as <-. split; reflexivity.
Qed.

(** [sample_run] on a parameter set of 33 fields, step by step. *)
Lemma sample_run_33 self parameters f0_multiplier turbo_ :
  length parameters = 33%nat ->
  sample_run math_cos math_e_pow random_uniform self parameters f0_multiplier turbo_
  = (period <- period_length f0_multiplier ;;
     self0 <- _initResonators math_cos math_e_pow self
                (firstn 11 parameters) (firstn 11 (skipn 11 parameters)) ;;
     target <- samples_target_of parameters ;;
     x <- sample_loop random_uniform (frame_of parameters period target turbo_)
            (Z.to_nat (target + period)) 0 self0 0%float period [] ;;
     Ok (x, target)).
Proof.
  intros Hlen. unfold sample_run.
  do 33 (destruct parameters as [|? parameters]; [discriminate Hlen|]).
  destruct parameters; [|discriminate Hlen].
  destruct (period_length f0_multiplier) as [period| |]; [|reflexivity|reflexivity].
  cbn [bind firstn skipn].
  destruct (_initResonators _ _ _ _ _) as [self0| |]; [|reflexivity|reflexivity].
  cbn [bind]. unfold samples_target_of.
  match goal with
  | |- context [getitem ?l 32] =>
      change (getitem l 32) with (@Ok num (nth 32 l (Int 0)))
  end.
  cbn [nth bind].
  destruct (target_samples _) as [target| |]; [|reflexivity|reflexivity].
  cbn [bind]. unfold frame_of. cbn [firstn skipn nth].
  destruct (sample_loop _ _ _ _ _ _ _ _) as [[[s sounds] how]| |]; reflexivity.
Qed.

(** A parameter set that does not have 33 fields is refused. *)
Lemma sample_run_not_33 self parameters f0_multiplier turbo_ period :
  length parameters <> 33%nat ->
  period_length f0_multiplier = Ok period ->
  sample_run math_cos math_e_pow random_uniform self parameters f0_multiplier turbo_
  = Raise ValueError.
Proof.
  intros Hlen Hperiod. unfold sample_run. rewrite Hperiod. cbn [bind].
  do 33 (destruct parameters as [|? parameters]; [reflexivity|]).
  destruct parameters; [|reflexivity].
  exfalso. apply Hlen. reflexivity.
Qed.

Lemma double_sounds_prefix (fuel : nat) :
  forall l l' target,
    double_sounds fuel l target = Ok l' -> exists more, l' = l ++ more.
Proof.
  induction fuel as [|fuel IH]; intros l l' target H; simpl in H;
    destruct (len l * 2 <? target); try discriminate.
  - injection H as <-. exists []. rewrite app_nil_r. reflexivity.
  - apply IH in H. destruct H as [more ->]. exists (l ++ more).
    rewrite app_assoc. reflexivity.
  - injection H as <-. exists []. rewrite app_nil_r. reflexivity.
Qed.

Lemma turbo_fill_prefix buf target out :
  turbo_fill buf target = Ok out -> exists more, out = buf ++ more.
Proof.
  unfold turbo_fill. intros H. bind_inv H. injection H as <-.
  apply double_sounds_prefix in Hstep. destruct Hstep as [more ->].
  eexists. rewrite <- app_assoc. reflexivity.
Qed.

(** How the loop of a call that got as far as the loop ended. *)
Lemma sample_loop_from_start fr (n : nat) self last_result period_index self' out how :
  sample_loop random_uniform fr n 0 self last_result period_index []
  = Ok (self', out, how) ->
  match how with
  | Broke => breaks fr 0 n /\ len out = f0_hz fr
  | Exhausted =>
      ~ breaks fr 0 n /\ len out = Z.max 0 (Z.of_nat n - Z.max 0 (f0_hz fr))
  end.
Proof.
  intros H. apply ParwaveFacts.sample_loop_count in H; [exact H|lia|].
  unfold len. simpl. lia.
Qed.

(** X1: without turbo mode, synthesize returns as many samples as the target
    says when the period is not negative; a negative period (a negative f0
    multiplier) shortens the output by its size. *)
Theorem plain_output_length self parameters f0_multiplier self' sounds period target :
  period_length f0_multiplier = Ok period ->
  samples_target_of parameters = Ok target ->
  synthesize math_cos math_e_pow random_uniform self parameters f0_multiplier
    false = Ok (self', sounds) ->
  (0 <= period -> len sounds = Z.max 0 target)
  /\ (period < 0 -> len sounds = Z.max 0 (target + period)).
Proof.
  intros Hperiod Htarget H. unfold synthesize in H. bind_inv H.
  destruct a as [[[self1 buf] how] target'].
  apply ParwaveFacts.sample_run_inv in Hstep.
  destruct Hstep as (period' & fr & self0 & Hperiod' & Htarget' & Hf0 & _ & Hturbo & Hloop).
  rewrite Hperiod in Hperiod'. injection Hperiod' as <-.
  rewrite Htarget in Htarget'. injection Htarget' as <-.
  apply sample_loop_from_start in Hloop. unfold breaks in Hloop.
  rewrite Hf0, Hturbo in Hloop.
  destruct how.
  - injection H as _ <-. destruct Hloop as [_ Hlen]. split; intros; lia.
  - destruct Hloop as [[Habs _] _]. discriminate.
Qed.

(** X2: turbo mode changes nothing when the period is below one sample or
    longer than the target: the call returns, or fails, as without it. *)
Theorem turbo_without_effect self parameters f0_multiplier period target :
  period_length f0_multiplier = Ok period ->
  samples_target_of parameters = Ok target ->
  ~ (1 <= period <= target) ->
  synthesize math_cos math_e_pow random_uniform self parameters f0_multiplier true
  = synthesize math_cos math_e_pow random_uniform self parameters f0_multiplier false.
Proof.
  intros Hperiod Htarget Hnot. unfold synthesize.
  destruct (Nat.eq_dec (length parameters) 33) as [Hlen|Hlen].
  - rewrite !sample_run_33 by exact Hlen. rewrite Hperiod, Htarget. cbn [bind].
    destruct (_initResonators _ _ _ _ _) as [self0| |]; [|reflexivity|reflexivity].
    cbn [bind].
    change (frame_of parameters period target true)
      with (with_turbo (frame_of parameters period target false) true).
    change (frame_of parameters period target false)
      with (with_turbo (frame_of parameters period target false) false) at 2.
    rewrite sample_loop_without_break; [reflexivity|].
    cbn [frame_of f0_hz]. lia.
  - rewrite !(sample_run_not_33 _ _ _ _ period) by assumption. reflexivity.
Qed.

(** X3: where turbo mode does break the loop, its output starts with the same
    period of samples as the output computed without it. *)
Theorem turbo_starts_like_plain self parameters f0_multiplier period target
        self1 out1 self2 out2 :
  period_length f0_multiplier = Ok period ->
  samples_target_of parameters = Ok target ->
  1 <= period <= target ->
  synthesize math_cos math_e_pow random_uniform self parameters f0_multiplier
    true = Ok (self1, out1) ->
  synthesize math_cos math_e_pow random_uniform self parameters f0_multiplier
    false = Ok (self2, out2) ->
  firstn (Z.to_nat period) out1 = firstn (Z.to_nat period) out2.
Proof.
  intros Hperiod Htarget Hrange Hon Hoff. unfold synthesize in Hon, Hoff.
  destruct (Nat.eq_dec (length parameters) 33) as [Hlen|Hlen];
    [|rewrite (sample_run_not_33 _ _ _ _ period) in Hon by assumption; discriminate].
  rewrite sample_run_33 in Hon, Hoff by exact Hlen.
  rewrite Hperiod, Htarget in Hon, Hoff. cbn [bind] in Hon, Hoff.
  destruct (_initResonators _ _ _ _ _) as [self0| |]; [|discriminate|discriminate].
  cbn [bind] in Hon, Hoff.
  bind_inv Hon. destruct a as [[[s1 buf] how1] target1].
  bind_inv Hstep. destruct a as [[s1' buf'] how1'].
  injection Hstep as <- <- <- <-.
  bind_inv Hoff. destruct a as [[[s2 plain] how2] target2].
  bind_inv Hstep. destruct a as [[s2' plain'] how2'].
  injection Hstep as <- <- <- <-.
  rename Hstep0 into Hloop1, Hstep1 into Hloop2.
  pose proof (sample_loop_from_start _ _ _ _ _ _ _ _ Hloop1) as Hcount.
  destruct how1'.
  { exfalso. destruct Hcount as [Hnot _]. apply Hnot. unfold breaks.
    cbn [frame_of turbo f0_hz]. repeat split; lia. }
  destruct Hcount as [_ Hbuf]. cbn [frame_of f0_hz] in Hbuf.
  bind_inv Hon. injection Hon as _ <-.
  apply turbo_fill_prefix in Hstep. destruct Hstep as [more1 ->].
  assert (Hplain : exists more, plain' = buf' ++ more).
  { eapply (sample_loop_turbo_prefix random_uniform
              (frame_of parameters period target false));
      [exact Hloop1|exact Hloop2]. }
  destruct Hplain as [more2 ->].
  assert (Hout2 : exists more, out2 = buf' ++ more).
  { destruct how2'.
    - injection Hoff as _ <-. eexists. reflexivity.
    - bind_inv Hoff. injection Hoff as _ <-.
      apply turbo_fill_prefix in Hstep. destruct Hstep as [more ->].
      rewrite <- app_assoc. eexists. reflexivity. }
  destruct Hout2 as [more3 ->].
  assert (Hn : Z.to_nat period = length buf') by (unfold len in Hbuf; lia).
  rewrite Hn, !firstn_app, Nat.sub_diag, !firstn_all. reflexivity.
Qed.

(** X4: a call of synthesize advances the generator by two periods of draws
    when turbo mode breaks the loop and by target plus one period otherwise,
    and leaves in the noise accumulator its former value with those draws
    added: the accumulator is carried from call to call. *)
Theorem synthesize_draws self parameters f0_multiplier turbo_ self' sounds
        period target :
  period_length f0_multiplier = Ok period ->
  samples_target_of parameters = Ok target ->
  synthesize math_cos math_e_pow random_uniform self parameters f0_multiplier
    turbo_ = Ok (self', sounds) ->
  rng_calls self' = (rng_calls self + draws_made period target turbo_)%nat
  /\ _noise self'
     = noise_after random_uniform (rng_calls self)
         (draws_made period target turbo_) (_noise self).
Proof.
  intros Hperiod Htarget H. unfold synthesize in H.
  destruct (Nat.eq_dec (length parameters) 33) as [Hlen|Hlen];
    [|rewrite (sample_run_not_33 _ _ _ _ period) in H by assumption; discriminate].
  rewrite sample_run_33 in H by exact Hlen.
  rewrite Hperiod, Htarget in H. cbn [bind] in H.
  destruct (_initResonators _ _ _ _ _) as [self0| |] eqn:Hinit;
    [|discriminate|discriminate].
  apply initResonators_keeps in Hinit. destruct Hinit as [Hnoise Hrng].
  cbn [bind] in H.
  bind_inv H. destruct a as [[[s1 buf] how] target1].
  bind_inv Hstep. destruct a as [[s1' buf'] how'].
  injection Hstep as <- <- <- <-.
  pose proof (sample_loop_from_start _ _ _ _ _ _ _ _ Hstep0) as Hcount.
  apply sample_loop_draws in Hstep0.
  destruct Hstep0 as (k & more & Hk & Hn & _ & _ & _ & Hhow).
  rewrite Hrng, Hnoise in *.
  assert (Hsame : self' = s1').
  { destruct how'; [injection H as <- _; reflexivity|].
    bind_inv H. injection H as <- _. reflexivity. }
  subst s1'.
  assert (Hdraws : k = draws_made period target turbo_).
  { unfold draws_made. unfold breaks in Hcount. cbn [frame_of turbo f0_hz] in *.
    destruct how'.
    - destruct Hcount as [Hnot _]. subst k.
      destruct turbo_; [|reflexivity]. cbn [andb].
      destruct (1 <=? period) eqn:H1; [|reflexivity].
      destruct (period <=? target) eqn:H2; [|reflexivity].
      apply Z.leb_le in H1, H2. exfalso. apply Hnot. repeat split; lia.
    - destruct Hcount as [(Hturbo & H1 & H2) _]. rewrite Hturbo. cbn [andb].
      replace (1 <=? period) with true by (symmetry; apply Z.leb_le; lia).
      replace (period <=? target) with true by (symmetry; apply Z.leb_le; lia).
      cbn [andb]. lia. }
  rewrite <- Hdraws. split; assumption.
Qed.

(** X5: every call starts from fresh resonators: what synthesize returns, and
    the state it leaves, depend on the synthesizer it is given only through
    the noise accumulator and the position of the generator. *)
Theorem synthesize_forgets_resonators self1 self2 parameters f0_multiplier turbo_ :
  well_built self1 -> well_built self2 ->
  _noise self1 = _noise self2 -> rng_calls self1 = rng_calls self2 ->
  synthesize math_cos math_e_pow random_uniform self1 parameters f0_multiplier turbo_
  = synthesize math_cos math_e_pow random_uniform self2 parameters f0_multiplier turbo_.
Proof.
  intros Hb1 Hb2 Hnoise Hrng. unfold synthesize.
  destruct (period_length f0_multiplier) as [period| |] eqn:Hperiod.
  - destruct (Nat.eq_dec (length parameters) 33) as [Hlen|Hlen].
    + rewrite !sample_run_33 by exact Hlen.
      rewrite (initResonators_fresh self1 self2) by assumption. reflexivity.
    + rewrite !(sample_run_not_33 _ _ _ _ period) by assumption. reflexivity.
  - unfold sample_run. rewrite Hperiod. reflexivity.
  - unfold sample_run. rewrite Hperiod. reflexivity.
Qed.

(** X6: a parameter set that does not have exactly 33 fields makes synthesize
    raise ValueError, whatever else it holds. *)
Theorem synthesize_wants_33_fields self parameters f0_multiplier turbo_ period :
  period_length f0_multiplier = Ok period ->
  length parameters <> 33%nat ->
  synthesize math_cos math_e_pow random_uniform self parameters f0_multiplier turbo_
  = Raise ValueError.
Proof.
  intros Hperiod Hlen. unfold synthesize.
  rewrite (sample_run_not_33 _ _ _ _ period) by assumption. reflexivity.
Qed.

Section Library.
Hypothesis math_cos_returns : forall x, math_cos x <> Diverge.
Hypothesis math_e_pow_returns : forall x, math_e_pow x <> Diverge.

Lemma initResonators_returns self frequencies bandwidths :
  _initResonators math_cos math_e_pow self frequencies bandwidths <> Diverge.
Proof.
  unfold _initResonators.
  apply bind_returns.
  { apply mapM_returns. intros f.
    apply bind_returns; [apply fmul_returns|]. intros; apply math_cos_returns. }
  intros cosines _. apply bind_returns.
  { apply mapM_returns. intros bw.
    apply bind_returns; [apply fmul_returns|]. intros x _.
    apply bind_returns; [apply math_e_pow_returns|]. discriminate. }
  intros decays _.
  destruct (map _ (combine cosines decays)) as [|b0 b]; [discriminate|].
  do 10 (destruct b as [|? b]; [discriminate|]).
  destruct b; [|discriminate].
  apply bind_returns.
  { apply mapM_returns. intros bw.
    apply bind_returns; [apply fmul_returns|]. intros x _.
    apply bind_returns; [apply math_e_pow_returns|]. discriminate. }
  intros c _.
  do 11 (destruct c as [|? c]; [discriminate|]).
  destruct c; [|discriminate].
  cbn [map combine].
  destruct (_cascade_resonators self) as [|c1 ctail]; [discriminate|].
  destruct (init_formants _ _ _) as [cs ps].
  apply bind_returns; [apply anti_init_returns|]. intros ga _.
  apply bind_returns; [apply anti_init_returns|]. discriminate.
Qed.

(** X7: synthesize always comes back, with samples or with an exception, as
    long as the C library's functions do: the sample loop is bounded, and
    the doubling loop of turbo mode never starts from an empty list. *)
Theorem synthesize_returns self parameters f0_multiplier turbo_ :
  synthesize math_cos math_e_pow random_uniform self parameters f0_multiplier turbo_
  <> Diverge.
Proof.
  unfold synthesize. apply bind_returns.
  - unfold sample_run. apply bind_returns; [apply period_length_returns|].
    intros period _.
    do 33 (destruct parameters as [|? parameters]; [discriminate|]).
    destruct parameters; [|discriminate].
    apply bind_returns; [apply initResonators_returns|]. intros self0 _.
    apply bind_returns; [apply target_samples_returns|]. intros target _.
    apply bind_returns; [apply sample_loop_returns|].
    intros [[s sounds] how] _. discriminate.
  - intros [[[s buf] how] target] Hrun.
    destruct how; [discriminate|].
    apply ParwaveFacts.sample_run_inv in Hrun.
    destruct Hrun as (period & fr & self0 & _ & _ & Hf0 & _ & _ & Hloop).
    apply sample_loop_from_start in Hloop.
    destruct Hloop as [(_ & Hperiod & _) Hlen].
    destruct (ParwaveFacts.turbo_fill_returns buf ltac:(lia) target) as [r Hr].
    rewrite Hr. discriminate.
Qed.

End Library.

End Synthesize.
End ParwaveMore.


(** ** More on the universal rules *)

Module UniversalRulesMore.
Import Py universal_rules Spec Terms.

Lemma mapM_length {A B : Type} (f : A -> result B) (l : list A) :
  forall r, mapM f l = Ok r -> length r = length l.
Proof.
  induction l as [|x l IH]; intros r H; cbn [mapM] in H.
  - injection H as <-. reflexivity.
  - bind_inv H. bind_inv H. injection H as <-. simpl. f_equal. apply IH. assumption.
Qed.

Lemma slice_to_32_length {A : Type} (l : list A) :
  (32 <= length l)%nat -> length (slice_to l 32) = 32%nat.
Proof.
  intros H. unfold slice_to. cbn [Z.ltb Z.compare]. rewrite length_firstn. lia.
Qed.

(** *** Blends of integer fields *)

Lemma floor_blend_between (x y : Z) :
  Z.min x y <= (x * 2 + y) / 3 <= Z.max x y.
Proof.
  split.
  - apply Z.div_le_lower_bound; lia.
  - apply Z.div_le_upper_bound; lia.
Qed.

Lemma floor_average_between (x y : Z) :
  Z.min x y <= (x + y) / 2 <= Z.max x y.
Proof.
  split.
  - apply Z.div_le_lower_bound; lia.
  - apply Z.div_le_upper_bound; lia.
Qed.

(** X8: on integer fields the three blends are floor divisions, field by field,
    and no blended field leaves the interval of the two fields it comes
    from. *)
Theorem integer_blends_stay_between (values : list (Z * Z)) :
  blend_2_1 (map (fun '(x, y) => (Int x, Int y)) values)
  = Ok (map (fun '(x, y) => Int ((x * 2 + y) / 3)) values)
  /\ blend_1_2 (map (fun '(x, y) => (Int x, Int y)) values)
     = Ok (map (fun '(x, y) => Int ((x + y * 2) / 3)) values)
  /\ average (map (fun '(x, y) => (Int x, Int y)) values)
     = Ok (map (fun '(x, y) => Int ((y + x) / 2)) values)
  /\ Forall (fun '(x, y) =>
               Z.min x y <= (x * 2 + y) / 3 <= Z.max x y
               /\ Z.min x y <= (x + y * 2) / 3 <= Z.max x y
               /\ Z.min x y <= (y + x) / 2 <= Z.max x y) values.
Proof.
  repeat split.
  - induction values as [|[x y] values IH]; [reflexivity|].
    cbn [map]. unfold blend_2_1 in *. cbn [mapM]. rewrite IH. reflexivity.
  - induction values as [|[x y] values IH]; [reflexivity|].
    cbn [map]. unfold blend_1_2 in *. cbn [mapM]. rewrite IH. reflexivity.
  - induction values as [|[x y] values IH]; [reflexivity|].
    cbn [map]. unfold average in *. cbn [mapM]. rewrite IH. reflexivity.
  - apply Forall_forall. intros [x y] _.
    split; [apply floor_blend_between|].
    split.
    + replace (x + y * 2) with (y * 2 + x) by lia.
      rewrite Z.min_comm, Z.max_comm. apply floor_blend_between.
    + rewrite Z.min_comm, Z.max_comm. apply floor_average_between.
Qed.

(** *** Frames added *)

Section Counts.
Variable IPA : ipa.module.

(** X9: bridgeWords drops and alters no frame: it hands the list back as it
    is, or with one frame of 50 ms added at one end, and it adds that
    frame only for a vowel with no phoneme before it in its word and with a
    word before its own. *)
Theorem bridgeWords_adds_at_most_one ipa_character preceding following
        previous_words parameters_list out :
  bridgeWords IPA ipa_character preceding following previous_words parameters_list
  = Ok out ->
  out = parameters_list
  \/ (ipa.VOWELS IPA ipa_character = true
      /\ preceding = [] /\ previous_words <> []
      /\ exists extra,
          (out = parameters_list ++ [extra] \/ out = extra :: parameters_list)
          /\ getitem extra (-1) = Ok (Int 50)).
Proof.
  intros H. unfold bridgeWords in H.
  destruct (ipa.VOWELS IPA ipa_character) eqn:Hvowel; cbn [negb] in H;
    [|left; injection H as <-; reflexivity].
  destruct preceding; [|left; injection H as <-; reflexivity].
  destruct previous_words as [|w ws]; [left; injection H as <-; reflexivity|].
  right. split; [reflexivity|]. split; [reflexivity|]. split; [discriminate|].
  bind_inv H. rename a into word. bind_inv H. rename a into last_char.
  destruct (ipa.VOWELS IPA [last_char]).
  - bind_inv H. injection H as <-. exists a. split; [left; reflexivity|].
    unfold fixed_sound in Hstep1. bind_inv Hstep1. injection Hstep1 as <-.
    apply SeqFacts.getitem_last_app.
  - bind_inv H. bind_inv H. bind_inv H. injection H as <-.
    eexists. split; [right; reflexivity|]. apply SeqFacts.getitem_last_app.
Qed.

Lemma shapeContours_length ipa_character preceding following
        parameters_list out :
  shapeContours IPA ipa_character preceding following parameters_list = Ok out ->
  length out
  = (length parameters_list
     + (match preceding with [] => 0 | _ :: _ => 1 end)
     + (match following with
        | [] => 0
        | follower :: _ =>
            if ipa.VOWELS IPA ipa_character && ipa.NASALS IPA follower
            then 0 else 1
        end))%nat.
Proof.
  intros H. unfold shapeContours in H. bind_inv H. rename a into mid.
  apply UniversalRulesFacts.shape_lead_spec in Hstep.
  apply UniversalRulesFacts.shape_tail_spec in H.
  assert (Hmid : length mid
                 = (length parameters_list
                    + match preceding with [] => 0 | _ :: _ => 1 end)%nat).
  { unfold lead_shaped in Hstep. destruct preceding; [subst; lia|].
    destruct Hstep as (lead & rest & sound & transition & -> & _ & _ & ->).
    cbn [length]. lia. }
  rewrite <- Hmid. unfold tail_shaped in H.
  destruct following as [|follower others]; [subst; lia|].
  destruct (ipa.VOWELS IPA ipa_character && ipa.NASALS IPA follower); [subst; lia|].
  destruct H as (body & tail & sound & transition & -> & _ & _ & ->).
  rewrite !length_app. cbn [length]. lia.
Qed.

Lemma trimmed_same_sound edge sound :
  trimmed_by_15 edge sound -> same_sound edge sound.
Proof.
  intros (duration & trimmed & Hduration & _ & _ & ->).
  assert (Hlong : (32 < length edge)%nat).
  { unfold getitem in Hduration. cbn [Z.ltb Z.compare] in Hduration.
    change (Z.to_nat 32) with 32%nat in Hduration.
    destruct (nth_error edge 32) eqn:Hnth; [|discriminate].
    apply nth_error_Some. rewrite Hnth. discriminate. }
  unfold same_sound. unfold slice_to at 1. cbn [Z.ltb Z.compare].
  change (Z.to_nat 32) with 32%nat.
  rewrite firstn_app, slice_to_32_length by lia.
  rewrite Nat.sub_diag. change (firstn 0 [max (Int 5) trimmed]) with (@nil num).
  rewrite app_nil_r. apply firstn_all2.
  rewrite slice_to_32_length by lia. lia.
Qed.

Lemma transition_lasts_15 at_stop gap neighbour edge transition :
  transition_15 IPA at_stop gap neighbour edge transition ->
  getitem transition (-1) = Ok (Int 15).
Proof.
  unfold transition_15. destruct at_stop.
  - intros (values & _ & ->). apply SeqFacts.getitem_last_app.
  - intros (values & blend & _ & _ & ->). apply SeqFacts.getitem_last_app.
Qed.

Lemma same_sound_all (frames : list parameters) : Forall2 same_sound frames frames.
Proof. induction frames; constructor; [reflexivity|assumption]. Qed.

(** X10: shapeContours hands back the parameter-sets it was given, in order
    and each with its 32 acoustic fields, with one parameter-set of 15
    milliseconds put before them when a phoneme precedes in the word, and
    one put after them when a phoneme follows, but not after a vowel that a
    nasal follows; nothing else is added and nothing is taken away. *)
Theorem shapeContours_adds_at_the_ends ipa_character preceding following
        parameters_list out :
  shapeContours IPA ipa_character preceding following parameters_list = Ok out ->
  exists lead middle tail,
    out = lead ++ middle ++ tail
    /\ Forall2 same_sound parameters_list middle
    /\ one_transition (match preceding with [] => false | _ :: _ => true end) lead
    /\ one_transition
         (match following with
          | [] => false
          | follower :: _ =>
              negb (ipa.VOWELS IPA ipa_character && ipa.NASALS IPA follower)
          end) tail.
Proof.
  intros H. unfold shapeContours in H. bind_inv H. rename a into mid.
  apply UniversalRulesFacts.shape_lead_spec in Hstep.
  apply UniversalRulesFacts.shape_tail_spec in H.
  assert (Hlead : exists lead middle,
             mid = lead ++ middle
             /\ Forall2 same_sound parameters_list middle
             /\ one_transition
                  (match preceding with [] => false | _ :: _ => true end) lead
             /\ (mid <> [] -> middle <> [])).
  { unfold lead_shaped in Hstep. destruct preceding as [|p preceding].
    - subst mid. exists [], parameters_list.
      split; [reflexivity|]. split; [apply same_sound_all|].
      split; [reflexivity|]. intros Hmid. exact Hmid.
    - destruct Hstep as (first & rest & sound & transition & -> & Htrim & Htransition
                         & ->).
      exists [transition], (sound :: rest). split; [reflexivity|].
      split; [constructor; [apply trimmed_same_sound; exact Htrim
                           |apply same_sound_all]|].
      split; [|intros _; discriminate].
      exists transition. split; [reflexivity|].
      eapply transition_lasts_15. exact Htransition. }
  destruct Hlead as (lead & middle & -> & Hmiddle & Hlead & Hsome).
  unfold tail_shaped in H.
  destruct following as [|follower others].
  { subst out. exists lead, middle, []. rewrite app_nil_r.
    split; [reflexivity|]. split; [exact Hmiddle|]. split; [exact Hlead|reflexivity]. }
  destruct (ipa.VOWELS IPA ipa_character && ipa.NASALS IPA follower).
  { subst out. exists lead, middle, []. rewrite app_nil_r.
    split; [reflexivity|]. split; [exact Hmiddle|]. split; [exact Hlead|reflexivity]. }
  destruct H as (body & last_frame & sound & transition & Hmid & Htrim
                 & Htransition & ->).
  assert (Hnonempty : middle <> []).
  { apply Hsome. rewrite Hmid. destruct body; discriminate. }
  destruct (exists_last Hnonempty) as (kept & final & ->).
  rewrite app_assoc in Hmid. apply app_inj_tail in Hmid.
  destruct Hmid as [<- <-].
  exists lead, (kept ++ [sound]), [transition].
  split; [rewrite <- !app_assoc; reflexivity|].
  split.
  - apply Forall2_app_inv_r in Hmiddle.
    destruct Hmiddle as (given & given_last & Hkept & Hfinal & ->).
    apply Forall2_app; [exact Hkept|].
    inversion Hfinal as [|g f gs fs Hsame Hnil]; subst.
    inversion Hnil; subst. constructor; [|constructor].
    unfold same_sound in *. rewrite <- Hsame.
    apply trimmed_same_sound. exact Htrim.
  - split; [exact Hlead|]. cbn [negb]. exists transition.
    split; [reflexivity|]. eapply transition_lasts_15. exact Htransition.
Qed.

End Counts.

(** *** The number of fields *)

Section Fields.
Variable IPA : ipa.module.
Hypothesis table : table_complete IPA.

Lemma sized_edge (edge : parameters) (last_field : num) :
  sized edge -> sized (slice_to edge 32 ++ [last_field]).
Proof.
  unfold sized. intros H. rewrite length_app, slice_to_32_length by lia.
  reflexivity.
Qed.

Lemma sized_blend (blend : list (num * num) -> result (list num))
      (edge values out : list num) (last_field : num) :
  (forall l r, blend l = Ok r -> length r = length l) ->
  sized edge -> (32 <= length values)%nat ->
  blend (combine (slice_to edge 32) (slice_to values 32)) = Ok out ->
  sized (out ++ [last_field]).
Proof.
  unfold sized. intros Hblend Hedge Hvalues H. apply Hblend in H.
  rewrite length_app, H, length_combine, !slice_to_32_length by lia.
  reflexivity.
Qed.

Lemma sized_fixed symbol milliseconds sound :
  fixed_sound IPA symbol milliseconds = Ok sound -> sized sound.
Proof.
  unfold fixed_sound, sized. intros H. bind_inv H. injection H as <-.
  apply SeqFacts.lookup_Ok in Hstep. apply table in Hstep.
  rewrite length_app, slice_to_32_length by lia. reflexivity.
Qed.

Lemma nasalizeVowel_sized ipa_character following parameters_list out :
  Forall sized parameters_list ->
  nasalizeVowel IPA ipa_character following parameters_list = Ok out ->
  Forall sized out.
Proof.
  intros Hall H. unfold nasalizeVowel in H.
  destruct following as [|follower others]; [injection H as <-; exact Hall|].
  destruct (negb (ipa.NASALS IPA follower)); [injection H as <-; exact Hall|].
  destruct (negb (ipa.VOWELS IPA ipa_character) || ipa.NASALS IPA ipa_character);
    [injection H as <-; exact Hall|].
  bind_inv H. rename a into vowel.
  destruct (SeqFacts.getitem_0 _ _ Hstep) as [rest ->].
  inversion Hall as [|? ? Hvowel Hrest]; subst.
  bind_inv H. rename a into duration. bind_inv H. rename a into nasal.
  apply SeqFacts.lookup_Ok in Hstep1. apply table in Hstep1.
  bind_inv H. rename a into half.
  rewrite SeqFacts.setitem_0 in H. cbn [bind] in H.
  bind_inv H. rename a into lead_in. bind_inv H. rename a into sixth.
  bind_inv H. rename a into lead_out. bind_inv H. rename a into third.
  injection H as <-. unfold insert. cbn [firstn skipn app].
  repeat constructor; try assumption.
  - apply sized_edge. exact Hvowel.
  - eapply (sized_blend blend_2_1); eauto. intros l r. apply mapM_length.
  - eapply (sized_blend blend_1_2); eauto. intros l r. apply mapM_length.
Qed.

Lemma bridgeWords_sized ipa_character preceding following previous_words
      parameters_list out :
  Forall sized parameters_list ->
  bridgeWords IPA ipa_character preceding following previous_words parameters_list
  = Ok out ->
  Forall sized out.
Proof.
  intros Hall H. unfold bridgeWords in H.
  destruct (negb (ipa.VOWELS IPA ipa_character)); [injection H as <-; exact Hall|].
  destruct preceding; [|injection H as <-; exact Hall].
  destruct previous_words as [|w ws]; [injection H as <-; exact Hall|].
  bind_inv H. rename a into word. bind_inv H. rename a into last_char.
  destruct (ipa.VOWELS IPA [last_char]).
  - bind_inv H. injection H as <-. apply Forall_app. split; [exact Hall|].
    constructor; [|constructor]. eapply sized_fixed. eauto.
  - bind_inv H. rename a into first.
    destruct (SeqFacts.getitem_0 _ _ Hstep1) as [rest ->].
    inversion Hall as [|? ? Hfirst Hrest]; subst.
    bind_inv H. rename a into consonant.
    apply SeqFacts.lookup_Ok in Hstep2. apply table in Hstep2.
    bind_inv H. rename a into sound. injection H as <-.
    unfold insert. cbn [firstn skipn app].
    constructor; [|exact Hall].
    unfold average in Hstep3. apply mapM_length in Hstep3.
    unfold sized in *.
    rewrite length_app, Hstep3, length_combine, slice_to_32_length by lia.
    cbn [length]. lia.
Qed.

Lemma sized_trimmed edge sound :
  sized edge -> trimmed_by_15 edge sound -> sized sound.
Proof.
  intros Hedge (duration & trimmed & _ & _ & _ & ->). apply sized_edge. exact Hedge.
Qed.

Lemma sized_transition at_stop gap neighbour edge transition :
  sized edge -> transition_15 IPA at_stop gap neighbour edge transition ->
  sized transition.
Proof.
  intros Hedge H. unfold transition_15 in H. destruct at_stop.
  - destruct H as (values & Hvalues & ->). apply table in Hvalues.
    unfold sized. rewrite length_app, slice_to_32_length by lia. reflexivity.
  - destruct H as (values & blend & Hvalues & Hblend & ->).
    apply table in Hvalues. unfold blended in Hblend.
    apply Forall2_length in Hblend. unfold sized in *.
    rewrite length_app, <- Hblend, length_combine, !slice_to_32_length by lia.
    reflexivity.
Qed.

Lemma shapeContours_sized ipa_character preceding following parameters_list out :
  Forall sized parameters_list ->
  shapeContours IPA ipa_character preceding following parameters_list = Ok out ->
  Forall sized out.
Proof.
  intros Hall H. unfold shapeContours in H. bind_inv H. rename a into mid.
  apply UniversalRulesFacts.shape_lead_spec in Hstep.
  apply UniversalRulesFacts.shape_tail_spec in H.
  assert (Hmid : Forall sized mid).
  { unfold lead_shaped in Hstep. destruct preceding; [subst; exact Hall|].
    destruct Hstep as (lead & rest & sound & transition & -> & Ht & Htr & ->).
    inversion Hall as [|? ? Hlead Hrest]; subst.
    repeat constructor; try assumption.
    - eapply sized_transition; eauto.
    - eapply sized_trimmed; eauto. }
  unfold tail_shaped in H. destruct following as [|follower others];
    [subst; exact Hmid|].
  destruct (ipa.VOWELS IPA ipa_character && ipa.NASALS IPA follower);
    [subst; exact Hmid|].
  destruct H as (body & tail & sound & transition & -> & Ht & Htr & ->).
  apply Forall_app in Hmid. destruct Hmid as [Hbody Htail].
  inversion Htail as [|? ? Htail' _]; subst.
  apply Forall_app. split; [exact Hbody|].
  repeat constructor.
  - eapply sized_trimmed; eauto.
  - eapply sized_transition; eauto.
Qed.



(** X11: the three universal stages keep parameter sets at 33 fields: run in the
    order of _phonemeToSound on frames of 33 fields, over a table whose
    entries have their 32 acoustic fields, they hand on frames of 33 fields
    only, so none of them is refused by synthesize for its length. *)
Theorem universal_stages_keep_33_fields ipa_character preceding following
        previous_words parameters_list nasalized bridged shaped :
  Forall sized parameters_list ->
  nasalizeVowel IPA ipa_character following parameters_list = Ok nasalized ->
  bridgeWords IPA ipa_character preceding following previous_words nasalized
  = Ok bridged ->
  shapeContours IPA ipa_character preceding following bridged = Ok shaped ->
  Forall sized shaped.
Proof.
  intros Hall Hn Hb Hs.
  eapply shapeContours_sized; [|exact Hs].
  eapply bridgeWords_sized; [|exact Hb].
  eapply nasalizeVowel_sized; [|exact Hn]. exact Hall.
Qed.


End Fields.

End UniversalRulesMore.


(** ** More on the rule chain *)

Module LanguageRulesMore.
Import Py universal_rules language_rules Spec Terms.

Lemma each_parameters_null ctx count (parameters_list : list parameters) :
  forall i transformed f0_multipliers,
    each_parameters [] ctx count i parameters_list transformed f0_multipliers
    = Ok (transformed ++ parameters_list,
          f0_multipliers ++ map (fun _ => Float 1.0) parameters_list).
Proof.
  induction parameters_list as [|parameters_ rest IH];
    intros i transformed f0_multipliers; cbn [each_parameters].
  - rewrite !app_nil_r. reflexivity.
  - cbn [run_rules bind]. rewrite IH. cbn [map app].
    change (times (Float 1.0) (len (@nil parameters) + 1 + len (@nil parameters)))
      with [Float 1.0].
    rewrite <- !app_assoc. reflexivity.
Qed.

(** X13: with a ruleset of no rules (the null language) the rule stage is a
    no-op: the frames come back as given, each with the multiplier 1.0. *)
Theorem null_ruleset_changes_nothing ctx (parameters_list : list parameters) :
  applyRules [] ctx parameters_list
  = Ok (parameters_list, map (fun _ => Float 1.0) parameters_list).
Proof. unfold applyRules. apply each_parameters_null. Qed.

Lemma each_parameters_lengths rule_functions ctx count
      (parameters_list : list parameters) :
  forall i transformed f0_multipliers frames multipliers,
    each_parameters rule_functions ctx count i parameters_list transformed
      f0_multipliers = Ok (frames, multipliers) ->
    exists k,
      length frames = (length transformed + k)%nat
      /\ length multipliers = (length f0_multipliers + k)%nat
      /\ (length parameters_list <= k)%nat.
Proof.
  induction parameters_list as [|parameters_ rest IH];
    intros i transformed f0_multipliers frames multipliers H;
    cbn [each_parameters] in H.
  - injection H as <- <-. exists 0%nat. cbn [length]. lia.
  - bind_inv H. destruct a as [[[parameters' f0] pre] post].
    apply IH in H. destruct H as (k & Hframes & Hmultipliers & Hk).
    rewrite !length_app in Hframes, Hmultipliers. cbn [length] in Hframes.
    unfold times, len in Hmultipliers. rewrite repeat_length in Hmultipliers.
    rewrite !length_app in Hframes. cbn [length] in Hframes.
    exists (length pre + 1 + length post + k)%nat. cbn [length]. lia.
Qed.

(** X14: applyRules hands back as many multipliers as frames, and never fewer
    frames than it was given: rules can add frames and alter them, not
    remove them. *)
Theorem applyRules_lengths rule_functions ctx parameters_list frames multipliers :
  applyRules rule_functions ctx parameters_list = Ok (frames, multipliers) ->
  length frames = length multipliers
  /\ (length parameters_list <= length frames)%nat.
Proof.
  unfold applyRules. intros H. apply each_parameters_lengths in H.
  destruct H as (k & Hframes & Hmultipliers & Hk). cbn [length] in *. lia.
Qed.

End LanguageRulesMore.

(** ** More on tokens *)

Module TokenFacts.
Import Py transform Spec Terms.

Lemma first_match_some {A B : Type} (k : A -> option B) (alternatives : list A) b :
  first_match k alternatives = Some b -> exists a, In a alternatives /\ k a = Some b.
Proof.
  induction alternatives as [|a rest IH]; cbn [first_match]; [discriminate|].
  destruct (k a) as [b'|] eqn:Hk.
  - intros H. injection H as <-. exists a. split; [left; reflexivity|exact Hk].
  - intros H. destruct (IH H) as (a' & Hin & Ha'). exists a'. split; [right|]; assumption.
Qed.

Lemma first_match_none {A B : Type} (k : A -> option B) (alternatives : list A) :
  first_match k alternatives = None -> forall a, In a alternatives -> k a = None.
Proof.
  induction alternatives as [|a rest IH]; cbn [first_match]; intros H a' Hin;
    [destruct Hin|].
  destruct (k a) eqn:Hk; [discriminate|].
  destruct Hin as [<-|Hin]; [exact Hk|apply IH; assumption].
Qed.

Lemma strip_prefix_some (p : unicode) :
  forall s rest, strip_prefix p s = Some rest -> s = p ++ rest.
Proof.
  induction p as [|c p IH]; intros s rest H; cbn [strip_prefix] in H.
  - injection H as <-. reflexivity.
  - destruct s as [|d s]; [discriminate|].
    unfold uchar_eqb in H. destruct (N.eqb_spec c d) as [->|]; [|discriminate].
    cbn [app]. f_equal. apply IH. exact H.
Qed.

Lemma strip_prefix_app (p rest : unicode) : strip_prefix p (p ++ rest) = Some rest.
Proof.
  induction p as [|c p IH]; cbn [strip_prefix app]; [reflexivity|].
  unfold uchar_eqb. rewrite N.eqb_refl. exact IH.
Qed.

Lemma literal_some {B : Type} alternatives s (k : unicode -> unicode -> option B) b :
  literal alternatives s k = Some b ->
  exists alt rest, In alt alternatives /\ s = alt ++ rest /\ k alt rest = Some b.
Proof.
  unfold literal. intros H. apply first_match_some in H.
  destruct H as (alt & Hin & H).
  destruct (strip_prefix alt s) as [rest|] eqn:Hstrip; [|discriminate].
  apply strip_prefix_some in Hstrip. exists alt, rest. auto.
Qed.

Lemma literal_none {B : Type} alternatives s (k : unicode -> unicode -> option B) :
  literal alternatives s k = None ->
  forall alt rest, In alt alternatives -> s = alt ++ rest -> k alt rest = None.
Proof.
  unfold literal. intros H alt rest Hin ->.
  pose proof (first_match_none _ _ H alt Hin) as Hk. cbv beta in Hk.
  rewrite strip_prefix_app in Hk. exact Hk.
Qed.

Lemma downto_in (n k : nat) : In k (downto n) <-> (k <= n)%nat.
Proof.
  induction n as [|n IH]; cbn [downto In].
  - split; [intros [<-|[]]; lia | intros H; left; lia].
  - rewrite IH. split; [intros [<-|H]; lia | intros H].
    destruct (Nat.eq_dec k (S n)) as [->|]; [left; reflexivity|right; lia].
Qed.

Lemma run_length_firstn (class : uchar -> bool) (s : unicode) :
  forall k, (k <= run_length class s)%nat -> forallb class (firstn k s) = true.
Proof.
  induction s as [|c s IH]; intros k Hk; cbn [run_length] in Hk.
  - destruct k; [reflexivity|lia].
  - destruct k as [|k]; [reflexivity|]. cbn [firstn forallb].
    destruct (class c); [|lia]. cbn [andb]. apply IH. lia.
Qed.

Lemma run_length_app (class : uchar -> bool) (body rest : unicode) :
  forallb class body = true -> (length body <= run_length class (body ++ rest))%nat.
Proof.
  induction body as [|c body IH]; cbn [forallb app run_length length]; [lia|].
  intros H. apply andb_prop in H. destruct H as [-> H]. apply IH in H. lia.
Qed.

Section Grammar.
Variable IPA : ipa.module.

Lemma matched_parts token group1 group2 group3 :
  _WORD_REGEXP IPA token = Some (group1, group2, group3) ->
  token_parts IPA token group1 group2 group3.
Proof.
  unfold _WORD_REGEXP. intros H.
  apply literal_some in H. destruct H as (opener & s1 & Hopener & -> & H).
  apply literal_some in H. destruct H as (content & s2 & Hcontent & -> & H).
  destruct s2 as [|c s3]; [discriminate|].
  destruct (_IPA_CHARACTERS IPA c) eqn:Hipa; cbn [negb] in H; [|discriminate].
  apply first_match_some in H. destruct H as (k & Hk & H).
  apply downto_in in Hk.
  apply literal_some in H. destruct H as (comma & s4 & Hcomma & Hs4 & H).
  apply literal_some in H. destruct H as (closer & s5 & Hcloser & -> & H).
  apply literal_some in H. destruct H as (stop & s6 & Hstop & -> & H).
  destruct (at_end s6) eqn:Hend; [|discriminate]. injection H as <- <- <-.
  assert (Hs3 : s3 = firstn k s3 ++ comma ++ closer ++ stop ++ s6)
    by (rewrite <- Hs4; symmetry; apply firstn_skipn).
  split.
  - remember (firstn k s3) as body eqn:Hbody. rewrite Hs3.
    destruct s6 as [|n [|n' s6]]; cbn [at_end] in Hend; [left|right|discriminate].
    + rewrite app_nil_r, <- !app_assoc. cbn [app]. rewrite <- !app_assoc.
      reflexivity.
    + unfold uchar_eqb in Hend. apply N.eqb_eq in Hend. subst n.
      rewrite <- !app_assoc. cbn [app]. rewrite <- !app_assoc. reflexivity.
  - exists opener, content, c, (firstn k s3), comma, closer, stop.
    repeat (split; [first [reflexivity | assumption]|]).
    split; [apply run_length_firstn; exact Hk|].
    repeat (split; [first [reflexivity | assumption]|]). assumption.
Qed.

(** X15: a token the matcher accepts is its three groups laid end to end,
    followed by at most one line feed, which the final dollar of the pattern
    lets through and no group holds; the groups have the shape the token
    grammar describes. *)
Theorem matched_token_parts token group1 group2 group3 :
  _WORD_REGEXP IPA token = Some (group1, group2, group3) ->
  token_parts IPA token group1 group2 group3.
Proof. apply matched_parts. Qed.

(** X16: every string of the grammar's shape is accepted by the matcher. *)
Theorem grammar_tokens_are_matched token group1 group2 group3 :
  token_parts IPA token group1 group2 group3 ->
  _WORD_REGEXP IPA token <> None.
Proof.
  intros (Htoken & opener & content & c & body & comma & closer & stop
          & -> & Hopener & Hcontent & -> & Hipa & Hbody & Hcomma & -> & Hcloser & Hstop).
  assert (Hend : exists ending,
             at_end ending = true
             /\ token = (opener ++ content) ++ (c :: body ++ comma)
                        ++ (closer ++ stop) ++ ending).
  { destruct Htoken as [->| ->]; [exists []|exists [c_newline]];
      (split; [reflexivity|]); rewrite <- ?app_assoc; [|reflexivity].
    cbn [app]. rewrite <- ?app_assoc, app_nil_r. reflexivity. }
  clear Htoken. destruct Hend as (ending & Hending & ->).
  intros Hnone. unfold _WORD_REGEXP in Hnone.
  pose proof (literal_none _ _ _ Hnone opener
                (content ++ (c :: body ++ comma) ++ (closer ++ stop) ++ ending)
                Hopener) as H1.
  rewrite <- app_assoc in H1. specialize (H1 eq_refl). cbv beta in H1.
  pose proof (literal_none _ _ _ H1 content
                ((c :: body ++ comma) ++ (closer ++ stop) ++ ending)
                Hcontent eq_refl) as H2.
  cbv beta in H2. cbn [app] in H2. rewrite Hipa in H2. cbn [negb] in H2.
  pose proof (first_match_none _ _ H2 (length body)) as H3. cbv beta in H3.
  rewrite <- !app_assoc in H3.
  assert (Hk : In (length body)
                  (downto (run_length (cluster_class IPA)
                             (body ++ comma ++ closer ++ stop ++ ending)))).
  { apply downto_in. apply run_length_app. exact Hbody. }
  specialize (H3 Hk).
  rewrite skipn_app, Nat.sub_diag, skipn_all in H3. cbn [skipn app] in H3.
  pose proof (literal_none _ _ _ H3 comma (closer ++ stop ++ ending) Hcomma
                eq_refl) as H4.
  cbv beta in H4.
  pose proof (literal_none _ _ _ H4 closer (stop ++ ending) Hcloser eq_refl) as H5.
  cbv beta in H5.
  pose proof (literal_none _ _ _ H5 stop ending Hstop eq_refl) as H6.
  cbv beta in H6. rewrite Hending in H6. discriminate.
Qed.

(** X17: a token with no IPA character in it is rejected: the empty token, bare
    punctuation, markup on its own. *)
Theorem token_without_ipa_is_rejected token :
  forallb (fun c => negb (_IPA_CHARACTERS IPA c)) token = true ->
  _WORD_REGEXP IPA token = None.
Proof.
  intros Hnone.
  destruct (_WORD_REGEXP IPA token) as [[[group1 group2] group3]|] eqn:Hmatch;
    [|reflexivity].
  apply matched_parts in Hmatch.
  destruct Hmatch as (Htoken & opener & content & c & body & comma & closer & stop
                      & _ & _ & _ & -> & Hipa & _).
  destruct Htoken as [->| ->];
    rewrite !forallb_app in Hnone; cbn [forallb] in Hnone;
    rewrite Hipa in Hnone; cbn [negb andb] in Hnone;
    rewrite andb_false_r in Hnone; discriminate.
Qed.

(** X18: the word kept for a matched token, its cluster with the markup
    characters filtered out, holds IPA characters only, and is not empty
    unless an IPA character doubles as a markup character. *)
Theorem filtered_cluster_is_ipa token group1 group2 group3 :
  _WORD_REGEXP IPA token = Some (group1, group2, group3) ->
  Forall (fun c => _IPA_CHARACTERS IPA c = true) (_FILTER_REGEXP group2)
  /\ ((forall c, _IPA_CHARACTERS IPA c = true -> _FILTER_REGEXP [c] = [c]) ->
      _FILTER_REGEXP group2 <> []).
Proof.
  intros Hmatch. apply matched_parts in Hmatch.
  destruct Hmatch as (_ & opener & content & c & body & comma & closer & stop
                      & _ & _ & _ & -> & Hipa & Hbody & Hcomma & _).
  split.
  - apply Forall_forall. intros x Hx. unfold _FILTER_REGEXP in Hx.
    apply filter_In in Hx. destruct Hx as [Hin Hkept].
    destruct Hin as [<-|Hin]; [exact Hipa|].
    apply in_app_or in Hin. destruct Hin as [Hin|Hin].
    + rewrite forallb_forall in Hbody. specialize (Hbody x Hin).
      unfold cluster_class in Hbody. cbn [existsb] in Hkept.
      destruct (uchar_eqb x c_minus); [rewrite !orb_true_r in Hkept; discriminate|].
      destruct (uchar_eqb x c_plus); [rewrite !orb_true_r in Hkept; discriminate|].
      destruct (uchar_eqb x c_less); [rewrite !orb_true_r in Hkept; discriminate|].
      destruct (uchar_eqb x c_greater); [rewrite !orb_true_r in Hkept; discriminate|].
      exact Hbody.
    + destruct Hcomma as [<-|[<-|[]]]; [|destruct Hin].
      destruct Hin as [<-|[]]. discriminate.
  - intros Hclean. specialize (Hclean c Hipa).
    unfold _FILTER_REGEXP in *. cbn [filter] in *.
    destruct (negb _); [discriminate|discriminate].
Qed.

End Grammar.
End TokenFacts.


(** ** More on sentences and words *)

Module SentenceFacts.
Import Py transform Spec Terms TokenFacts.

Section Sentences.
Variable IPA : ipa.module.

Lemma extract_words_spec (tokens : list unicode) :
  forall sentence_number ws mk quotation emphasis words markup rest,
    extract_words IPA tokens sentence_number ws mk quotation emphasis
    = Ok ((words, markup), rest) ->
    exists taken,
      tokens = taken ++ rest
      /\ map fst words = map fst ws ++ map (cluster_of IPA) taken
      /\ forallb (well_formed IPA) taken = true
      /\ ((rest = []
           /\ forallb (fun t => negb (ends_sentence IPA t)) taken = true
           /\ markup = mk)
          \/ exists before final,
               taken = before ++ [final]
               /\ forallb (fun t => negb (ends_sentence IPA t)) before = true
               /\ ends_sentence IPA final = true
               /\ markup
                  = mk ++ (if contains (closing_of IPA final) c_period then []
                           else (if contains (closing_of IPA final) c_question
                                 then [_SENTENCE_QUESTION] else [])
                                ++ (if contains (closing_of IPA final) c_exclamation
                                    then [_SENTENCE_EXCLAMATION] else []))).
Proof.
  induction tokens as [|token tokens IH];
    intros sentence_number ws mk quotation emphasis words markup rest H.
  - cbn [extract_words] in H. injection H as <- <- <-.
    exists [].
    split; [reflexivity|]. split; [cbn [map]; rewrite app_nil_r; reflexivity|].
    split; [reflexivity|].
    left. split; [reflexivity|]. split; reflexivity.
  - cbn [extract_words] in H.
    destruct (_WORD_REGEXP IPA token) as [[[group1 group2] group3]|] eqn:Hmatch;
      [|discriminate].
    assert (Hwf : well_formed IPA token = true)
      by (unfold well_formed; rewrite Hmatch; reflexivity).
    assert (Hcluster : cluster_of IPA token = group2)
      by (unfold cluster_of; rewrite Hmatch; reflexivity).
    assert (Hclosing : closing_of IPA token = group3)
      by (unfold closing_of; rewrite Hmatch; reflexivity).
    assert (Hends : ends_sentence IPA token
                    = contains group3 c_period || contains group3 c_question
                      || contains group3 c_exclamation)
      by (unfold ends_sentence; rewrite Hmatch; reflexivity).
    cbv zeta in H.
    destruct (contains group3 c_period) eqn:Hperiod;
      [|destruct (contains group3 c_question) eqn:Hquestion;
        [|destruct (contains group3 c_exclamation) eqn:Hexclamation]].
    1-3: injection H as <- <- <-; exists [token]; split; [reflexivity|];
      split; [rewrite map_app; cbn [map fst]; rewrite Hcluster; reflexivity|];
      split; [cbn [forallb]; rewrite Hwf; reflexivity|];
      right; exists [], token; split; [reflexivity|];
      split; [reflexivity|]; split; [rewrite Hends; reflexivity|];
      rewrite Hclosing, Hperiod.
    + rewrite app_nil_r. reflexivity.
    + rewrite Hquestion. destruct (contains group3 c_exclamation);
        rewrite <- ?app_assoc; cbn [app]; rewrite ?app_nil_r; reflexivity.
    + rewrite Hquestion, Hexclamation. cbn [app]. reflexivity.
    + apply IH in H.
      destruct H as (taken & -> & Hwords & Hall & Hcases).
      exists (token :: taken). split; [reflexivity|].
      split.
      { rewrite Hwords, map_app. cbn [map fst]. rewrite Hcluster, <- app_assoc.
        reflexivity. }
      split; [cbn [forallb]; rewrite Hwf, Hall; reflexivity|].
      assert (Hnot : negb (ends_sentence IPA token) = true)
        by (rewrite Hends; reflexivity).
      destruct Hcases as [(-> & Hnone & ->)|(before & final & -> & Hnone & Hfinal & ->)].
      * left. split; [reflexivity|]. split; [|reflexivity].
        cbn [forallb]. rewrite Hnot, Hnone. reflexivity.
      * right. exists (token :: before), final. split; [reflexivity|].
        split; [cbn [forallb]; rewrite Hnot, Hnone; reflexivity|].
        split; [exact Hfinal|reflexivity].
Qed.

(** X19: a sentence takes tokens from the front of the queue up to and including
    the first one with terminal punctuation, or all of them when none has
    any: one word per token taken, holding the token's phoneme cluster; a
    non-empty queue always gives up at least one token. *)
Theorem sentence_ends_at_first_terminal tokens sentence_number words markup rest :
  _extractSentence IPA tokens sentence_number = Ok ((words, markup), rest) ->
  exists taken,
    tokens = taken ++ rest
    /\ map fst words = map (cluster_of IPA) taken
    /\ forallb (well_formed IPA) taken = true
    /\ forallb (fun t => negb (ends_sentence IPA t)) (removelast taken) = true
    /\ (rest <> [] -> ends_sentence IPA (last taken []) = true)
    /\ (tokens <> [] -> taken <> []).
Proof.
  intros H. apply extract_words_spec in H.
  destruct H as (taken & -> & Hwords & Hall & Hcases).
  exists taken. split; [reflexivity|]. split; [exact Hwords|].
  split; [exact Hall|].
  destruct Hcases as [(-> & Hnone & _)|(before & final & -> & Hnone & Hfinal & _)].
  - split; [|split].
    + apply forallb_forall. intros t Ht. rewrite forallb_forall in Hnone.
      apply Hnone. clear - Ht. induction taken as [|x [|y l] IH]; [destruct Ht|destruct Ht|].
      cbn [removelast] in Ht. destruct Ht as [<-|Ht]; [left; reflexivity|].
      right. apply IH. exact Ht.
    + intros Hrest. contradiction Hrest. reflexivity.
    + rewrite app_nil_r. intros Htokens. exact Htokens.
  - rewrite removelast_last, last_last. split; [exact Hnone|].
    split; [intros _; exact Hfinal|].
    intros _ Hempty. destruct before; discriminate.
Qed.

Lemma closing_marks token :
  contains (closing_of IPA token) c_period = true ->
  contains (closing_of IPA token) c_question = false
  /\ contains (closing_of IPA token) c_exclamation = false.
Proof.
  unfold closing_of.
  destruct (_WORD_REGEXP IPA token) as [[[group1 group2] group3]|] eqn:Hmatch;
    [|discriminate].
  apply matched_parts in Hmatch.
  destruct Hmatch as (_ & opener & content & c & body & comma & closer & stop
                      & _ & _ & _ & _ & _ & _ & _ & -> & Hcloser & Hstop).
  cbn [quote_emphasis terminal In] in Hcloser, Hstop.
  repeat (destruct Hcloser as [<-|Hcloser]); try destruct Hcloser;
    repeat (destruct Hstop as [<-|Hstop]); try destruct Hstop;
    vm_compute; intros Hperiod; try discriminate; split; reflexivity.
Qed.

(** X20: the flags of a sentence are read off the closing markup of its last
    token: the question flag is set exactly when that holds a question
    mark, the exclamation flag exactly when it holds an exclamation mark. *)
Theorem sentence_flags_from_last_token before final rest sentence_number words markup :
  _extractSentence IPA (before ++ final :: rest) sentence_number
  = Ok ((words, markup), rest) ->
  has_flag _SENTENCE_QUESTION markup = contains (closing_of IPA final) c_question
  /\ has_flag _SENTENCE_EXCLAMATION markup
     = contains (closing_of IPA final) c_exclamation.
Proof.
  intros H. apply extract_words_spec in H.
  destruct H as (taken & Htokens & _ & _ & Hcases).
  assert (Htaken : taken = before ++ [final]).
  { change (final :: rest) with ([final] ++ rest) in Htokens.
    rewrite app_assoc in Htokens. apply app_inv_tail in Htokens.
    symmetry. exact Htokens. }
  subst taken.
  assert (Hquiet : ends_sentence IPA final = false ->
                   contains (closing_of IPA final) c_question = false
                   /\ contains (closing_of IPA final) c_exclamation = false).
  { unfold ends_sentence, closing_of.
    destruct (_WORD_REGEXP IPA final) as [[[group1 group2] group3]|];
      [|split; reflexivity].
    intros Hends. apply orb_false_elim in Hends. destruct Hends as [Hends ->].
    apply orb_false_elim in Hends. destruct Hends as [_ ->]. split; reflexivity. }
  destruct Hcases as [(_ & Hnone & ->)|(before' & final' & Hsplit & _ & _ & ->)].
  - rewrite forallb_app in Hnone. apply andb_prop in Hnone.
    destruct Hnone as [_ Hnone]. cbn [forallb] in Hnone.
    rewrite andb_true_r in Hnone. apply negb_true_iff in Hnone.
    destruct (Hquiet Hnone) as [-> ->]. split; reflexivity.
  - apply app_inj_tail in Hsplit. destruct Hsplit as [_ <-].
    cbn [app].
    destruct (contains (closing_of IPA final) c_period) eqn:Hperiod.
    + destruct (closing_marks final Hperiod) as [-> ->]. split; reflexivity.
    + destruct (contains (closing_of IPA final) c_question),
               (contains (closing_of IPA final) c_exclamation);
        split; reflexivity.
Qed.

Lemma extract_words_returns (tokens : list unicode) :
  forall sentence_number ws mk quotation emphasis,
    extract_words IPA tokens sentence_number ws mk quotation emphasis <> Diverge.
Proof.
  induction tokens as [|token tokens IH];
    intros sentence_number ws mk quotation emphasis; cbn [extract_words].
  - discriminate.
  - destruct (_WORD_REGEXP IPA token) as [[[group1 group2] group3]|];
      [|discriminate].
    cbv zeta.
    destruct (contains group3 c_period); [discriminate|].
    destruct (contains group3 c_question); [discriminate|].
    destruct (contains group3 c_exclamation); [discriminate|].
    apply IH.
Qed.

Lemma extract_sentences_spec (fuel : nat) :
  forall tokens sentences,
    (length tokens <= fuel)%nat ->
    extract_sentences IPA fuel tokens sentences <> Diverge
    /\ forall result,
         extract_sentences IPA fuel tokens sentences = Ok result ->
         exists new,
           result = sentences ++ new
           /\ concat (map (fun s : sentence => map fst (fst s)) new)
              = map (cluster_of IPA) tokens
           /\ Forall (fun s : sentence => fst s <> []) new.
Proof.
  induction fuel as [|fuel IH]; intros tokens sentences Hfuel.
  - destruct tokens; [|cbn [length] in Hfuel; lia].
    cbn [extract_sentences]. split; [discriminate|].
    intros result H. injection H as <-. exists []. rewrite app_nil_r.
    repeat split. constructor.
  - destruct tokens as [|token tokens].
    { cbn [extract_sentences]. split; [discriminate|].
      intros result H. injection H as <-. exists []. rewrite app_nil_r.
      repeat split. constructor. }
    cbn [extract_sentences].
    destruct (_extractSentence IPA (token :: tokens) (len sentences + 1))
      as [[[words markup] rest]| |] eqn:Hsentence.
    + pose proof Hsentence as Hspec. apply extract_words_spec in Hspec.
      destruct Hspec as (taken & Htokens & Hwords & _ & Hcases).
      assert (Htaken : taken <> []).
      { destruct Hcases as [(-> & _)|(before & final & -> & _)].
        - rewrite app_nil_r in Htokens. rewrite <- Htokens. discriminate.
        - destruct before; discriminate. }
      assert (Hrest : (length rest <= fuel)%nat).
      { apply (f_equal (@length _)) in Htokens. rewrite length_app in Htokens.
        cbn [length] in Htokens, Hfuel. destruct taken; [contradiction Htaken; reflexivity|].
        cbn [length] in Htokens. lia. }
      cbn [bind].
      destruct (IH rest (sentences ++ [(words, markup)]) Hrest) as [Hreturns Hok].
      split; [exact Hreturns|].
      intros result H. apply Hok in H. destruct H as (new & -> & Hclusters & Hall).
      exists ((words, markup) :: new). split; [rewrite <- app_assoc; reflexivity|].
      split.
      * rewrite Htokens, map_app. cbn [map concat fst].
        rewrite Hclusters, Hwords. reflexivity.
      * constructor; [|exact Hall]. cbn [fst].
        intros ->. cbn [map] in Hwords. destruct taken; [contradiction Htaken; reflexivity|].
        discriminate.
    + cbn [bind]. split; [discriminate|]. intros result H. discriminate.
    + exfalso. exact (extract_words_returns _ _ _ _ _ _ Hsentence).
Qed.

(** X21: the sentence loop of paragraphToSound ends, every token costing at
    most one round; when it succeeds, the clusters of the sentences' words,
    read in order, are the clusters of the paragraph's tokens, none lost or
    added, and no sentence is empty. *)
Theorem sentences_partition_the_tokens tokens :
  extract_sentences IPA (length tokens) tokens [] <> Diverge
  /\ forall sentences,
       extract_sentences IPA (length tokens) tokens [] = Ok sentences ->
       concat (map (fun s : sentence => map fst (fst s)) sentences)
       = map (cluster_of IPA) tokens
       /\ Forall (fun s : sentence => fst s <> []) sentences.
Proof.
  destruct (extract_sentences_spec (length tokens) tokens [] (le_n _))
    as [Hreturns Hok].
  split; [exact Hreturns|].
  intros sentences H. apply Hok in H. destruct H as (new & -> & Hclusters & Hall).
  split; assumption.
Qed.

End Sentences.
End SentenceFacts.

Module WordFacts.
Import Py transform Spec Terms.

Lemma collapse_extensions_symbols (ipa_tokens : list unicode) :
  forall subject duration_multiplier pitch_multiplier phonemes,
    map symbol_of
      (collapse_extensions ipa_tokens subject duration_multiplier
         pitch_multiplier phonemes)
    = map symbol_of phonemes
      ++ subject :: filter (fun t => negb (is_extension t)) ipa_tokens.
Proof.
  induction ipa_tokens as [|i rest IH];
    intros subject duration_multiplier pitch_multiplier phonemes;
    cbn [collapse_extensions filter].
  - rewrite map_app. reflexivity.
  - unfold is_extension.
    destruct (unicode_eqb i [c_greater]); [cbn [orb negb]; apply IH|].
    destruct (unicode_eqb i [c_less]); [cbn [orb negb]; apply IH|].
    destruct (unicode_eqb i [c_plus]); [cbn [orb negb]; apply IH|].
    destruct (unicode_eqb i [c_minus]); [cbn [orb negb]; apply IH|].
    cbn [orb negb]. rewrite IH, map_app, <- app_assoc. reflexivity.
Qed.

(** X22: the phonemes of a word are its first symbol and, in order, every later
    symbol that is not an extension mark: the marks only change multipliers
    and never become phonemes, every other symbol becomes exactly one. *)
Theorem extensions_never_become_phonemes ipa_tokens subject :
  map symbol_of
    (collapse_extensions ipa_tokens subject 1.0%float 1.0%float [])
  = subject :: filter (fun t => negb (is_extension t)) ipa_tokens.
Proof. apply collapse_extensions_symbols. Qed.

Lemma endswith_last (s : unicode) (c d : uchar) :
  endswith (s ++ [d]) c = uchar_eqb d c.
Proof. unfold endswith. rewrite rev_app_distr. reflexivity. Qed.

Lemma slice_to_drops_last {A : Type} (l : list A) (x : A) :
  slice_to (l ++ [x]) (-1) = l.
Proof.
  unfold slice_to. cbn [Z.ltb Z.compare]. unfold len.
  rewrite length_app. cbn [length].
  replace (Z.to_nat (Z.of_nat (length l + 1) + -1)) with (length l) by lia.
  rewrite firstn_app, Nat.sub_diag, firstn_all. cbn [firstn].
  apply app_nil_r.
Qed.

Section Words.
Variable IPA : ipa.module.
Variable RULE_FUNCTIONS : list language_rules.rule.
Variables math_cos math_e_pow : float -> result float.
Variable random_uniform : nat -> float.

(** X23: a cluster with a comma at its end sounds as the cluster without it,
    followed by 2500 zero samples, a quarter of a second; the noise
    accumulator is reset after the word. *)
Theorem comma_adds_quarter_second token markup position remaining previous
        following sentence_position_ remaining_sentences_ is_question_
        is_exclamation_ opts synthesizer :
  endswith token c_comma = false ->
  _wordToSound IPA RULE_FUNCTIONS math_cos math_e_pow random_uniform
    (token ++ [c_comma], markup) position remaining previous following
    sentence_position_ remaining_sentences_ is_question_ is_exclamation_ opts
    synthesizer
  = ('(synthesizer', sounds) <-
       _wordToSound IPA RULE_FUNCTIONS math_cos math_e_pow random_uniform
         (token, markup) position remaining previous following
         sentence_position_ remaining_sentences_ is_question_ is_exclamation_
         opts synthesizer ;;
     Ok (parwave.set_noise synthesizer' 0%float (parwave.rng_calls synthesizer'),
         sounds ++ repeat 0 2500)).
Proof.
  intros Hplain. unfold _wordToSound. cbv zeta.
  rewrite endswith_last, Hplain, slice_to_drops_last.
  change (uchar_eqb c_comma c_comma) with true. cbv iota.
  destruct (getitem (ipa.reduceIPAClusters IPA token) 0) as [subject| |];
    cbn [bind]; [|reflexivity|reflexivity].
  destruct (phonemes_to_sound _ _ _ _ _ _ _ _ _ _ _)
    as [[synthesizer1 sounds]| |]; cbn [bind]; reflexivity.
Qed.

(** X24: a paragraph of white space only, the empty one included, gives no
    segments at all, not even the half second of silence, and leaves the
    synthesizer as it was but for the noise accumulator, reset to 0.0. *)
Theorem blank_paragraph_gives_nothing paragraph opts synthesizer :
  forallb isspace paragraph = true ->
  paragraphToSound IPA RULE_FUNCTIONS math_cos math_e_pow random_uniform
    paragraph opts synthesizer
  = Ok (parwave.set_noise synthesizer 0%float (parwave.rng_calls synthesizer), []).
Proof.
  intros Hblank.
  assert (Hsplit : split paragraph = []).
  { unfold split. induction paragraph as [|c paragraph IH]; [reflexivity|].
    cbn [forallb] in Hblank. apply andb_prop in Hblank.
    destruct Hblank as [Hc Hrest]. cbn [split_from]. rewrite Hc.
    apply IH. exact Hrest. }
  unfold paragraphToSound. cbv zeta. rewrite Hsplit. reflexivity.
Qed.

End Words.
End WordFacts.


(** ** What reaches the wave file *)

Module OutputFacts.
Import Py parwave transform Spec Terms.

Section Range.
Variable IPA : ipa.module.
Variable RULE_FUNCTIONS : list language_rules.rule.
Variables math_cos math_e_pow : float -> result float.
Variable random_uniform : nat -> float.

Lemma synthesize_range self parameters f0_multiplier turbo_ self' sounds :
  synthesize math_cos math_e_pow random_uniform self parameters f0_multiplier
    turbo_ = Ok (self', sounds) ->
  Forall in_range sounds.
Proof.
  unfold parwave.synthesize. intros H. bind_inv H.
  destruct a as [[[self1 buf] how] target].
  apply ParwaveFacts.sample_run_inv in Hstep.
  destruct Hstep as (period & fr & self0 & _ & _ & _ & _ & _ & Hloop).
  apply ParwaveFacts.sample_loop_range in Hloop; [|constructor].
  destruct how.
  - injection H as <- <-. exact Hloop.
  - bind_inv H. injection H as <- <-.
    eapply ParwaveFacts.turbo_fill_range; eauto.
Qed.

Lemma synthesize_sounds_range frames :
  forall pitch opts synthesizer sounds synthesizer' out,
    synthesize_sounds math_cos math_e_pow random_uniform frames pitch opts
      synthesizer sounds = Ok (synthesizer', out) ->
    Forall in_range sounds -> Forall in_range out.
Proof.
  induction frames as [|[parameters_ f0_multiplier] rest IH];
    intros pitch opts synthesizer sounds synthesizer' out H Hsounds;
    cbn [synthesize_sounds] in H.
  - injection H as <- <-. exact Hsounds.
  - bind_inv H. rename a into f0. bind_inv H. destruct a as [synthesizer1 samples].
    apply IH in H; [exact H|].
    apply Forall_app. split; [exact Hsounds|].
    eapply synthesize_range. exact Hstep0.
Qed.

Lemma phonemeToSound_range phoneme_ preceding following wc opts synthesizer
      synthesizer' out :
  _phonemeToSound IPA RULE_FUNCTIONS math_cos math_e_pow random_uniform phoneme_
    preceding following wc opts synthesizer = Ok (synthesizer', out) ->
  Forall in_range out.
Proof.
  unfold _phonemeToSound. destruct phoneme_ as [[ipa_character duration] pitch].
  intros H. bind_inv H. destruct a as [parameters_ regions_].
  bind_inv H. bind_inv H. bind_inv H. bind_inv H. bind_inv H. bind_inv H.
  bind_inv H. destruct a5 as [parameters_list f0_multipliers].
  apply synthesize_sounds_range in H; [exact H|constructor].
Qed.

Lemma phonemes_to_sound_range after :
  forall before wc opts synthesizer sounds synthesizer' out,
    phonemes_to_sound IPA RULE_FUNCTIONS math_cos math_e_pow random_uniform
      before after wc opts synthesizer sounds = Ok (synthesizer', out) ->
    Forall in_range sounds -> Forall in_range out.
Proof.
  induction after as [|phoneme_ rest IH];
    intros before wc opts synthesizer sounds synthesizer' out H Hsounds;
    cbn [phonemes_to_sound] in H.
  - injection H as <- <-. exact Hsounds.
  - bind_inv H. destruct a as [synthesizer1 samples].
    apply IH in H; [exact H|].
    apply Forall_app. split; [exact Hsounds|].
    eapply phonemeToSound_range. exact Hstep.
Qed.

Lemma zeros_in_range (n : nat) : Forall in_range (repeat 0 n).
Proof.
  apply Forall_forall. intros x Hx. apply repeat_spec in Hx. subst x.
  unfold in_range. lia.
Qed.

Lemma generateSilence_range self milliseconds self' silence :
  generateSilence self milliseconds = Ok (self', silence) ->
  Forall in_range silence.
Proof.
  unfold generateSilence. cbv zeta. intros H. bind_inv H.
  injection H as <- <-. apply zeros_in_range.
Qed.

Lemma wordToSound_range word_ position remaining previous following
      sentence_position_ remaining_sentences_ is_question_ is_exclamation_ opts
      synthesizer synthesizer' out :
  _wordToSound IPA RULE_FUNCTIONS math_cos math_e_pow random_uniform word_
    position remaining previous following sentence_position_
    remaining_sentences_ is_question_ is_exclamation_ opts synthesizer
  = Ok (synthesizer', out) ->
  Forall in_range out.
Proof.
  unfold _wordToSound. destruct word_ as [token markup]. cbv zeta.
  intros H. bind_inv H. rename a into subject.
  bind_inv H. destruct a as [synthesizer1 sounds].
  apply phonemes_to_sound_range in Hstep0; [|constructor].
  destruct (endswith token c_comma).
  - bind_inv H. destruct a as [synthesizer2 silence]. injection H as <- <-.
    apply Forall_app. split; [exact Hstep0|].
    eapply generateSilence_range. exact Hstep1.
  - injection H as <- <-. exact Hstep0.
Qed.

Lemma words_to_sound_range todo :
  forall i total filtered position remaining_sentences_ is_question_
         is_exclamation_ opts synthesizer sounds synthesizer' out,
    words_to_sound IPA RULE_FUNCTIONS math_cos math_e_pow random_uniform i todo
      total filtered position remaining_sentences_ is_question_ is_exclamation_
      opts synthesizer sounds = Ok (synthesizer', out) ->
    Forall in_range sounds -> Forall in_range out.
Proof.
  induction todo as [|word_ rest IH];
    intros i total filtered position remaining_sentences_ is_question_
      is_exclamation_ opts synthesizer sounds synthesizer' out H Hsounds;
    cbn [words_to_sound] in H.
  - injection H as <- <-. exact Hsounds.
  - bind_inv H. destruct a as [synthesizer1 samples].
    apply IH in H; [exact H|].
    apply Forall_app. split; [exact Hsounds|].
    eapply wordToSound_range. exact Hstep.
Qed.

Lemma sentences_to_sound_range todo :
  forall i total silence opts synthesizer sounds synthesizer' segments,
    sentences_to_sound IPA RULE_FUNCTIONS math_cos math_e_pow random_uniform
      i todo total silence opts synthesizer sounds = Ok (synthesizer', segments) ->
    Forall in_range silence ->
    Forall (Forall in_range) sounds -> Forall (Forall in_range) segments.
Proof.
  induction todo as [|sentence_ rest IH];
    intros i total silence opts synthesizer sounds synthesizer' segments H
      Hsilence Hsounds; cbn [sentences_to_sound] in H.
  - injection H as <- <-. exact Hsounds.
  - bind_inv H. destruct a as [synthesizer1 samples].
    apply IH in H; [exact H|exact Hsilence|].
    apply Forall_app. split; [exact Hsounds|].
    constructor; [|constructor; [exact Hsilence|constructor]].
    unfold _sentenceToSound in Hstep.
    destruct sentence_ as [words markup].
    apply words_to_sound_range in Hstep; [exact Hstep|constructor].
Qed.

(** X25: every sample of every segment paragraphToSound returns lies in the
    signed 16-bit range, for any paragraph, ruleset and options. *)
Theorem paragraph_samples_in_16_bit_range paragraph opts synthesizer
        synthesizer' segments :
  paragraphToSound IPA RULE_FUNCTIONS math_cos math_e_pow random_uniform
    paragraph opts synthesizer = Ok (synthesizer', segments) ->
  Forall (Forall in_range) segments.
Proof.
  unfold paragraphToSound. cbv zeta. intros H. bind_inv H.
  change (generateSilence synthesizer (Int 500))
    with (Ok (set_noise synthesizer 0%float (rng_calls synthesizer),
              repeat 0 5000)) in H.
  cbn [bind] in H.
  apply sentences_to_sound_range in H;
    [exact H|apply zeros_in_range|constructor].
Qed.

End Range.

Lemma pack_h_in_range sample :
  in_range sample -> exists low high, waveform.pack_h sample = inr [low; high].
Proof.
  unfold in_range, waveform.pack_h. intros [Hlow Hhigh].
  apply Z.leb_le in Hlow, Hhigh. rewrite Hlow, Hhigh. cbn [andb].
  eexists. eexists. reflexivity.
Qed.

Lemma pack_h_out_of_range sample :
  ~ in_range sample -> waveform.pack_h sample = inl waveform.struct_error.
Proof.
  unfold in_range, waveform.pack_h. intros Hout.
  destruct (-32768 <=? sample) eqn:Hlow; [|reflexivity].
  destruct (sample <=? 32767) eqn:Hhigh; [|reflexivity].
  apply Z.leb_le in Hlow, Hhigh. contradiction Hout. split; assumption.
Qed.

Lemma pack_all_in_range samples :
  Forall in_range samples ->
  exists chunks,
    waveform.pack_all samples = inr chunks
    /\ len (concat chunks) = 2 * len samples.
Proof.
  induction 1 as [|sample rest Hsample Hrest IH].
  - exists []. split; reflexivity.
  - destruct IH as (chunks & Hchunks & Hlen).
    destruct (pack_h_in_range sample Hsample) as (low & high & Hpack).
    exists ([low; high] :: chunks). cbn [waveform.pack_all].
    rewrite Hpack, Hchunks. split; [reflexivity|].
    cbn [concat]. unfold len in *. rewrite length_app. cbn [length]. lia.
Qed.

Lemma pack_all_out_of_range samples :
  ~ Forall in_range samples ->
  waveform.pack_all samples = inl waveform.struct_error.
Proof.
  induction samples as [|sample rest IH]; intros Hout.
  - contradiction Hout. constructor.
  - cbn [waveform.pack_all].
    destruct (waveform.pack_h sample) as [e|bytes] eqn:Hpack.
    + unfold waveform.pack_h in Hpack.
      destruct (_ && _) in Hpack; [discriminate|].
      injection Hpack as <-. reflexivity.
    + rewrite IH; [reflexivity|].
      intros Hrest. apply Hout. constructor; [|exact Hrest].
      unfold waveform.pack_h in Hpack. unfold in_range.
      destruct (-32768 <=? sample) eqn:Hlow; [|discriminate].
      destruct (sample <=? 32767) eqn:Hhigh; [|discriminate].
      apply Z.leb_le in Hlow, Hhigh. split; assumption.
Qed.

(** X26: on a wave form that is not finalized, addSamples is all or nothing:
    when every sample is in the signed 16-bit range it writes two bytes for
    each and leaves the wave form open; when any one is not, it raises
    struct.error and leaves the wave form as it was: none of the samples is
    written, not even those before the offending one. *)
Theorem addSamples_all_or_nothing wave_form samples :
  waveform._finalized wave_form = false ->
  (Forall in_range samples ->
   exists wave_form',
     waveform.addSamples wave_form samples = (wave_form', None)
     /\ waveform._finalized wave_form' = false
     /\ bytes_written wave_form' = bytes_written wave_form + 2 * len samples)
  /\ (~ Forall in_range samples ->
      waveform.addSamples wave_form samples
      = (wave_form, Some waveform.struct_error)).
Proof.
  intros Hopen. unfold waveform.addSamples. rewrite Hopen. split.
  - intros Hall. destruct (pack_all_in_range samples Hall) as (chunks & -> & Hlen).
    eexists. split; [reflexivity|]. split; [reflexivity|].
    unfold bytes_written in *. cbn [waveform._wavefile waveform.writeframes waveform.frames].
    unfold len in *. rewrite length_app. lia.
  - intros Hout. rewrite (pack_all_out_of_range samples Hout). reflexivity.
Qed.

Lemma add_segments_in_range segments :
  Forall (Forall in_range) segments ->
  forall wave_form,
    waveform._finalized wave_form = false ->
    exists wave_form',
      klatt.add_segments wave_form segments = (wave_form', None)
      /\ waveform._finalized wave_form' = false
      /\ bytes_written wave_form'
         = bytes_written wave_form + 2 * len (concat segments).
Proof.
  induction 1 as [|segment rest Hsegment Hrest IH]; intros wave_form Hopen.
  - exists wave_form. split; [reflexivity|]. split; [exact Hopen|].
    cbn [concat]. unfold len. cbn [length]. lia.
  - cbn [klatt.add_segments]. unfold waveform.addSamples. rewrite Hopen.
    destruct (pack_all_in_range segment Hsegment) as (chunks & -> & Hlen).
    match goal with
    | |- context [klatt.add_segments ?w rest] =>
        destruct (IH w eq_refl) as (wave_form' & Hadd & Hopen' & Hbytes)
    end.
    exists wave_form'. split; [exact Hadd|]. split; [exact Hopen'|].
    rewrite Hbytes. unfold bytes_written.
    cbn [waveform._wavefile waveform.writeframes waveform.frames concat].
    unfold len in *. rewrite !length_app. lia.
Qed.

Section Written.
Variable IPA : ipa.module.
Variable RULE_FUNCTIONS : list language_rules.rule.
Variables math_cos math_e_pow : float -> result float.
Variable random_uniform : nat -> float.

(** X27: whatever paragraphToSound returns can be written: handing its segments
    one by one to a wave form that is not finalized never raises, and adds
    two bytes for every sample of every segment. *)
Theorem paragraph_is_written_whole paragraph opts synthesizer synthesizer'
        segments wave_form :
  paragraphToSound IPA RULE_FUNCTIONS math_cos math_e_pow random_uniform
    paragraph opts synthesizer = Ok (synthesizer', segments) ->
  waveform._finalized wave_form = false ->
  exists wave_form',
    klatt.add_segments wave_form segments = (wave_form', None)
    /\ waveform._finalized wave_form' = false
    /\ bytes_written wave_form'
       = bytes_written wave_form + 2 * len (concat segments).
Proof.
  intros H Hopen. apply add_segments_in_range; [|exact Hopen].
  unfold paragraphToSound in H. cbv zeta in H. bind_inv H.
  change (generateSilence synthesizer (Int 500))
    with (Ok (set_noise synthesizer 0%float (rng_calls synthesizer),
              repeat 0 5000)) in H.
  cbn [bind] in H.
  eapply sentences_to_sound_range in H;
    [exact H|apply zeros_in_range|constructor].
Qed.

End Written.
End OutputFacts.


(** ** The Canadian English rules *)

Module CanadianFacts.
Import Py universal_rules language_rules english_canadian Spec Terms.

Lemma same_but_refl fields p : same_but fields p p.
Proof. split; [reflexivity|]. intros i _. reflexivity. Qed.

Lemma same_but_trans fields p q r :
  same_but fields p q -> same_but fields q r -> same_but fields p r.
Proof.
  intros [Hlen1 Hnth1] [Hlen2 Hnth2]. split; [congruence|].
  intros i Hi. rewrite Hnth2, Hnth1; [reflexivity|exact Hi|exact Hi].
Qed.

Lemma replace_nth_length {A : Type} (l : list A) :
  forall n x, length (replace_nth l n x) = length l.
Proof.
  induction l as [|y l IH]; intros n x; [reflexivity|].
  destruct n; cbn [replace_nth length]; [reflexivity|]. rewrite IH. reflexivity.
Qed.

Lemma replace_nth_other {A : Type} (l : list A) :
  forall n x i, i <> n -> nth_error (replace_nth l n x) i = nth_error l i.
Proof.
  induction l as [|y l IH]; intros n x i Hi; [reflexivity|].
  destruct n, i; cbn [replace_nth nth_error]; try reflexivity.
  - contradiction Hi. reflexivity.
  - apply IH. intros ->. apply Hi. reflexivity.
Qed.

Lemma update_touched p i f q :
  update p i f = Ok q ->
  0 <= i -> In (Z.to_nat i) touched -> same_but touched p q.
Proof.
  unfold update. intros H Hi Hin. bind_inv H. bind_inv H.
  unfold setitem in H. apply Z.ltb_ge in Hi. rewrite Hi in H.
  cbv zeta in H. rewrite Hi in H. cbn [orb] in H.
  destruct (len p <=? i); [discriminate|]. injection H as <-.
  split; [apply replace_nth_length|].
  intros j Hj. apply replace_nth_other. intros ->. apply Hj. exact Hin.
Qed.

Ltac chain :=
  repeat match goal with
    | H : imul ?p _ _ = Ok ?q |- same_but touched _ ?q =>
        apply (same_but_trans _ _ p);
        [|apply (update_touched _ _ _ _ H); [lia|cbn; tauto]]
    | H : iadd ?p _ _ = Ok ?q |- same_but touched _ ?q =>
        apply (same_but_trans _ _ p);
        [|apply (update_touched _ _ _ _ H); [lia|cbn; tauto]]
    | H : update ?p _ _ = Ok ?q |- same_but touched _ ?q =>
        apply (same_but_trans _ _ p);
        [|apply (update_touched _ _ _ _ H); [lia|cbn; tauto]]
    end;
  try apply same_but_refl.

Ltac open_rule H :=
  repeat match type of H with
    | (if ?b then _ else _) = Ok _ => destruct b eqn:?
    | bind _ _ = Ok _ => bind_inv H
    | plain _ _ = Ok _ => unfold plain in H
    | match ?l with [] => _ | _ :: _ => _ end = Ok _ => destruct l eqn:?
    end;
  try discriminate;
  try (injection H as <-; cbn [preceding_params following_params modified];
       split; [reflexivity|]; split; [reflexivity|]; chain).

Section Quiet.
Variable IPA : ipa.module.
Variable float_pow : float -> float -> result float.

Lemma amplifyContent_quiet : quiet (_amplifyContent IPA).
Proof. intros ctx previous remaining preceding following p o H.
  unfold _amplifyContent in H. open_rule H. Qed.

Lemma degradePitch_quiet : quiet (_degradePitch float_pow).
Proof. intros ctx previous remaining preceding following p o H.
  unfold _degradePitch in H. open_rule H. Qed.

Lemma emphasizeSpeech_quiet : quiet (_emphasizeSpeech IPA).
Proof. intros ctx previous remaining preceding following p o H.
  unfold _emphasizeSpeech in H. open_rule H. Qed.

Lemma exclaim_quiet : quiet (_exclaim IPA).
Proof. intros ctx previous remaining preceding following p o H.
  unfold _exclaim in H. open_rule H. Qed.

Lemma inflectQuestionPitch_quiet : quiet (_inflectQuestionPitch IPA float_pow).
Proof. intros ctx previous remaining preceding following p o H.
  unfold _inflectQuestionPitch, inflect_tail in H. open_rule H. Qed.

Lemma lengthenTerminal_quiet : quiet (_lengthenTerminal IPA).
Proof. intros ctx previous remaining preceding following p o H.
  unfold _lengthenTerminal in H. open_rule H. Qed.

Lemma quoteSpeech_quiet : quiet _quoteSpeech.
Proof. intros ctx previous remaining preceding following p o H.
  unfold _quoteSpeech in H. open_rule H. Qed.

Lemma shortenDipthong_quiet : quiet (_shortenDipthong IPA).
Proof. intros ctx previous remaining preceding following p o H.
  unfold _shortenDipthong in H. open_rule H. Qed.

Lemma liquidateVowels_spec ctx previous remaining preceding following p o :
  _liquidateVowels IPA ctx previous remaining preceding following p = Ok o ->
  preceding_params o = [] /\ modified o = p
  /\ (following_params o = []
      \/ (remaining = 0
          /\ ipa.LIQUIDS IPA (ipa_character ctx) = true
          /\ exists vowel rest sound,
               following_phonemes ctx = vowel :: rest
               /\ ipa.VOWELS IPA vowel = true
               /\ following_params o = [sound]
               /\ (table_complete IPA -> sized p -> sized sound))).
Proof.
  unfold _liquidateVowels. intros H.
  destruct (following_phonemes ctx) as [|vowel rest];
    [injection H as <-; split; [reflexivity|]; split; [reflexivity|];
     left; reflexivity|].
  destruct (remaining =? 0) eqn:Hremaining;
    [|injection H as <-; split; [reflexivity|]; split; [reflexivity|];
      left; reflexivity].
  destruct (ipa.LIQUIDS IPA (ipa_character ctx)) eqn:Hliquid;
    [|injection H as <-; split; [reflexivity|]; split; [reflexivity|];
      left; reflexivity].
  destruct (ipa.VOWELS IPA vowel) eqn:Hvowel;
    [|injection H as <-; split; [reflexivity|]; split; [reflexivity|];
      left; reflexivity].
  cbn [andb] in H. bind_inv H. rename a into vowel_values.
  cbv zeta in H. bind_inv H. rename a into blend.
  bind_inv H. bind_inv H. injection H as <-.
  split; [reflexivity|]. split; [reflexivity|]. right.
  apply Z.eqb_eq in Hremaining. split; [exact Hremaining|].
  split; [reflexivity|]. exists vowel, rest, (blend ++ [Int a0]).
  split; [reflexivity|]. split; [exact Hvowel|]. split; [reflexivity|].
  intros Htable Hsized. apply SeqFacts.lookup_Ok in Hstep.
  apply Htable in Hstep. unfold blend_1_2 in Hstep0.
  apply UniversalRulesMore.mapM_length in Hstep0. unfold sized in *.
  rewrite length_app, Hstep0, length_combine,
    !UniversalRulesMore.slice_to_32_length by lia.
  reflexivity.
Qed.

Lemma run_rules_quiet (rules : list rule) :
  Forall quiet rules ->
  forall ctx transformed remaining p m preceding following p' m' preceding'
         following',
    run_rules rules ctx transformed remaining p m preceding following
    = Ok (p', m', preceding', following') ->
    preceding' = preceding /\ following' = following
    /\ same_but touched p p'.
Proof.
  induction 1 as [|r rules Hr Hrules IH];
    intros ctx transformed remaining p m preceding following p' m' preceding'
      following' H; cbn [run_rules] in H.
  - injection H as <- <- <- <-. split; [reflexivity|]. split; [reflexivity|].
    apply same_but_refl.
  - bind_inv H. rename a into o. bind_inv H. cbv zeta in H.
    apply Hr in Hstep. destruct Hstep as (Hpre & Hfol & Hsame).
    apply IH in H. destruct H as (-> & -> & Hsame').
    rewrite Hpre, Hfol, app_nil_r. split; [reflexivity|]. split; [reflexivity|].
    eapply same_but_trans; eassumption.
Qed.

Lemma later_rules_quiet :
  Forall quiet
    [_inflectQuestionPitch IPA float_pow; _amplifyContent IPA;
     _emphasizeSpeech IPA; _quoteSpeech; _degradePitch float_pow;
     _lengthenTerminal IPA; _shortenDipthong IPA; _exclaim IPA].
Proof.
  repeat match goal with
         | |- Forall _ (_ :: _) => apply Forall_cons
         | |- Forall _ [] => apply Forall_nil
         end.
  - apply inflectQuestionPitch_quiet.
  - apply amplifyContent_quiet.
  - apply emphasizeSpeech_quiet.
  - apply quoteSpeech_quiet.
  - apply degradePitch_quiet.
  - apply lengthenTerminal_quiet.
  - apply shortenDipthong_quiet.
  - apply exclaim_quiet.
Qed.

Lemma run_rules_canadian ctx transformed remaining p p' m' preceding' following' :
  run_rules (RULE_FUNCTIONS IPA float_pow) ctx transformed remaining p
    (Float 1.0) [] [] = Ok (p', m', preceding', following') ->
  preceding' = [] /\ pass_spec IPA ctx remaining p p' following'.
Proof.
  unfold RULE_FUNCTIONS. intros H. cbn [run_rules] in H.
  bind_inv H. rename a into o. bind_inv H. cbv zeta in H.
  apply liquidateVowels_spec in Hstep.
  destruct Hstep as (Hpre & Hmodified & Hfol).
  apply (run_rules_quiet _ later_rules_quiet) in H.
  destruct H as (-> & -> & Hsame).
  rewrite Hpre, Hmodified in *. split; [reflexivity|].
  split; [exact Hsame|]. rewrite app_nil_r. exact Hfol.
Qed.

Lemma each_parameters_canadian ctx count (parameters_list : list parameters) :
  forall i transformed multipliers frames multipliers',
    each_parameters (RULE_FUNCTIONS IPA float_pow) ctx count i parameters_list
      transformed multipliers = Ok (frames, multipliers') ->
    count - i = len parameters_list - 1 ->
    exists modified_list extra,
      frames = transformed ++ modified_list ++ extra
      /\ Forall2 (same_but touched) parameters_list modified_list
      /\ (extra = []
          \/ (ipa.LIQUIDS IPA (ipa_character ctx) = true
              /\ exists vowel rest sound,
                   following_phonemes ctx = vowel :: rest
                   /\ ipa.VOWELS IPA vowel = true
                   /\ extra = [sound]
                   /\ (table_complete IPA -> Forall sized parameters_list ->
                       sized sound))).
Proof.
  induction parameters_list as [|p rest IH];
    intros i transformed multipliers frames multipliers' H Hcount;
    cbn [each_parameters] in H.
  - injection H as <- <-. exists [], []. rewrite app_nil_r.
    split; [reflexivity|]. split; [constructor|]. left. reflexivity.
  - bind_inv H. destruct a as [[[p' m'] preceding'] following'].
    cbv zeta in H. apply run_rules_canadian in Hstep.
    destruct Hstep as (-> & Hsame & Hextra).
    destruct rest as [|q rest].
    + cbn [each_parameters] in H. injection H as <- <-.
      exists [p'], following'. split; [reflexivity|].
      split; [constructor; [exact Hsame|constructor]|].
      destruct Hextra as [->|(_ & Hliquid & vowel & rest & sound & Hfollowing
                              & Hvowel & -> & Hsized)]; [left; reflexivity|].
      right. split; [exact Hliquid|]. exists vowel, rest, sound.
      split; [exact Hfollowing|]. split; [exact Hvowel|]. split; [reflexivity|].
      intros Htable Hall. apply Hsized; [exact Htable|].
      inversion Hall; assumption.
    + destruct Hextra as [->|(Hzero & _)];
        [|unfold len in Hcount; cbn [length] in Hcount; lia].
      apply IH in H; [|unfold len in *; cbn [length] in *; lia].
      destruct H as (modified_list & extra & -> & Hall & Hextra).
      exists (p' :: modified_list), extra.
      split; [cbn [app]; rewrite <- !app_assoc; reflexivity|].
      split; [constructor; assumption|].
      destruct Hextra as [->|(Hliquid & vowel & rest' & sound & Hfollowing
                              & Hvowel & -> & Hsized)]; [left; reflexivity|].
      right. split; [exact Hliquid|]. exists vowel, rest', sound.
      split; [exact Hfollowing|]. split; [exact Hvowel|]. split; [reflexivity|].
      intros Htable Hsizes. apply Hsized; [exact Htable|].
      inversion Hsizes; assumption.
Qed.

(** X28: the Canadian English rules leave every parameter-set in its place and
    write to eight of its fields only (f1, three bandwidths, the bypass
    gain, the voicing amplitudes and the duration); they put nothing before
    a parameter-set, and the only thing they add is one parameter-set at the
    very end of a liquid that a vowel follows. *)
Theorem canadian_rules_touch_eight_fields ctx parameters_list frames multipliers :
  applyRules (RULE_FUNCTIONS IPA float_pow) ctx parameters_list
  = Ok (frames, multipliers) ->
  exists modified_list extra,
    frames = modified_list ++ extra
    /\ Forall2 (same_but touched) parameters_list modified_list
    /\ (length extra <= 1)%nat
    /\ (extra <> [] ->
        ipa.LIQUIDS IPA (ipa_character ctx) = true
        /\ exists vowel rest,
             following_phonemes ctx = vowel :: rest
             /\ ipa.VOWELS IPA vowel = true).
Proof.
  unfold applyRules. cbv zeta. intros H.
  apply each_parameters_canadian in H; [|lia].
  destruct H as (modified_list & extra & -> & Hall & Hextra).
  exists modified_list, extra. split; [reflexivity|]. split; [exact Hall|].
  destruct Hextra as [->|(Hliquid & vowel & rest & sound & Hfollowing & Hvowel
                          & -> & _)].
  - split; [cbn [length]; lia|]. intros Hextra. contradiction Hextra. reflexivity.
  - split; [cbn [length]; lia|]. intros _. split; [exact Hliquid|].
    exists vowel, rest. split; assumption.
Qed.

(** X29: with a parameter table whose entries have all their fields, the
    Canadian English rules turn parameter-sets of 33 fields into
    parameter-sets of 33 fields, the one they may add included. *)
Theorem canadian_rules_keep_33_fields ctx parameters_list frames multipliers :
  table_complete IPA ->
  Forall sized parameters_list ->
  applyRules (RULE_FUNCTIONS IPA float_pow) ctx parameters_list
  = Ok (frames, multipliers) ->
  Forall sized frames.
Proof.
  unfold applyRules. cbv zeta. intros Htable Hsizes H.
  apply each_parameters_canadian in H; [|lia].
  destruct H as (modified_list & extra & -> & Hall & Hextra).
  cbn [app]. apply Forall_app. split.
  - clear Hextra. induction Hall as [|p p' l l' [Hlen _] Hall IH]; [constructor|].
    inversion Hsizes as [|? ? Hp Hl]; subst.
    constructor; [unfold sized in *; congruence|apply IH; exact Hl].
  - destruct Hextra as [->|(_ & vowel & rest & sound & _ & _ & -> & Hsized)];
      [constructor|].
    constructor; [apply Hsized; assumption|constructor].
Qed.

End Quiet.
End CanadianFacts.


(** ** More worked examples *)

Module MoreExamples.
Import Py parwave universal_rules language_rules transform Spec Terms.

(** Three milliseconds at the base pitch: a period of 80 samples and a
    target of 30. *)
Lemma plain_output_length_example :
  exists self' sounds,
    synthesize Demo.math_cos Demo.math_e_pow Demo.random_uniform __init__
      Demo.brief_sound (Float 1.0) false = Ok (self', sounds)
    /\ (0 <= 80 -> len sounds = Z.max 0 30)
    /\ (80 < 0 -> len sounds = Z.max 0 (30 + 80)).
Proof.
  do 2 eexists. split; [vm_compute; reflexivity|].
  eapply (ParwaveMore.plain_output_length Demo.math_cos Demo.math_e_pow
            Demo.random_uniform __init__ Demo.brief_sound (Float 1.0));
    [reflexivity|reflexivity|vm_compute; reflexivity].
Defined.

(** A period of 80 samples against a target of 30: too long for turbo
    mode to cut in. *)
Lemma turbo_without_effect_example :
  period_length (Float 1.0) = Ok 80
  /\ samples_target_of Demo.brief_sound = Ok 30
  /\ synthesize Demo.math_cos Demo.math_e_pow Demo.random_uniform __init__
       Demo.brief_sound (Float 1.0) true
     = synthesize Demo.math_cos Demo.math_e_pow Demo.random_uniform __init__
         Demo.brief_sound (Float 1.0) false.
Proof.
  split; [reflexivity|]. split; [reflexivity|].
  apply (ParwaveMore.turbo_without_effect Demo.math_cos Demo.math_e_pow
           Demo.random_uniform __init__ Demo.brief_sound (Float 1.0) 80 30);
    [reflexivity|reflexivity|lia].
Defined.

(** A period of 4 samples against a target of 30. *)
Lemma turbo_starts_like_plain_example :
  exists self1 out1 self2 out2,
    synthesize Demo.math_cos Demo.math_e_pow Demo.random_uniform __init__
      Demo.brief_sound (Float 0.05) true = Ok (self1, out1)
    /\ synthesize Demo.math_cos Demo.math_e_pow Demo.random_uniform __init__
         Demo.brief_sound (Float 0.05) false = Ok (self2, out2)
    /\ firstn (Z.to_nat 4) out1 = firstn (Z.to_nat 4) out2.
Proof.
  do 4 eexists. split; [vm_compute; reflexivity|].
  split; [vm_compute; reflexivity|].
  eapply (ParwaveMore.turbo_starts_like_plain Demo.math_cos Demo.math_e_pow
            Demo.random_uniform __init__ Demo.brief_sound (Float 0.05) 4 30);
    [reflexivity|reflexivity|lia|vm_compute; reflexivity|vm_compute; reflexivity].
Defined.

(** Turbo mode with a period of 4 samples: eight draws. *)
Lemma synthesize_draws_example :
  exists self' sounds,
    synthesize Demo.math_cos Demo.math_e_pow Demo.random_uniform __init__
      Demo.brief_sound (Float 0.05) true = Ok (self', sounds)
    /\ draws_made 4 30 true = 8%nat
    /\ rng_calls self' = (rng_calls __init__ + draws_made 4 30 true)%nat
    /\ _noise self'
       = noise_after Demo.random_uniform (rng_calls __init__)
           (draws_made 4 30 true) (_noise __init__).
Proof.
  do 2 eexists. split; [vm_compute; reflexivity|]. split; [reflexivity|].
  eapply (ParwaveMore.synthesize_draws Demo.math_cos Demo.math_e_pow
            Demo.random_uniform __init__ Demo.brief_sound (Float 0.05) true);
    [reflexivity|reflexivity|vm_compute; reflexivity].
Defined.

(** A fresh synthesizer and one whose resonators have been used. *)
Lemma synthesize_forgets_resonators_example :
  _cascade_resonators __init__ <> _cascade_resonators DemoMore.used_synthesizer
  /\ synthesize Demo.math_cos Demo.math_e_pow Demo.random_uniform __init__
       Demo.brief_sound (Float 0.05) true
     = synthesize Demo.math_cos Demo.math_e_pow Demo.random_uniform
         DemoMore.used_synthesizer Demo.brief_sound (Float 0.05) true.
Proof.
  split; [intros H; vm_compute in H; discriminate H|].
  apply (ParwaveMore.synthesize_forgets_resonators Demo.math_cos Demo.math_e_pow
           Demo.random_uniform __init__ DemoMore.used_synthesizer);
    [split; reflexivity|split; reflexivity|reflexivity|reflexivity].
Defined.

(** A parameter set that lacks its duration. *)
Lemma synthesize_wants_33_fields_example :
  length (firstn 32 Demo.a_sound) = 32%nat
  /\ synthesize Demo.math_cos Demo.math_e_pow Demo.random_uniform __init__
       (firstn 32 Demo.a_sound) (Float 1.0) false = Raise ValueError.
Proof.
  split; [reflexivity|].
  apply (ParwaveMore.synthesize_wants_33_fields Demo.math_cos Demo.math_e_pow
           Demo.random_uniform __init__ (firstn 32 Demo.a_sound) (Float 1.0)
           false 80); [reflexivity|simpl; lia].
Defined.

(** The stand-ins for the library functions always return. *)
Lemma synthesize_returns_example :
  (forall x, Demo.math_cos x <> Diverge)
  /\ (forall x, Demo.math_e_pow x <> Diverge)
  /\ synthesize Demo.math_cos Demo.math_e_pow Demo.random_uniform __init__
       Demo.brief_sound (Float 0.05) true <> Diverge.
Proof.
  split; [intros x; discriminate|]. split; [intros x; discriminate|].
  apply (ParwaveMore.synthesize_returns Demo.math_cos Demo.math_e_pow
           Demo.random_uniform); intros x; discriminate.
Defined.

Lemma assoc_In {V : Type} (l : list (unicode * V)) (k : unicode) (v : V) :
  Demo.assoc l k = Some v -> In v (map snd l).
Proof.
  induction l as [|[k' v'] l IH]; cbn [Demo.assoc map snd]; [discriminate|].
  destruct (unicode_eqb k k').
  - intros H. injection H as <-. left. reflexivity.
  - intros H. right. apply IH. exact H.
Qed.

Lemma demo_table_complete : table_complete Demo.IPA.
Proof.
  intros symbol values H. apply assoc_In in H.
  cbn [Demo.table map snd In] in H.
  repeat (destruct H as [<-|H]; [cbn; lia|]). destruct H.
Qed.

Lemma demo_more_table_complete : table_complete DemoMore.IPA.
Proof.
  intros symbol values H. apply assoc_In in H.
  cbn [DemoMore.table Demo.table app map snd In] in H.
  repeat (destruct H as [<-|H]; [cbn; lia|]). destruct H.
Qed.

(** A word that starts with a vowel, after a word that ends in a
    consonant. *)
Lemma bridgeWords_adds_at_most_one_example :
  exists out,
    bridgeWords Demo.IPA (u "a") [] [] [u "an"] [Demo.a_sound] = Ok out
    /\ (out = [Demo.a_sound]
        \/ (ipa.VOWELS Demo.IPA (u "a") = true
            /\ @nil unicode = [] /\ [u "an"] <> []
            /\ exists extra,
                (out = [Demo.a_sound] ++ [extra] \/ out = extra :: [Demo.a_sound])
                /\ getitem extra (-1) = Ok (Int 50))).
Proof.
  eexists. split; [vm_compute; reflexivity|].
  apply (UniversalRulesMore.bridgeWords_adds_at_most_one Demo.IPA (u "a") [] []
           [u "an"] [Demo.a_sound]).
  vm_compute. reflexivity.
Defined.

(** A stop between two vowels: a transition on either side of the one
    parameter-set given. *)
Lemma shapeContours_adds_at_the_ends_example :
  exists out,
    shapeContours Demo.IPA (u "t") [u "a"] [u "i"] [Demo.t_sound] = Ok out
    /\ length out = 3%nat
    /\ exists lead middle tail,
        out = lead ++ middle ++ tail
        /\ Forall2 same_sound [Demo.t_sound] middle
        /\ one_transition true lead
        /\ one_transition
             (negb (ipa.VOWELS Demo.IPA (u "t") && ipa.NASALS Demo.IPA (u "i")))
             tail.
Proof.
  eexists. split; [vm_compute; reflexivity|]. split; [reflexivity|].
  apply (UniversalRulesMore.shapeContours_adds_at_the_ends Demo.IPA (u "t")
           [u "a"] [u "i"] [Demo.t_sound]).
  vm_compute. reflexivity.
Defined.

(** A vowel before a nasal, at the start of a word that follows another. *)
Lemma universal_stages_keep_33_fields_example :
  exists nasalized bridged shaped,
    nasalizeVowel Demo.IPA (u "a") [u "n"] [Demo.a_sound] = Ok nasalized
    /\ bridgeWords Demo.IPA (u "a") [] [u "n"] [u "ta"] nasalized = Ok bridged
    /\ shapeContours Demo.IPA (u "a") [] [u "n"] bridged = Ok shaped
    /\ length shaped = 4%nat
    /\ Forall sized shaped.
Proof.
  do 3 eexists. split; [vm_compute; reflexivity|].
  split; [vm_compute; reflexivity|]. split; [vm_compute; reflexivity|].
  split; [reflexivity|].
  eapply (UniversalRulesMore.universal_stages_keep_33_fields Demo.IPA
            demo_table_complete (u "a") [] [u "n"] [u "ta"] [Demo.a_sound]);
    [repeat constructor|vm_compute; reflexivity|vm_compute; reflexivity
     |vm_compute; reflexivity].
Defined.


(** Two parameter-sets under a rule that appends one to each. *)
Lemma applyRules_lengths_example :
  exists frames multipliers,
    applyRules [Demo.append_rule Demo.h_sound] (Demo.lone_context (u "a"))
      [Demo.a_sound; Demo.i_sound] = Ok (frames, multipliers)
    /\ length frames = 4%nat
    /\ length frames = length multipliers
    /\ (length [Demo.a_sound; Demo.i_sound] <= length frames)%nat.
Proof.
  do 2 eexists. split; [vm_compute; reflexivity|]. split; [reflexivity|].
  apply (LanguageRulesMore.applyRules_lengths [Demo.append_rule Demo.h_sound]
           (Demo.lone_context (u "a")) [Demo.a_sound; Demo.i_sound]).
  vm_compute. reflexivity.
Defined.

(** A content word with a shortened vowel, a comma, a closing emphasis
    mark and a question mark, and a line feed after it all. *)
Lemma matched_token_parts_example :
  _WORD_REGEXP Demo.IPA (u "'a<n,*?" ++ [c_newline])
  = Some (u "'", u "a<n,", u "*?")
  /\ token_parts Demo.IPA (u "'a<n,*?" ++ [c_newline]) (u "'") (u "a<n,") (u "*?").
Proof.
  split; [reflexivity|].
  apply (TokenFacts.matched_token_parts Demo.IPA). reflexivity.
Defined.

Lemma grammar_tokens_are_matched_example :
  token_parts Demo.IPA (u "*ta-n,!?") (u "*") (u "ta-n,") (u "!?")
  /\ _WORD_REGEXP Demo.IPA (u "*ta-n,!?") <> None.
Proof.
  assert (Hparts : token_parts Demo.IPA (u "*ta-n,!?") (u "*") (u "ta-n,") (u "!?")).
  { split; [left; reflexivity|].
    exists (u "*"), [], 116%N, (u "a-n"), (u ","), [], (u "!?").
    cbn [In quote_emphasis terminal]. repeat split; try reflexivity; tauto. }
  split; [exact Hparts|].
  apply (TokenFacts.grammar_tokens_are_matched Demo.IPA _ _ _ _ Hparts).
Defined.

(** Punctuation on its own. *)
Lemma token_without_ipa_is_rejected_example :
  forallb (fun c => negb (_IPA_CHARACTERS Demo.IPA c)) (u "*?!") = true
  /\ _WORD_REGEXP Demo.IPA (u "*?!") = None.
Proof.
  split; [reflexivity|].
  apply (TokenFacts.token_without_ipa_is_rejected Demo.IPA). reflexivity.
Defined.

Lemma filtered_cluster_is_ipa_example :
  _WORD_REGEXP Demo.IPA (u "'a<n,*?") = Some (u "'", u "a<n,", u "*?")
  /\ _FILTER_REGEXP (u "a<n,") = u "an"
  /\ Forall (fun c => _IPA_CHARACTERS Demo.IPA c = true) (_FILTER_REGEXP (u "a<n,"))
  /\ ((forall c, _IPA_CHARACTERS Demo.IPA c = true -> _FILTER_REGEXP [c] = [c]) ->
      _FILTER_REGEXP (u "a<n,") <> []).
Proof.
  split; [reflexivity|]. split; [reflexivity|].
  apply (TokenFacts.filtered_cluster_is_ipa Demo.IPA (u "'a<n,*?") (u "'")
           (u "a<n,") (u "*?")).
  reflexivity.
Defined.

(** Three tokens, the second of which ends a sentence. *)
Lemma sentence_ends_at_first_terminal_example :
  exists words markup,
    _extractSentence Demo.IPA [u "an"; u "ta."; u "ni"] 1
    = Ok ((words, markup), [u "ni"])
    /\ exists taken,
        [u "an"; u "ta."; u "ni"] = taken ++ [u "ni"]
        /\ map fst words = map (cluster_of Demo.IPA) taken
        /\ forallb (well_formed Demo.IPA) taken = true
        /\ forallb (fun t => negb (ends_sentence Demo.IPA t)) (removelast taken)
           = true
        /\ ([u "ni"] <> [] -> ends_sentence Demo.IPA (last taken []) = true)
        /\ ([u "an"; u "ta."; u "ni"] <> [] -> taken <> []).
Proof.
  do 2 eexists. split; [vm_compute; reflexivity|].
  eapply (SentenceFacts.sentence_ends_at_first_terminal Demo.IPA
           [u "an"; u "ta."; u "ni"] 1).
  vm_compute. reflexivity.
Defined.

(** A sentence that ends in both marks. *)
Lemma sentence_flags_from_last_token_example :
  exists words markup,
    _extractSentence Demo.IPA ([u "an"] ++ u "ta?!" :: [u "ni"]) 1
    = Ok ((words, markup), [u "ni"])
    /\ closing_of Demo.IPA (u "ta?!") = u "?!"
    /\ has_flag _SENTENCE_QUESTION markup
       = contains (closing_of Demo.IPA (u "ta?!")) c_question
    /\ has_flag _SENTENCE_EXCLAMATION markup
       = contains (closing_of Demo.IPA (u "ta?!")) c_exclamation.
Proof.
  do 2 eexists. split; [vm_compute; reflexivity|]. split; [reflexivity|].
  eapply (SentenceFacts.sentence_flags_from_last_token Demo.IPA [u "an"]
           (u "ta?!") [u "ni"] 1).
  vm_compute. reflexivity.
Defined.

(** A shortened vowel with a comma after it. *)
Lemma comma_adds_quarter_second_example :
  endswith (u "a<<<<") c_comma = false
  /\ _wordToSound Demo.IPA [] Demo.math_cos Demo.math_e_pow Demo.random_uniform
       (u "a<<<<" ++ [c_comma], []) 1 0 [] [] 1 0 false false
       (mk_options false false true) __init__
     = ('(synthesizer', sounds) <-
          _wordToSound Demo.IPA [] Demo.math_cos Demo.math_e_pow
            Demo.random_uniform (u "a<<<<", []) 1 0 [] [] 1 0 false false
            (mk_options false false true) __init__ ;;
        Ok (set_noise synthesizer' 0%float (rng_calls synthesizer'),
            sounds ++ repeat 0 2500)).
Proof.
  split; [reflexivity|].
  apply (WordFacts.comma_adds_quarter_second Demo.IPA [] Demo.math_cos
           Demo.math_e_pow Demo.random_uniform (u "a<<<<")).
  reflexivity.
Defined.

(** Two blanks. *)
Lemma blank_paragraph_gives_nothing_example :
  forallb isspace (u "  ") = true
  /\ paragraphToSound Demo.IPA [] Demo.math_cos Demo.math_e_pow
       Demo.random_uniform (u "  ") (mk_options false false true) __init__
     = Ok (set_noise __init__ 0%float (rng_calls __init__), []).
Proof.
  split; [reflexivity|].
  apply (WordFacts.blank_paragraph_gives_nothing Demo.IPA [] Demo.math_cos
           Demo.math_e_pow Demo.random_uniform).
  reflexivity.
Defined.

(** Two one-phoneme sentences of a few milliseconds each. *)
Lemma paragraph_samples_in_16_bit_range_example :
  exists synthesizer' segments,
    paragraphToSound Demo.IPA [] Demo.math_cos Demo.math_e_pow
      Demo.random_uniform (u "a<<<<. i<<<<?") (mk_options false false false)
      __init__ = Ok (synthesizer', segments)
    /\ Forall (Forall in_range) segments.
Proof.
  do 2 eexists. split; [vm_compute; reflexivity|].
  eapply (OutputFacts.paragraph_samples_in_16_bit_range Demo.IPA [] Demo.math_cos
            Demo.math_e_pow Demo.random_uniform (u "a<<<<. i<<<<?")
            (mk_options false false false) __init__).
  vm_compute. reflexivity.
Defined.

(** Three samples that fit a short, and a batch with one that does not. *)
Lemma addSamples_all_or_nothing_example :
  waveform._finalized waveform.__init__ = false
  /\ waveform.pack_all [1; -2; 32767] = inr [[1; 0]; [254; 255]; [255; 127]]
  /\ (Forall in_range [1; -2; 32767] ->
      exists wave_form',
        waveform.addSamples waveform.__init__ [1; -2; 32767] = (wave_form', None)
        /\ waveform._finalized wave_form' = false
        /\ bytes_written wave_form'
           = bytes_written waveform.__init__ + 2 * len [1; -2; 32767])
  /\ (~ Forall in_range [1; -2; 32767] ->
      waveform.addSamples waveform.__init__ [1; -2; 32767]
      = (waveform.__init__, Some waveform.struct_error)).
Proof.
  split; [reflexivity|]. split; [reflexivity|].
  apply (OutputFacts.addSamples_all_or_nothing waveform.__init__ [1; -2; 32767]).
  reflexivity.
Defined.

Lemma paragraph_is_written_whole_example :
  exists synthesizer' segments,
    paragraphToSound Demo.IPA [] Demo.math_cos Demo.math_e_pow
      Demo.random_uniform (u "a<<<<. i<<<<?") (mk_options false false true)
      __init__ = Ok (synthesizer', segments)
    /\ exists wave_form',
        klatt.add_segments waveform.__init__ segments = (wave_form', None)
        /\ waveform._finalized wave_form' = false
        /\ bytes_written wave_form'
           = bytes_written waveform.__init__ + 2 * len (concat segments).
Proof.
  do 2 eexists. split; [vm_compute; reflexivity|].
  eapply (OutputFacts.paragraph_is_written_whole Demo.IPA [] Demo.math_cos
            Demo.math_e_pow Demo.random_uniform (u "a<<<<. i<<<<?")
            (mk_options false false true) __init__);
    [vm_compute; reflexivity|reflexivity].
Defined.

(** A liquid before a vowel, in a content word of an exclamation. *)
Lemma canadian_rules_touch_eight_fields_example :
  exists frames multipliers,
    applyRules (english_canadian.RULE_FUNCTIONS DemoMore.IPA DemoMore.float_pow)
      DemoMore.liquid_context [DemoMore.l_sound] = Ok (frames, multipliers)
    /\ length frames = 2%nat
    /\ exists modified_list extra,
        frames = modified_list ++ extra
        /\ Forall2 (same_but touched) [DemoMore.l_sound] modified_list
        /\ (length extra <= 1)%nat
        /\ (extra <> [] ->
            ipa.LIQUIDS DemoMore.IPA (ipa_character DemoMore.liquid_context) = true
            /\ exists vowel rest,
                 following_phonemes DemoMore.liquid_context = vowel :: rest
                 /\ ipa.VOWELS DemoMore.IPA vowel = true).
Proof.
  do 2 eexists. split; [vm_compute; reflexivity|]. split; [reflexivity|].
  eapply (CanadianFacts.canadian_rules_touch_eight_fields DemoMore.IPA
            DemoMore.float_pow DemoMore.liquid_context [DemoMore.l_sound]).
  vm_compute. reflexivity.
Defined.

Lemma canadian_rules_keep_33_fields_example :
  exists frames multipliers,
    applyRules (english_canadian.RULE_FUNCTIONS DemoMore.IPA DemoMore.float_pow)
      DemoMore.liquid_context [DemoMore.l_sound] = Ok (frames, multipliers)
    /\ Forall sized frames.
Proof.
  do 2 eexists. split; [vm_compute; reflexivity|].
  eapply (CanadianFacts.canadian_rules_keep_33_fields DemoMore.IPA
            DemoMore.float_pow DemoMore.liquid_context [DemoMore.l_sound]);
    [exact demo_more_table_complete|repeat constructor|vm_compute; reflexivity].
Defined.

End MoreExamples.
